(** * Bowl-saver digital twin: the geometric core of [functions.js]

    A shallow embedding of the angle and vector primitives, the three
    line-arc intersection solvers, and the cut / assembly state model of
    [functions.js], followed by the properties established about them.

    JavaScript numbers are modelled as real numbers.  The arithmetic
    primitives that leave the reals on some real input ([Math.sqrt] of a
    negative number, a division by zero) and property reads on [undefined]
    are modelled as faults of the [outcome] type, so that "this operation
    cannot fail" is a statement one can prove. *)

From Stdlib Require Import Reals Lra Lia List Bool ZArith PeanoNat Sorted.
Import ListNotations.

Local Open Scope R_scope.

(** ** JavaScript numeric primitives over the reals *)

(** Truncation toward zero, the quotient JavaScript's [%] uses. *)
Definition Rtrunc (a : R) : Z :=
  if Rle_dec 0 a then Int_part a else (- Int_part (- a))%Z.

(** [a % b] for a non-zero [b]: the remainder has the sign of the dividend. *)
Definition js_rem (a b : R) : R := a - b * IZR (Rtrunc (a / b)).

(** [Math.atan2(y, x)], in radians, range (-PI, PI]. *)
Definition Math_atan2 (y x : R) : R :=
  if Rlt_dec 0 x then atan (y / x)
  else if Rlt_dec x 0 then
         (if Rle_dec 0 y then atan (y / x) + PI else atan (y / x) - PI)
  else if Rlt_dec 0 y then PI / 2
  else if Rlt_dec y 0 then - (PI / 2)
  else 0.

Definition Rleb (a b : R) : bool := if Rle_dec a b then true else false.
Definition Rltb (a b : R) : bool := if Rlt_dec a b then true else false.
Definition Rgeb (a b : R) : bool := Rleb b a.
Definition Rgtb (a b : R) : bool := Rltb b a.

(** ** Faults *)

Inductive fault : Set :=
| TypeError      (* a property read on [undefined] or [null] *)
| NotANumber.    (* an arithmetic primitive left the reals (NaN, Infinity) *)

Inductive outcome (A : Type) : Type :=
| Ok (a : A)
| Fault (f : fault).
Arguments Ok {A} a.
Arguments Fault {A} f.

Definition bind {A B : Type} (m : outcome A) (k : A -> outcome B) : outcome B :=
  match m with
  | Ok a => k a
  | Fault f => Fault f
  end.

Notation "x <- m ;; k" := (bind m (fun x => k))
  (at level 61, m at next level, right associativity).
Notation "' pat <- m ;; k" := (bind m (fun x => match x with pat => k end))
  (at level 61, pat pattern, m at next level, right associativity).

(** [Math.sqrt]: NaN on a negative argument. *)
Definition Math_sqrt (a : R) : outcome R :=
  if Rlt_dec a 0 then Fault NotANumber else Ok (sqrt a).

(** [a / b]: NaN or an infinity on a zero divisor. *)
Definition js_div (a b : R) : outcome R :=
  if Req_EM_T b 0 then Fault NotANumber else Ok (a / b).

(** A default parameter value: [undefined] selects the default. *)
Definition or_default (d : R) (a : option R) : R :=
  match a with Some v => v | None => d end.

(** ** MathUtils: angles *)

Definition degreesToRadians (degrees : R) : R := (degrees * PI) / 180.

Definition radiansToDegrees (radians : R) : R := (radians * 180) / PI.

Definition angleFromArcLength (radius length : R) : R :=
  (length / radius) * (180 / PI).

Definition normalizeAngle (angle : R) : R := js_rem (angle + 360) 360.

Definition isAngleBetween (angle startAngle endAngle : R) : bool :=
  let normalizedAngle := normalizeAngle angle in
  let normalizedStart := normalizeAngle startAngle in
  let normalizedEnd := normalizeAngle endAngle in
  if Rleb normalizedStart normalizedEnd then
    Rgeb normalizedAngle normalizedStart && Rleb normalizedAngle normalizedEnd
  else
    Rgeb normalizedAngle normalizedStart || Rleb normalizedAngle normalizedEnd.

(** ** Vector *)

Module Vector.

Record t : Set := mk { x : R; y : R }.

Definition fromPolar (magnitude angleInDegrees : R) : t :=
  let angleInRadians := degreesToRadians angleInDegrees in
  mk (magnitude * cos angleInRadians) (magnitude * sin angleInRadians).

Definition add (this vector : t) : t :=
  mk (x this + x vector) (y this + y vector).

Definition subtract (this vector : t) : t :=
  mk (x this - x vector) (y this - y vector).

Definition scale (this : t) (scalar : R) : t :=
  mk (x this * scalar) (y this * scalar).

Definition magnitude (this : t) : R := sqrt (x this ^ 2 + y this ^ 2).

Definition arg (this : t) : R := Math_atan2 (y this) (x this) * (180 / PI).

Definition rotate (this : t) (angleInDegrees : R) : t :=
  let angleInRadians := (angleInDegrees * PI) / 180 in
  let cosA := cos angleInRadians in
  let sinA := sin angleInRadians in
  let newX := x this * cosA - y this * sinA in
  let newY := x this * sinA + y this * cosA in
  mk newX newY.

End Vector.

(** ** MathUtils: polar conversion and the line-arc solvers *)

Definition polarToCartesian (radius angleInDegrees : R) : Vector.t :=
  let angleInRadians := (angleInDegrees - 90) * (PI / 180) in
  Vector.mk (radius * cos angleInRadians) (radius * sin angleInRadians).

(** The helper nested in [getIntersectingArcs]. *)
Definition isWithinArc (arcCenter : Vector.t) (arcStart arcEnd : R)
    (pt : Vector.t) : bool :=
  let angle := Vector.arg (Vector.subtract pt arcCenter) in
  isAngleBetween angle arcStart arcEnd.

Definition getIntersectingArcs (p1 p2 arcCenter : Vector.t)
    (arcStart arcEnd : R) : list Vector.t :=
  let points := [] in
  let points :=
    if isWithinArc arcCenter arcStart arcEnd p1 then points ++ [p1] else points in
  let points :=
    if isWithinArc arcCenter arcStart arcEnd p2 then points ++ [p2] else points in
  points.

Definition intersectionLineArcVertical (arcCenter : Vector.t)
    (r arcStart arcEnd : R) (x0 : option R) : outcome (list Vector.t) :=
  let x0 := or_default 0 x0 in
  let h := Vector.x arcCenter in
  let k := Vector.y arcCenter in
  let discriminant := r * r - (x0 - h) * (x0 - h) in
  if Rltb discriminant 0 then Ok []
  else
    sqrtD <- Math_sqrt discriminant ;;
    Ok (getIntersectingArcs (Vector.mk x0 (k + sqrtD)) (Vector.mk x0 (k - sqrtD))
          arcCenter arcStart arcEnd).

(** [isHorizontal] is accepted and never read, as in the source. *)
Definition intersectionLineArcHorizontal (arcCenter : Vector.t)
    (r arcStart arcEnd : R) (isHorizontal : option R) (y0 : option R)
    : outcome (list Vector.t) :=
  let y0 := or_default 0 y0 in
  let h := Vector.x arcCenter in
  let k := Vector.y arcCenter in
  let term := r * r - (y0 - k) * (y0 - k) in
  if Rltb term 0 then Ok []
  else
    sqrtT <- Math_sqrt term ;;
    Ok (getIntersectingArcs (Vector.mk (h + sqrtT) y0) (Vector.mk (h - sqrtT) y0)
          arcCenter arcStart arcEnd).

Definition intersectionLineArcAngle (arcCenter : Vector.t)
    (r arcStart arcEnd m c : R) : outcome (list Vector.t) :=
  let h := Vector.x arcCenter in
  let k := Vector.y arcCenter in
  let A := 1 + m * m in
  let B := -2 * h + 2 * m * (c - k) in
  let C := h * h + (c - k) * (c - k) - r * r in
  let discriminant := B * B - 4 * A * C in
  if Rltb discriminant 0 then Ok []
  else
    sqrtDiscriminant <- Math_sqrt discriminant ;;
    x1 <- js_div (- B + sqrtDiscriminant) (2 * A) ;;
    x2 <- js_div (- B - sqrtDiscriminant) (2 * A) ;;
    Ok (getIntersectingArcs (Vector.mk x1 (m * x1 + c)) (Vector.mk x2 (m * x2 + c))
          arcCenter arcStart arcEnd).

(** ** Objects and references

    [Vector] and [Cut] instances are objects: a field that holds one holds a
    reference into the heap, so that two fields can name the same object. *)

Abbreviation vref := nat (only parsing).
Abbreviation cref := nat (only parsing).

Fixpoint list_update {A : Type} (n : nat) (a : A) (l : list A) : list A :=
  match l, n with
  | [], _ => []
  | _ :: t, O => a :: t
  | b :: t, S n' => b :: list_update n' a t
  end.

Module Cut.

(** [svg_arc] records whether a [CutArc] is attached ([null] otherwise);
    the [CutArc] itself belongs to the presentation layer. *)
Record t : Set := mk {
  center : vref;
  rotation : R;
  radius : R;
  svg_arc : bool;
  wasSaved : bool
}.

Definition new (center : vref) (rotation radius : R) : t :=
  mk center rotation radius false false.

Definition clone (this : t) : t :=
  new (center this) (rotation this) (radius this).

Definition set_center (v : vref) (this : t) : t :=
  mk v (rotation this) (radius this) (svg_arc this) (wasSaved this).
Definition set_rotation (a : R) (this : t) : t :=
  mk (center this) a (radius this) (svg_arc this) (wasSaved this).
Definition set_radius (r : R) (this : t) : t :=
  mk (center this) (rotation this) r (svg_arc this) (wasSaved this).
Definition set_svg_arc (b : bool) (this : t) : t :=
  mk (center this) (rotation this) (radius this) b (wasSaved this).
Definition set_wasSaved (b : bool) (this : t) : t :=
  mk (center this) (rotation this) (radius this) (svg_arc this) b.

End Cut.

Module Heap.

Record t : Set := mk {
  vectors : list Vector.t;
  cutObjs : list Cut.t
}.

Definition getVector (r : vref) (h : t) : outcome Vector.t :=
  match nth_error (vectors h) r with
  | Some v => Ok v
  | None => Fault TypeError
  end.

Definition getCut (r : cref) (h : t) : outcome Cut.t :=
  match nth_error (cutObjs h) r with
  | Some c => Ok c
  | None => Fault TypeError
  end.

(** [new Vector(x, y)] *)
Definition newVector (v : Vector.t) (h : t) : vref * t :=
  (length (vectors h), mk (vectors h ++ [v]) (cutObjs h)).

(** [new Cut(center, rotation, radius)] *)
Definition newCut (c : Cut.t) (h : t) : cref * t :=
  (length (cutObjs h), mk (vectors h) (cutObjs h ++ [c])).

(** A field assignment [r.f = v] on a [Cut] object. *)
Definition setCut (r : cref) (f : Cut.t -> Cut.t) (h : t) : outcome t :=
  c <- getCut r h ;;
  Ok (mk (vectors h) (list_update r (f c) (cutObjs h))).

End Heap.

(** [CutArc.updatePath], reached through [cut.svg_arc]: it reads the cut's
    radius, rotation and center coordinates and rewrites SVG attributes. *)
Definition svg_arc_updatePath (cut : cref) (h : Heap.t) : outcome unit :=
  c <- Heap.getCut cut h ;;
  if Cut.svg_arc c then
    _ <- Heap.getVector (Cut.center c) h ;;
    Ok tt
  else Fault TypeError.

(** ** Constants *)

Definition cutterKerf : R := 10.
Definition tailstockFixArcRadius : R := 175.
Definition tailstockFixArcDegrees : R :=
  angleFromArcLength tailstockFixArcRadius 115.
Definition cutterArcDegrees : R := 90.
Definition DEFAULT_CUTTER_POSITION : Vector.t := Vector.mk 150 20.

(** [DEFAULT_CUTTER_POSITION] is one object, created when the script loads:
    the heap every session starts from holds it at reference 0. *)
Definition DEFAULT_CUTTER_POSITION_ref : vref := 0%nat.

Definition globals : Heap.t := Heap.mk [DEFAULT_CUTTER_POSITION] [].

(** ** Dimension and Arc: the state the core writes into them *)

Module Dimension.

Record t : Set := mk {
  start : Vector.t;
  dir : Vector.t;
  visible : bool
}.

Definition new : t := mk (Vector.mk 0 0) (Vector.mk 0 0) true.

Definition setVisible (isVisible : bool) (this : t) : t :=
  mk (start this) (dir this) isVisible.

Definition update (start' dir' : Vector.t) (this : t) : t :=
  mk start' dir' (visible this).

End Dimension.

Module Arc.

(** The data of the path string [M start A radius radius 0 flag 0 end]. *)
Record path : Set := mkPath {
  pathStart : Vector.t;
  pathRadius : R;
  largeArcFlag : bool;
  pathEnd : Vector.t
}.

Record t : Set := mk {
  arcAngle : R;
  inherentRotation : R;
  d : option path
}.

Definition generateArcPath (this : t) (radius : R) : path :=
  let startAngle := inherentRotation this in
  let endAngle := startAngle + arcAngle this in
  let start := Vector.fromPolar radius endAngle in
  let end_ := Vector.fromPolar radius startAngle in
  let largeArcFlag := if Rleb (endAngle - startAngle) 180 then false else true in
  mkPath start radius largeArcFlag end_.

Definition setRadius (radius : R) (this : t) : t :=
  mk (arcAngle this) (inherentRotation this) (Some (generateArcPath this radius)).

Definition new (radius arcAngle inherentRotation : R) : t :=
  setRadius radius (mk arcAngle inherentRotation None).

End Arc.

(** ** CutterAssembly *)

Module CutterAssembly.

Record t : Set := mk {
  center : vref;
  rotationAngle : R;
  cutterRadius : R;
  currentCut : cref;
  workpieceDim : vref;
  cutterArc : Arc.t;
  tailstockFixArc : Arc.t;
  hasIntersections : bool;   (* class "has-intersections" of the tailstock arc *)
  restDim : Dimension.t;
  offCenterDim : Dimension.t;
  distDim : Dimension.t;
  entryPointDim : Dimension.t
}.

Definition set_center (v : vref) (a : t) : t :=
  mk v (rotationAngle a) (cutterRadius a) (currentCut a) (workpieceDim a)
     (cutterArc a) (tailstockFixArc a) (hasIntersections a)
     (restDim a) (offCenterDim a) (distDim a) (entryPointDim a).
Definition set_rotationAngle (r : R) (a : t) : t :=
  mk (center a) r (cutterRadius a) (currentCut a) (workpieceDim a)
     (cutterArc a) (tailstockFixArc a) (hasIntersections a)
     (restDim a) (offCenterDim a) (distDim a) (entryPointDim a).
Definition set_cutterRadius (r : R) (a : t) : t :=
  mk (center a) (rotationAngle a) r (currentCut a) (workpieceDim a)
     (cutterArc a) (tailstockFixArc a) (hasIntersections a)
     (restDim a) (offCenterDim a) (distDim a) (entryPointDim a).
Definition set_workpieceDim (v : vref) (a : t) : t :=
  mk (center a) (rotationAngle a) (cutterRadius a) (currentCut a) v
     (cutterArc a) (tailstockFixArc a) (hasIntersections a)
     (restDim a) (offCenterDim a) (distDim a) (entryPointDim a).
Definition set_cutterArc (c : Arc.t) (a : t) : t :=
  mk (center a) (rotationAngle a) (cutterRadius a) (currentCut a) (workpieceDim a)
     c (tailstockFixArc a) (hasIntersections a)
     (restDim a) (offCenterDim a) (distDim a) (entryPointDim a).
Definition set_hasIntersections (b : bool) (a : t) : t :=
  mk (center a) (rotationAngle a) (cutterRadius a) (currentCut a) (workpieceDim a)
     (cutterArc a) (tailstockFixArc a) b
     (restDim a) (offCenterDim a) (distDim a) (entryPointDim a).
Definition set_restDim (d : Dimension.t) (a : t) : t :=
  mk (center a) (rotationAngle a) (cutterRadius a) (currentCut a) (workpieceDim a)
     (cutterArc a) (tailstockFixArc a) (hasIntersections a)
     d (offCenterDim a) (distDim a) (entryPointDim a).
Definition set_offCenterDim (d : Dimension.t) (a : t) : t :=
  mk (center a) (rotationAngle a) (cutterRadius a) (currentCut a) (workpieceDim a)
     (cutterArc a) (tailstockFixArc a) (hasIntersections a)
     (restDim a) d (distDim a) (entryPointDim a).
Definition set_distDim (d : Dimension.t) (a : t) : t :=
  mk (center a) (rotationAngle a) (cutterRadius a) (currentCut a) (workpieceDim a)
     (cutterArc a) (tailstockFixArc a) (hasIntersections a)
     (restDim a) (offCenterDim a) d (entryPointDim a).
Definition set_entryPointDim (d : Dimension.t) (a : t) : t :=
  mk (center a) (rotationAngle a) (cutterRadius a) (currentCut a) (workpieceDim a)
     (cutterArc a) (tailstockFixArc a) (hasIntersections a)
     (restDim a) (offCenterDim a) (distDim a) d.

(** The constructor: [center] and [workpieceDim] are fresh zero vectors. *)
Definition new (cutterRadius : R) (currentCut : cref) (h : Heap.t) : t * Heap.t :=
  let '(center, h) := Heap.newVector (Vector.mk 0 0) h in
  let '(workpieceDim, h) := Heap.newVector (Vector.mk 0 0) h in
  (mk center 0 cutterRadius currentCut workpieceDim
      (Arc.new cutterRadius cutterArcDegrees 90)
      (Arc.new tailstockFixArcRadius tailstockFixArcDegrees
               (- tailstockFixArcDegrees / 2))
      false Dimension.new Dimension.new Dimension.new Dimension.new,
   h).

Definition setWorkpieceDim (dim : vref) (this : t) : t :=
  set_workpieceDim dim this.

Definition checkTailstockArc (this : t) (h : Heap.t) : outcome t :=
  let startAngle := Arc.inherentRotation (tailstockFixArc this) + rotationAngle this in
  let endAngle := startAngle + Arc.arcAngle (tailstockFixArc this) in
  c <- Heap.getVector (center this) h ;;
  intersections <-
    intersectionLineArcHorizontal c tailstockFixArcRadius startAngle endAngle
      (Some 0) None ;;
  let hasIntersections := Nat.ltb 0 (length intersections) in
  Ok (set_hasIntersections hasIntersections this).

Definition updateEntryPointDim (this : t) (h : Heap.t) : outcome t :=
  let startAngle := Arc.inherentRotation (cutterArc this) + rotationAngle this in
  let endAngle := startAngle + Arc.arcAngle (cutterArc this) in
  c <- Heap.getVector (center this) h ;;
  wd <- Heap.getVector (workpieceDim this) h ;;
  intersections <-
    intersectionLineArcVertical c (cutterRadius this + cutterKerf / 2)
      startAngle endAngle (Some (Vector.x wd)) ;;
  let showDim := false in
  '(this, showDim) <-
    (if Nat.eqb (length intersections) 1 then
       match nth_error intersections 0 with
       | None => Fault TypeError
       | Some intersectPoint =>
           let dy := Vector.y wd / 2 - Vector.y intersectPoint in
           if Rgtb dy 0 && Rltb dy (Vector.y wd / 2) then
             Ok (set_entryPointDim
                   (Dimension.update intersectPoint (Vector.mk 0 dy)
                      (entryPointDim this)) this,
                 true)
           else Ok (this, showDim)
       end
     else Ok (this, showDim)) ;;
  Ok (set_entryPointDim (Dimension.setVisible showDim (entryPointDim this)) this).

Definition setRadius (radius : R) (this : t) (h : Heap.t) : outcome (t * Heap.t) :=
  let this := set_cutterRadius radius this in
  let this := set_cutterArc (Arc.setRadius radius (cutterArc this)) this in
  h <- Heap.setCut (currentCut this) (Cut.set_radius radius) h ;;
  _ <- svg_arc_updatePath (currentCut this) h ;;
  Ok (this, h).

Definition moveTo (pos : vref) (this : t) (h : Heap.t) : outcome (t * Heap.t) :=
  let this := set_center pos this in
  h <- Heap.setCut (currentCut this) (Cut.set_center pos) h ;;
  _ <- svg_arc_updatePath (currentCut this) h ;;
  p <- Heap.getVector pos h ;;
  wd <- Heap.getVector (workpieceDim this) h ;;
  let this :=
    if Rltb (Vector.y p) 0 then
      set_offCenterDim
        (Dimension.update (Vector.mk (Vector.x p) 0) (Vector.mk 0 (Vector.y p))
           (offCenterDim this)) this
    else
      set_offCenterDim
        (Dimension.update (Vector.mk (Vector.x p) (Vector.y p))
           (Vector.mk 0 (- Vector.y p)) (offCenterDim this)) this in
  let this :=
    set_restDim
      (Dimension.update (Vector.mk 0 (Vector.y p))
         (Vector.mk (Vector.x p - cutterRadius this - cutterKerf / 2) 0)
         (restDim this)) this in
  let this :=
    set_distDim
      (Dimension.update (Vector.mk (Vector.x wd) (Vector.y p))
         (Vector.mk (Vector.x p - Vector.x wd) 0) (distDim this)) this in
  let mostLeft := Vector.x p - cutterRadius this in
  let dimVis := Rgtb mostLeft 0 && Rltb mostLeft (Vector.x wd) in
  let this := set_restDim (Dimension.setVisible dimVis (restDim this)) this in
  let this := set_distDim (Dimension.setVisible dimVis (distDim this)) this in
  let this :=
    set_offCenterDim
      (Dimension.setVisible (Rgtb (Rabs (Vector.y p)) 1) (offCenterDim this)) this in
  this <- checkTailstockArc this h ;;
  this <- updateEntryPointDim this h ;;
  Ok (this, h).

Definition rotate (angle : R) (this : t) (h : Heap.t) : outcome (t * Heap.t) :=
  let this := set_rotationAngle (js_rem angle 360) this in
  _ <- Heap.getVector (center this) h ;;
  this <- checkTailstockArc this h ;;
  h <- Heap.setCut (currentCut this) (Cut.set_rotation angle) h ;;
  _ <- svg_arc_updatePath (currentCut this) h ;;
  Ok (this, h).

End CutterAssembly.

(** ** Drawing *)

(** [array.splice(index, 1)] for an array index. *)
Definition splice1 {A : Type} (index : nat) (l : list A) : list A :=
  firstn index l ++ skipn (S index) l.

(** Reading a field of [cuts[index]], which is [undefined] out of range. *)
Definition deref (cut : option cref) (h : Heap.t) : outcome Cut.t :=
  match cut with
  | Some r => Heap.getCut r h
  | None => Fault TypeError
  end.

Module Drawing.

Record t : Set := mk {
  cuts : list cref;
  currentCut : cref;
  cutterAssembly : CutterAssembly.t
}.

Definition set_cuts (l : list cref) (d : t) : t :=
  mk l (currentCut d) (cutterAssembly d).
Definition set_cutterAssembly (a : CutterAssembly.t) (d : t) : t :=
  mk (cuts d) (currentCut d) a.

(** The constructor, for the state the core owns: an empty history, the
    live Cut with its [CutArc] attached, and the assembly sharing it. *)
Definition new (h : Heap.t) : outcome (t * Heap.t) :=
  let '(origin, h) := Heap.newVector (Vector.mk 0 0) h in
  let '(currentCut, h) := Heap.newCut (Cut.new origin 0 0) h in
  h <- Heap.setCut currentCut (Cut.set_svg_arc true) h ;;
  let '(asm, h) := CutterAssembly.new 120 currentCut h in
  Ok (mk [] currentCut asm, h).

(** [updateShapes], with the three form values already parsed: the guard
    rejects non-positive values and leaves the state as it is. *)
Definition updateShapes (workpieceDiameter workpieceHeight cutterDiameter : R)
    (this : t) (h : Heap.t) : outcome (t * Heap.t) :=
  if Rleb workpieceDiameter 0 || Rleb workpieceHeight 0 || Rleb cutterDiameter 0
  then Ok (this, h)
  else
    let '(dim, h) :=
      Heap.newVector (Vector.mk workpieceHeight workpieceDiameter) h in
    let asm := CutterAssembly.setWorkpieceDim dim (cutterAssembly this) in
    '(asm, h) <- CutterAssembly.setRadius (cutterDiameter / 2) asm h ;;
    '(asm, h) <- CutterAssembly.moveTo DEFAULT_CUTTER_POSITION_ref asm h ;;
    h <- Heap.setCut (currentCut this) (Cut.set_radius (cutterDiameter / 2)) h ;;
    h <- Heap.setCut (currentCut this) (Cut.set_center DEFAULT_CUTTER_POSITION_ref) h ;;
    h <- Heap.setCut (currentCut this) (Cut.set_rotation 0) h ;;
    Ok (set_cutterAssembly asm this, h).

(** [renderCutShapes] rebuilds SVG nodes only and is left out. *)
Definition addCurrentCut (this : t) (h : Heap.t) : outcome (t * Heap.t) :=
  live <- Heap.getCut (currentCut this) h ;;
  let '(copy, h) := Heap.newCut (Cut.clone live) h in
  let this := set_cuts (cuts this ++ [copy]) this in
  h <- Heap.setCut (currentCut this) (Cut.set_wasSaved false) h ;;
  Ok (this, h).

Definition selectCut (index : nat) (this : t) (h : Heap.t) : outcome (t * Heap.t) :=
  let cut := nth_error (cuts this) index in
  let this := set_cuts (splice1 index (cuts this)) this in
  live <- Heap.getCut (currentCut this) h ;;
  let '(this, h) :=
    if Cut.wasSaved live then
      let '(copy, h) := Heap.newCut (Cut.clone live) h in
      (set_cuts (cuts this ++ [copy]) this, h)
    else (this, h) in
  c <- deref cut h ;;
  h <- Heap.setCut (currentCut this) (Cut.set_center (Cut.center c)) h ;;
  c <- deref cut h ;;
  h <- Heap.setCut (currentCut this) (Cut.set_radius (Cut.radius c)) h ;;
  c <- deref cut h ;;
  h <- Heap.setCut (currentCut this) (Cut.set_rotation (Cut.rotation c)) h ;;
  h <- Heap.setCut (currentCut this) (Cut.set_wasSaved true) h ;;
  c <- deref cut h ;;
  '(asm, h) <- CutterAssembly.moveTo (Cut.center c) (cutterAssembly this) h ;;
  c <- deref cut h ;;
  '(asm, h) <- CutterAssembly.rotate (Cut.rotation c) asm h ;;
  c <- deref cut h ;;
  '(asm, h) <- CutterAssembly.setRadius (Cut.radius c) asm h ;;
  Ok (set_cutterAssembly asm this, h).

End Drawing.

(** ** Edit sequences

    The calls the presentation layer makes on the assembly between two
    commits: drags, rotations and resizes.  A drag handler first builds the
    target with [new Vector]; [updateShapes] and [selectCut] pass a vector
    that exists already. *)

Inductive edit : Set :=
| NewVector (x y : R)
| MoveTo (pos : vref)
| Rotate (angle : R)
| SetRadius (radius : R).

Definition apply_edit (e : edit) (a : CutterAssembly.t) (h : Heap.t)
    : outcome (CutterAssembly.t * Heap.t) :=
  match e with
  | NewVector x y => Ok (a, snd (Heap.newVector (Vector.mk x y) h))
  | MoveTo pos => CutterAssembly.moveTo pos a h
  | Rotate angle => CutterAssembly.rotate angle a h
  | SetRadius radius => CutterAssembly.setRadius radius a h
  end.

Fixpoint run_edits (es : list edit) (a : CutterAssembly.t) (h : Heap.t)
    : outcome (CutterAssembly.t * Heap.t) :=
  match es with
  | [] => Ok (a, h)
  | e :: es' => '(a, h) <- apply_edit e a h ;; run_edits es' a h
  end.

(** Every [MoveTo] names a vector that exists when it runs, in a heap that
    holds [n] vectors at the start. *)
Fixpoint edits_valid (n : nat) (es : list edit) : bool :=
  match es with
  | [] => true
  | NewVector _ _ :: es' => edits_valid (S n) es'
  | MoveTo pos :: es' => Nat.ltb pos n && edits_valid n es'
  | _ :: es' => edits_valid n es'
  end.

(** The same edits, issued through the drawing that owns the assembly. *)
Definition edit_drawing (es : list edit) (d : Drawing.t) (h : Heap.t)
    : outcome (Drawing.t * Heap.t) :=
  '(a, h) <- run_edits es (Drawing.cutterAssembly d) h ;;
  Ok (Drawing.set_cutterAssembly a d, h).

(** ** Well-formed states

    What the constructors establish and every operation keeps: references
    held in fields point into the heap, the live Cut carries its [CutArc],
    the assembly and the drawing share the live Cut, and no history entry
    is the live Cut. *)

Definition heap_ok (h : Heap.t) : Prop :=
  Forall (fun c => (Cut.center c < length (Heap.vectors h))%nat) (Heap.cutObjs h).

Definition assembly_ok (a : CutterAssembly.t) (h : Heap.t) : Prop :=
  heap_ok h /\
  (CutterAssembly.center a < length (Heap.vectors h))%nat /\
  (CutterAssembly.workpieceDim a < length (Heap.vectors h))%nat /\
  exists c, nth_error (Heap.cutObjs h) (CutterAssembly.currentCut a) = Some c /\
            Cut.svg_arc c = true.

Definition drawing_ok (d : Drawing.t) (h : Heap.t) : Prop :=
  assembly_ok (Drawing.cutterAssembly d) h /\
  CutterAssembly.currentCut (Drawing.cutterAssembly d) = Drawing.currentCut d /\
  Forall (fun r => (r < length (Heap.cutObjs h))%nat /\ r <> Drawing.currentCut d)
         (Drawing.cuts d).

(** What an operation on the assembly leaves alone in the heap: vectors are
    only ever added, and no Cut other than [live] changes. *)
Definition heap_frame (live : cref) (h h' : Heap.t) : Prop :=
  (exists ext, Heap.vectors h' = Heap.vectors h ++ ext) /\
  length (Heap.cutObjs h') = length (Heap.cutObjs h) /\
  forall r, r <> live ->
    nth_error (Heap.cutObjs h') r = nth_error (Heap.cutObjs h) r.

(** ** A session after construction

    The state [new Drawing] leaves, written out: the heap holds the default
    position, the live Cut's origin, and the assembly's center and
    workpiece vectors; the history is empty. *)

Definition h_init : Heap.t :=
  Heap.mk [DEFAULT_CUTTER_POSITION; Vector.mk 0 0; Vector.mk 0 0; Vector.mk 0 0]
          [Cut.mk 1 0 0 true false].

Definition a_init : CutterAssembly.t :=
  CutterAssembly.mk 2 0 120 0 3
    (Arc.new 120 cutterArcDegrees 90)
    (Arc.new tailstockFixArcRadius tailstockFixArcDegrees
             (- tailstockFixArcDegrees / 2))
    false Dimension.new Dimension.new Dimension.new Dimension.new.

Definition d_init : Drawing.t := Drawing.mk [] 0 a_init.

(** The same session after one commit. *)
Definition h_one : Heap.t :=
  Heap.mk [DEFAULT_CUTTER_POSITION; Vector.mk 0 0; Vector.mk 0 0; Vector.mk 0 0]
          [Cut.mk 1 0 0 true false; Cut.mk 1 0 0 false false].

Definition d_one : Drawing.t := Drawing.mk [1%nat] 0 a_init.

(** The outcome of one step on the live Cut, a field assignment or a pose
    operation: the state stays well formed, the live Cut has the content
    [c'], and everything else is in its place. *)
Definition step_result (a a' : CutterAssembly.t) (h h' : Heap.t) (c' : Cut.t) : Prop :=
  assembly_ok a' h' /\
  nth_error (Heap.cutObjs h') (CutterAssembly.currentCut a) = Some c' /\
  heap_frame (CutterAssembly.currentCut a) h h' /\
  Heap.vectors h' = Heap.vectors h /\
  CutterAssembly.currentCut a' = CutterAssembly.currentCut a.

(** The solver call of [updateEntryPointDim], named for the statements
    about it: the cutter arc's absolute span, the kerf-offset radius, and the
    vertical line at the workpiece's far edge. *)
Definition entryPointCandidates (a : CutterAssembly.t) (c wd : Vector.t)
    : outcome (list Vector.t) :=
  let startAngle :=
    Arc.inherentRotation (CutterAssembly.cutterArc a) + CutterAssembly.rotationAngle a in
  let endAngle := startAngle + Arc.arcAngle (CutterAssembly.cutterArc a) in
  intersectionLineArcVertical c (CutterAssembly.cutterRadius a + cutterKerf / 2)
    startAngle endAngle (Some (Vector.x wd)).

(** The discriminant [intersectionLineArcAngle] computes, named for the
    statements about it. *)
Definition lineDiscriminant (arcCenter : Vector.t) (r m c : R) : R :=
  let h := Vector.x arcCenter in
  let k := Vector.y arcCenter in
  let A := 1 + m * m in
  let B := -2 * h + 2 * m * (c - k) in
  let C := h * h + (c - k) * (c - k) - r * r in
  B * B - 4 * A * C.

(** ** CutArc

    [CutArc.updatePath] as the data it writes: the break line, the arc path
    and the translation of the group. *)

Module CutArc.

Record t : Set := mk {
  breakLineFrom : Vector.t;
  breakLineTo : Vector.t;
  arc : Arc.path;
  translate : Vector.t
}.

Definition updatePath (radius rotation : R) (center : Vector.t) : t :=
  let startAngle := 90 in
  let endAngle := 90 + 90 in
  let largeArcFlag := Rgtb (endAngle - startAngle) 180 in
  let start := Vector.fromPolar radius endAngle in
  let end_ := Vector.fromPolar radius startAngle in
  let start_rot := Vector.rotate start rotation in
  let end_rot := Vector.rotate end_ rotation in
  mk (Vector.mk (Vector.x start) (-1000)) start_rot
     (Arc.mkPath start_rot radius largeArcFlag end_rot) center.

End CutArc.

(** ** The drag handlers the assembly's constructor installs

    [plateDragOffset] is the closure variable shared by the plate's two
    handlers, [undefined] until a drag starts.  Pointer positions arrive as
    fresh vectors. *)

Definition plate_onDragStart (pos : Vector.t) (this : CutterAssembly.t) (h : Heap.t)
    : outcome (option Vector.t) :=
  c <- Heap.getVector (CutterAssembly.center this) h ;;
  Ok (Some (Vector.subtract pos c)).

Definition plate_onDrag (pos : Vector.t) (plateDragOffset : option Vector.t)
    (this : CutterAssembly.t) (h : Heap.t) : outcome (CutterAssembly.t * Heap.t) :=
  match plateDragOffset with
  | None => Fault TypeError
  | Some offset =>
      let '(center, h) := Heap.newVector (Vector.subtract pos offset) h in
      CutterAssembly.moveTo center this h
  end.

Definition handle_onDrag (pos : Vector.t) (this : CutterAssembly.t) (h : Heap.t)
    : outcome (CutterAssembly.t * Heap.t) :=
  c <- Heap.getVector (CutterAssembly.center this) h ;;
  CutterAssembly.rotate (Vector.arg (Vector.subtract pos c)) this h.

(** ** throttle

    The closure [throttle(callback, limit)] returns, with the clock made an
    argument: [Date.now()] is a whole number of milliseconds.  [throttle_run]
    feeds it the times of successive calls and lists the times at which the
    callback ran. *)

Definition throttle_call (limit now lastCall : Z) : Z * bool :=
  if (limit <=? now - lastCall)%Z then (now, true) else (lastCall, false).

Fixpoint throttle_run (limit lastCall : Z) (times : list Z) : list Z :=
  match times with
  | [] => []
  | now :: rest =>
      let '(lastCall', fired) := throttle_call limit now lastCall in
      if fired then now :: throttle_run limit lastCall' rest
      else throttle_run limit lastCall' rest
  end.

Definition throttle (limit : Z) (times : list Z) : list Z :=
  throttle_run limit 0 times.

(** ** Draggable

    A pointer event carries [touches] (absent on mouse events) and the
    client coordinates (absent on touch events).  [toSvg] stands for the
    inverse screen transform of the SVG root. *)

Record pointer_event : Set := mkEvent {
  touches : option (list Vector.t);
  client : option Vector.t
}.

Definition evtToMouseCoords (toSvg : Vector.t -> Vector.t) (e : pointer_event)
    : outcome Vector.t :=
  match touches e with
  | Some (touch :: _) => Ok (toSvg touch)
  | _ =>
      match client e with
      | Some point2D => Ok (toSvg point2D)
      | None => Fault TypeError
      end
  end.

Module Draggable.

Inductive handler : Set := startDrag | performDrag | endDrag.

Inductive callback : Set :=
| onDragStart (pos : Vector.t)
| onDrag (pos : Vector.t)
| onDragEnd (pos : Vector.t).

(** One handler invocation: the new [isDragging], and the callback it
    reaches unless reading the coordinates fails first. *)
Definition handle (toSvg : Vector.t -> Vector.t) (isDragging : bool)
    (hd : handler) (e : pointer_event) : bool * outcome (option callback) :=
  match hd with
  | startDrag =>
      (true, pos <- evtToMouseCoords toSvg e ;; Ok (Some (onDragStart pos)))
  | performDrag =>
      if isDragging then
        (isDragging, pos <- evtToMouseCoords toSvg e ;; Ok (Some (onDrag pos)))
      else (isDragging, Ok None)
  | endDrag =>
      if isDragging then
        (false, pos <- evtToMouseCoords toSvg e ;; Ok (Some (onDragEnd pos)))
      else (isDragging, Ok None)
  end.

(** A sequence of events, each handled to completion; the callbacks that
    ran, in order. *)
Fixpoint run (toSvg : Vector.t -> Vector.t) (isDragging : bool)
    (evs : list (handler * pointer_event)) : bool * list callback :=
  match evs with
  | [] => (isDragging, [])
  | (hd, e) :: rest =>
      let '(isDragging', r) := handle toSvg isDragging hd e in
      let '(final, cbs) := run toSvg isDragging' rest in
      match r with
      | Ok (Some cb) => (final, cb :: cbs)
      | _ => (final, cbs)
      end
  end.

(** The order of callbacks a drag allows: [onDragStart] opens a drag,
    [onDrag] and [onDragEnd] come only while one is open, [onDragEnd] closes
    it.  The result is whether a drag is open after the callbacks, [None] if
    one of them is out of order. *)
Fixpoint protocol (dragging : bool) (cbs : list callback) : option bool :=
  match cbs with
  | [] => Some dragging
  | onDragStart _ :: rest => protocol true rest
  | onDrag _ :: rest => if dragging then protocol true rest else None
  | onDragEnd _ :: rest => if dragging then protocol false rest else None
  end.

End Draggable.

(** The condition under which [evtToMouseCoords] finds a point: a first
    touch, or the client coordinates. *)
Definition has_coords (e : pointer_event) : bool :=
  match touches e with
  | Some (_ :: _) => true
  | _ => match client e with Some _ => true | None => false end
  end.

(** ** The price calculator page

    [doCalculate] on the three form values ([None] where [parseFloat] gives
    NaN), as the numbers it writes: the volume and total before their
    [toFixed] formatting, the rectangle and circle attributes, and the two
    dimensions [updateDimensions] places from them. *)

Module PriceCalc.

(** [parseFloat(v) || 0] *)
Definition value_or_0 (v : option R) : R :=
  match v with Some x => x | None => 0 end.

Record t : Set := mk {
  volume : R;
  totalPrice : R;
  rectWidth : R;
  rectHeight : R;
  rectX : R;
  rectY : R;
  circleR : R;
  circleCx : R;
  circleCy : R;
  lengthDim : Dimension.t;
  diameterDim : Dimension.t
}.

Definition doCalculate (diameterInput lengthInput priceInput : option R) : t :=
  let diameter := value_or_0 diameterInput in
  let length := value_or_0 lengthInput in
  let price := value_or_0 priceInput in
  let radius := diameter / 2 in
  let volume := PI * radius * radius * length in
  let totalPrice := volume * price in
  let rectWidth := Rmax 10 (length * 100) in
  let rectHeight := Rmax 10 (diameter * 100) in
  let circleRadius := rectHeight / 2 in
  let x := 200 - rectWidth / 2 in
  let y := 100 - rectHeight / 2 in
  mk volume totalPrice rectWidth rectHeight x y
     circleRadius (200 + rectWidth / 2 + circleRadius + 20) 100
     (Dimension.update (Vector.mk x (y + rectHeight + 10)) (Vector.mk rectWidth 0)
        Dimension.new)
     (Dimension.update (Vector.mk (x - 20) (y + rectHeight)) (Vector.mk 0 (- rectHeight))
        Dimension.new).

(** [incrementPrice(amount)]: the value written back to the price input. *)
Definition incrementPrice (amount : R) (priceInput : option R) : option R :=
  let currentVal := value_or_0 priceInput in
  Some (currentVal + amount).

End PriceCalc.

(** ** What [Drawing.updateShapes] draws

    The attributes the method writes besides the state of the assembly: the
    view box of the root, the place of the Add Cut button, the workpiece
    rectangle with its two dimensions, and the clip rectangle of the stored
    cuts. *)

Module Workpiece.

Record t : Set := mk {
  x : R;
  y : R;
  width : R;
  height : R;
  widthDim : Dimension.t;
  heightDim : Dimension.t
}.

(** [this.x] is 0 from the constructor on. *)
Definition resize (width' height' : R) (this : t) : t :=
  let this_x := 0 in
  mk 0 (- height' / 2) width' height'
     (Dimension.update (Vector.mk this_x (- height' / 2)) (Vector.mk width' 0)
        (widthDim this))
     (Dimension.update (Vector.mk this_x (height' / 2)) (Vector.mk 0 (- height'))
        (heightDim this)).

Definition new (width' height' : R) : t :=
  resize width' height' (mk 0 0 width' height' Dimension.new Dimension.new).

End Workpiece.

Module DrawingView.

Record box : Set := mkBox { bx : R; by_ : R; bwidth : R; bheight : R }.

Record t : Set := mk {
  viewBox : box;
  addCutButton : Vector.t;
  workpiece : Workpiece.t;
  clip : box
}.

(** The Add Cut button's size, fixed by the constructor. *)
Definition addCutButton_width : R := 100.
Definition addCutButton_height : R := 40.

Definition new : t :=
  mk (mkBox (-40) (-200) 700 400) (Vector.mk (-100) 0) (Workpiece.new 50 50)
     (mkBox 0 0 100 100).

(** A form value that does not parse is [None]; the method returns early,
    having written nothing, when one is NaN or not positive. *)
Definition updateShapes (workpieceDiameter workpieceHeight cutterDiameter : option R)
    (this : t) : t :=
  match workpieceDiameter, workpieceHeight, cutterDiameter with
  | Some workpieceDiameter, Some workpieceHeight, Some cutterDiameter =>
      if Rleb workpieceDiameter 0 || Rleb workpieceHeight 0 || Rleb cutterDiameter 0
      then this
      else
        let viewBoxHeight := workpieceDiameter + 100 in
        mk (mkBox (-40) (- viewBoxHeight / 2) (workpieceHeight + 300) viewBoxHeight)
           (Vector.mk (workpieceHeight + 50) (-120))
           (Workpiece.resize workpieceHeight workpieceDiameter (workpiece this))
           (mkBox 0 0 workpieceHeight (workpieceDiameter / 2))
  | _, _, _ => this
  end.

End DrawingView.

(** ** The operations of a session *)

Inductive drawing_op : Set :=
| OpEdit (es : list edit)
| OpCommit
| OpSelect (index : nat)
| OpUpdateShapes (workpieceDiameter workpieceHeight cutterDiameter : R).

Definition apply_op (op : drawing_op) (d : Drawing.t) (h : Heap.t)
    : outcome (Drawing.t * Heap.t) :=
  match op with
  | OpEdit es => edit_drawing es d h
  | OpCommit => Drawing.addCurrentCut d h
  | OpSelect index => Drawing.selectCut index d h
  | OpUpdateShapes wd wh cd => Drawing.updateShapes wd wh cd d h
  end.

(** What an operation needs to run: its vectors exist, its index is in the
    history. *)
Definition op_valid (op : drawing_op) (d : Drawing.t) (h : Heap.t) : Prop :=
  match op with
  | OpEdit es => edits_valid (length (Heap.vectors h)) es = true
  | OpSelect index => (index < length (Drawing.cuts d))%nat
  | _ => True
  end.

(** * Properties *)

(** ** The remainder operator *)

Section Remainder.

Lemma Rtrunc_nonneg (a : R) :
  0 <= a -> Rtrunc a = Int_part a.
Proof.
  intros Ha. unfold Rtrunc. destruct (Rle_dec 0 a); [reflexivity | contradiction].
Qed.

Lemma Rtrunc_unique_nonneg (a : R) (k : Z) :
  0 <= a -> IZR k <= a < IZR k + 1 -> Rtrunc a = k.
Proof.
  intros Ha [Hlo Hhi]. rewrite (Rtrunc_nonneg a Ha).
  symmetry. apply Int_part_spec. lra.
Qed.

Lemma Rtrunc_unique_neg (a : R) (k : Z) :
  a < 0 -> IZR k - 1 < a <= IZR k -> Rtrunc a = k.
Proof.
  intros Ha [Hlo Hhi]. unfold Rtrunc.
  destruct (Rle_dec 0 a) as [H0 | _]; [lra |].
  assert (Hk : (- k)%Z = Int_part (- a)).
  { apply Int_part_spec. rewrite opp_IZR. lra. }
  rewrite <- Hk. lia.
Qed.

Variable b : R.
Hypothesis b_pos : 0 < b.

Lemma div_window (a : R) (k : Z) :
  IZR k * b <= a < (IZR k + 1) * b -> IZR k <= a / b < IZR k + 1.
Proof.
  intros [Hlo Hhi]. split.
  - apply Rmult_le_reg_r with b; [exact b_pos |].
    unfold Rdiv. rewrite Rmult_assoc, Rinv_l by lra. lra.
  - apply Rmult_lt_reg_r with b; [exact b_pos |].
    unfold Rdiv. rewrite Rmult_assoc, Rinv_l by lra. lra.
Qed.

(** A non-negative dividend inside the [k]-th window loses [k] periods. *)
Lemma js_rem_window (a : R) (k : Z) :
  0 <= a -> IZR k * b <= a < (IZR k + 1) * b -> js_rem a b = a - IZR k * b.
Proof.
  intros Ha Hw. unfold js_rem.
  rewrite (Rtrunc_unique_nonneg (a / b) k).
  - ring.
  - apply Rmult_le_reg_r with b; [exact b_pos |].
    unfold Rdiv. rewrite Rmult_assoc, Rinv_l by lra. lra.
  - apply div_window; exact Hw.
Qed.

(** A negative dividend keeps its sign: it is pulled up toward zero. *)
Lemma js_rem_window_neg (a : R) (k : Z) :
  a < 0 -> (IZR k - 1) * b < a <= IZR k * b -> js_rem a b = a - IZR k * b.
Proof.
  intros Ha [Hlo Hhi]. unfold js_rem.
  rewrite (Rtrunc_unique_neg (a / b) k).
  - ring.
  - apply Rmult_lt_reg_r with b; [exact b_pos |].
    unfold Rdiv. rewrite Rmult_assoc, Rinv_l by lra. lra.
  - split.
    + apply Rmult_lt_reg_r with b; [exact b_pos |].
      unfold Rdiv. rewrite Rmult_assoc, Rinv_l by lra. lra.
    + apply Rmult_le_reg_r with b; [exact b_pos |].
      unfold Rdiv. rewrite Rmult_assoc, Rinv_l by lra. lra.
Qed.

Lemma js_rem_nonneg_range (a : R) :
  0 <= a -> 0 <= js_rem a b < b.
Proof.
  intros Ha.
  assert (Hq : 0 <= a / b).
  { apply Rmult_le_reg_r with b; [exact b_pos |].
    unfold Rdiv. rewrite Rmult_assoc, Rinv_l by lra. lra. }
  unfold js_rem. rewrite (Rtrunc_nonneg _ Hq).
  destruct (base_Int_part (a / b)) as [Hlo Hhi].
  assert (Ha' : a = a / b * b) by (field; lra).
  set (q := IZR (Int_part (a / b))) in *.
  split; nra.
Qed.

Lemma js_rem_nonpos_range (a : R) :
  a <= 0 -> - b < js_rem a b <= 0.
Proof.
  intros Ha.
  destruct (Req_dec a 0) as [-> | Hne].
  - rewrite (js_rem_window 0 0); lra.
  - assert (Hq : a / b < 0).
    { apply Rmult_lt_reg_r with b; [exact b_pos |].
      unfold Rdiv. rewrite Rmult_assoc, Rinv_l by lra. lra. }
    unfold js_rem, Rtrunc.
    destruct (Rle_dec 0 (a / b)) as [H0 | _]; [lra |].
    destruct (base_Int_part (- (a / b))) as [Hlo Hhi].
    rewrite opp_IZR.
    assert (Ha' : a = a / b * b) by (field; lra).
    set (q := IZR (Int_part (- (a / b)))) in *.
    split; nra.
Qed.

End Remainder.

(** ** normalizeAngle and isAngleBetween *)

Lemma Rleb_true (a b : R) : Rleb a b = true <-> a <= b.
Proof. unfold Rleb. destruct (Rle_dec a b); split; intros; try lra; congruence. Qed.

Lemma Rleb_false (a b : R) : Rleb a b = false <-> b < a.
Proof. unfold Rleb. destruct (Rle_dec a b); split; intros; try lra; congruence. Qed.

Lemma Rltb_true (a b : R) : Rltb a b = true <-> a < b.
Proof. unfold Rltb. destruct (Rlt_dec a b); split; intros; try lra; congruence. Qed.

Lemma Rltb_false (a b : R) : Rltb a b = false <-> b <= a.
Proof. unfold Rltb. destruct (Rlt_dec a b); split; intros; try lra; congruence. Qed.

(** From -360 upward the dividend [angle + 360] is non-negative. *)
Lemma normalizeAngle_window (angle : R) (k : Z) :
  -360 <= angle ->
  IZR k * 360 <= angle + 360 < (IZR k + 1) * 360 ->
  normalizeAngle angle = angle + 360 - IZR k * 360.
Proof.
  intros Hlo Hw. unfold normalizeAngle. apply js_rem_window; lra.
Qed.

(** Below -360 the dividend is negative and so is the result. *)
Lemma normalizeAngle_window_neg (angle : R) (k : Z) :
  angle < -360 ->
  (IZR k - 1) * 360 < angle + 360 <= IZR k * 360 ->
  normalizeAngle angle = angle + 360 - IZR k * 360.
Proof.
  intros Hlo Hw. unfold normalizeAngle. apply js_rem_window_neg; lra.
Qed.

Lemma normalizeAngle_range (angle : R) :
  -360 <= angle -> 0 <= normalizeAngle angle < 360.
Proof.
  intros H. unfold normalizeAngle. apply js_rem_nonneg_range; lra.
Qed.

Lemma normalizeAngle_below (angle : R) :
  angle < -360 -> -360 < normalizeAngle angle <= 0.
Proof.
  intros H. unfold normalizeAngle. apply js_rem_nonpos_range; lra.
Qed.

Lemma normalizeAngle_fixed (angle : R) :
  0 <= angle < 360 -> normalizeAngle angle = angle.
Proof.
  intros H. rewrite (normalizeAngle_window angle 1); lra.
Qed.

Lemma normalizeAngle_idempotent_from_minus_360 (angle : R) :
  -360 <= angle -> normalizeAngle (normalizeAngle angle) = normalizeAngle angle.
Proof.
  intros H. apply normalizeAngle_fixed, normalizeAngle_range, H.
Qed.

Lemma normalizeAngle_period_from_minus_360 (angle : R) (k : Z) :
  -360 <= angle -> -360 <= angle + 360 * IZR k ->
  normalizeAngle (angle + 360 * IZR k) = normalizeAngle angle.
Proof.
  intros Ha Hk.
  pose proof (normalizeAngle_range angle Ha) as Hr.
  unfold normalizeAngle in *.
  set (q := Int_part ((angle + 360) / 360)).
  assert (Hq : IZR q * 360 <= angle + 360 < (IZR q + 1) * 360).
  { destruct (base_Int_part ((angle + 360) / 360)) as [H1 H2]. fold q in H1, H2.
    assert (E : angle + 360 = (angle + 360) / 360 * 360) by (field; lra).
    split; nra. }
  rewrite (js_rem_window 360 ltac:(lra) (angle + 360) q) by lra.
  rewrite (js_rem_window 360 ltac:(lra) (angle + 360 * IZR k + 360) (q + k)).
  - rewrite plus_IZR. ring.
  - lra.
  - rewrite plus_IZR. lra.
Qed.

(** What [isAngleBetween] computes, in terms of the code's own normalizer. *)
Lemma isAngleBetween_cases (angle startAngle endAngle : R) :
  let a := normalizeAngle angle in
  let s := normalizeAngle startAngle in
  let e := normalizeAngle endAngle in
  (s <= e -> (isAngleBetween angle startAngle endAngle = true <-> s <= a <= e)) /\
  (e < s -> (isAngleBetween angle startAngle endAngle = true <-> a >= s \/ a <= e)).
Proof.
  cbv zeta. unfold isAngleBetween, Rgeb. split; intros H.
  - apply Rleb_true in H. rewrite H.
    rewrite andb_true_iff, !Rleb_true. tauto.
  - apply Rleb_false in H. rewrite H.
    rewrite orb_true_iff, !Rleb_true. split; intros [?|?]; auto; left; lra.
Qed.


Lemma isAngleBetween_end (startAngle endAngle : R) :
  isAngleBetween endAngle startAngle endAngle = true.
Proof.
  unfold isAngleBetween, Rgeb.
  destruct (Rleb (normalizeAngle startAngle) (normalizeAngle endAngle)) eqn:E.
  - cbn. apply Rleb_true. lra.
  - apply orb_true_iff. right. apply Rleb_true. lra.
Qed.

Lemma isAngleBetween_seam_inside : isAngleBetween 0 350 10 = true.
Proof.
  apply (proj2 (isAngleBetween_cases 0 350 10)); cbv zeta;
    rewrite !normalizeAngle_fixed by lra; lra.
Qed.

Lemma isAngleBetween_seam_outside : isAngleBetween 180 350 10 = false.
Proof.
  apply not_true_is_false. intros H.
  apply (proj2 (isAngleBetween_cases 180 350 10)) in H; cbv zeta in *;
    rewrite !normalizeAngle_fixed in * by lra; lra.
Qed.

(** C1 (the code departs from its documented range): [normalizeAngle] adds
    360 once before taking the remainder, so an input below -360 keeps a
    negative dividend and a negative result.  At -400 the result is -40: it
    is outside [0, 360), it differs from the result at -400 + 2 * 360, and
    a second application moves it again. *)
Theorem normalizeAngle_below_minus_360 :
  normalizeAngle (-400) = -40 /\
  ~ (0 <= normalizeAngle (-400) < 360) /\
  normalizeAngle (-400 + 360 * 2) <> normalizeAngle (-400) /\
  normalizeAngle (normalizeAngle (-400)) <> normalizeAngle (-400).
Proof.
  assert (E : normalizeAngle (-400) = -40).
  { rewrite (normalizeAngle_window_neg (-400) 0); lra. }
  assert (E1 : normalizeAngle (-400 + 360 * 2) = 320).
  { replace (-400 + 360 * 2) with 320 by lra. apply normalizeAngle_fixed. lra. }
  assert (E2 : normalizeAngle (-40) = 320).
  { rewrite (normalizeAngle_window (-40) 0); lra. }
  rewrite E1, E, E2. repeat split; lra.
Qed.

(** C3 (same defect as C1): the three inputs are only brought into
    [0, 360) when they are at least -360.  The angle -400 points in the
    direction 320, inside the span from 300 to 340, yet the code answers
    false for -400 and true for the equivalent 320. *)
Theorem isAngleBetween_below_minus_360 :
  normalizeAngle (-400) = -40 /\
  isAngleBetween (-400) 300 340 = false /\
  isAngleBetween (-400 + 360 * 2) 300 340 = true.
Proof.
  assert (E : normalizeAngle (-400) = -40).
  { rewrite (normalizeAngle_window_neg (-400) 0); lra. }
  split; [exact E |]. split.
  - apply not_true_is_false. intros H.
    apply (proj1 (isAngleBetween_cases (-400) 300 340)) in H; cbv zeta in *.
    + rewrite E in H. rewrite normalizeAngle_fixed in H by lra. lra.
    + rewrite !normalizeAngle_fixed by lra. lra.
  - replace (-400 + 360 * 2) with 320 by lra.
    apply (proj1 (isAngleBetween_cases 320 300 340)); cbv zeta;
      rewrite !normalizeAngle_fixed by lra; lra.
Qed.

(** ** Math.atan2 and Vector.arg *)

Lemma deg_of_PI2 : PI / 2 * (180 / PI) = 90.
Proof. pose proof PI_RGT_0. field. lra. Qed.

Lemma arg_up (v : Vector.t) :
  Vector.x v = 0 -> 0 < Vector.y v -> Vector.arg v = 90.
Proof.
  intros Hx Hy. unfold Vector.arg, Math_atan2. rewrite Hx.
  destruct (Rlt_dec 0 0); [lra |].
  destruct (Rlt_dec 0 (Vector.y v)); [| lra].
  apply deg_of_PI2.
Qed.

Lemma arg_down (v : Vector.t) :
  Vector.x v = 0 -> Vector.y v < 0 -> Vector.arg v = -90.
Proof.
  intros Hx Hy. unfold Vector.arg, Math_atan2. rewrite Hx.
  destruct (Rlt_dec 0 0); [lra |].
  destruct (Rlt_dec 0 (Vector.y v)); [lra |].
  destruct (Rlt_dec (Vector.y v) 0); [| lra].
  pose proof deg_of_PI2. lra.
Qed.

Lemma arg_right (v : Vector.t) :
  0 < Vector.x v -> Vector.y v = 0 -> Vector.arg v = 0.
Proof.
  intros Hx Hy. unfold Vector.arg, Math_atan2. rewrite Hy.
  destruct (Rlt_dec 0 (Vector.x v)); [| lra].
  unfold Rdiv. rewrite Rmult_0_l, atan_0. ring.
Qed.

Lemma atan_neg (a : R) : a < 0 -> - PI / 2 < atan a < 0.
Proof.
  intros Ha. split.
  - apply atan_bound.
  - rewrite <- atan_0. apply atan_increasing, Ha.
Qed.

Lemma atan_pos (a : R) : 0 < a -> 0 < atan a < PI / 2.
Proof.
  intros Ha. split.
  - rewrite <- atan_0. apply atan_increasing, Ha.
  - apply atan_bound.
Qed.

Lemma deg_bounds (a lo hi : R) :
  lo * (PI / 180) < a < hi * (PI / 180) -> lo < a * (180 / PI) < hi.
Proof.
  intros [H1 H2]. pose proof PI_RGT_0 as HP.
  assert (Hk : 0 < 180 / PI) by (apply Rdiv_lt_0_compat; lra).
  assert (E1 : lo = lo * (PI / 180) * (180 / PI)) by (field; lra).
  assert (E2 : hi = hi * (PI / 180) * (180 / PI)) by (field; lra).
  split; [rewrite E1 | rewrite E2]; apply Rmult_lt_compat_r; assumption.
Qed.

(** Upper-left quadrant. *)
Lemma arg_quadrant2 (v : Vector.t) :
  Vector.x v < 0 -> 0 < Vector.y v -> 90 < Vector.arg v < 180.
Proof.
  intros Hx Hy. unfold Vector.arg, Math_atan2.
  destruct (Rlt_dec 0 (Vector.x v)); [lra |].
  destruct (Rlt_dec (Vector.x v) 0); [| lra].
  destruct (Rle_dec 0 (Vector.y v)); [| lra].
  assert (Hq : Vector.y v / Vector.x v < 0).
  { unfold Rdiv. apply Rmult_pos_neg; [exact Hy |]. apply Rinv_lt_0_compat, Hx. }
  pose proof (atan_neg _ Hq). pose proof PI_RGT_0.
  apply deg_bounds. lra.
Qed.

(** Lower-left quadrant. *)
Lemma arg_quadrant3 (v : Vector.t) :
  Vector.x v < 0 -> Vector.y v < 0 -> -180 < Vector.arg v < -90.
Proof.
  intros Hx Hy. unfold Vector.arg, Math_atan2.
  destruct (Rlt_dec 0 (Vector.x v)); [lra |].
  destruct (Rlt_dec (Vector.x v) 0); [| lra].
  destruct (Rle_dec 0 (Vector.y v)); [lra |].
  assert (Hq : 0 < Vector.y v / Vector.x v).
  { unfold Rdiv. apply Rmult_neg_neg; [exact Hy |]. apply Rinv_lt_0_compat, Hx. }
  pose proof (atan_pos _ Hq). pose proof PI_RGT_0.
  apply deg_bounds. lra.
Qed.

(** ** The line-arc solvers *)

Lemma Math_sqrt_nonneg (a : R) : 0 <= a -> Math_sqrt a = Ok (sqrt a).
Proof.
  intros Ha. unfold Math_sqrt. destruct (Rlt_dec a 0); [lra | reflexivity].
Qed.

Lemma js_div_nonzero (a b : R) : b <> 0 -> js_div a b = Ok (a / b).
Proof.
  intros Hb. unfold js_div. destruct (Req_EM_T b 0); [contradiction | reflexivity].
Qed.

Lemma getIntersectingArcs_eq (p1 p2 c : Vector.t) (s e : R) :
  getIntersectingArcs p1 p2 c s e =
  (if isWithinArc c s e p1 then [p1] else []) ++
  (if isWithinArc c s e p2 then [p2] else []).
Proof.
  unfold getIntersectingArcs.
  destruct (isWithinArc c s e p1), (isWithinArc c s e p2); reflexivity.
Qed.

Lemma getIntersectingArcs_length (p1 p2 c : Vector.t) (s e : R) :
  (length (getIntersectingArcs p1 p2 c s e) <= 2)%nat.
Proof.
  rewrite getIntersectingArcs_eq.
  destruct (isWithinArc c s e p1), (isWithinArc c s e p2); simpl; lia.
Qed.

(** Every kept point passed the arc filter and is one of the two candidates. *)
Lemma getIntersectingArcs_Forall (p1 p2 c : Vector.t) (s e : R) :
  Forall (fun p => isWithinArc c s e p = true /\ (p = p1 \/ p = p2))
         (getIntersectingArcs p1 p2 c s e).
Proof.
  rewrite getIntersectingArcs_eq.
  destruct (isWithinArc c s e p1) eqn:E1, (isWithinArc c s e p2) eqn:E2; simpl;
    repeat (apply Forall_cons; [split; [assumption | auto] |]); apply Forall_nil.
Qed.

Section Solvers.

Variables (arcCenter : Vector.t) (r arcStart arcEnd : R).

Lemma intersectionLineArcVertical_neg (x0 : R) :
  r * r - (x0 - Vector.x arcCenter) * (x0 - Vector.x arcCenter) < 0 ->
  intersectionLineArcVertical arcCenter r arcStart arcEnd (Some x0) = Ok [].
Proof.
  intros H. unfold intersectionLineArcVertical. cbn.
  apply Rltb_true in H. rewrite H. reflexivity.
Qed.

Lemma intersectionLineArcVertical_nonneg (x0 : R) :
  0 <= r * r - (x0 - Vector.x arcCenter) * (x0 - Vector.x arcCenter) ->
  intersectionLineArcVertical arcCenter r arcStart arcEnd (Some x0) =
  Ok (let sqrtD :=
        sqrt (r * r - (x0 - Vector.x arcCenter) * (x0 - Vector.x arcCenter)) in
      getIntersectingArcs (Vector.mk x0 (Vector.y arcCenter + sqrtD))
        (Vector.mk x0 (Vector.y arcCenter - sqrtD)) arcCenter arcStart arcEnd).
Proof.
  intros H. unfold intersectionLineArcVertical. cbn.
  rewrite (proj2 (Rltb_false _ _) H), (Math_sqrt_nonneg _ H). reflexivity.
Qed.

(** The same with the square root supplied. *)
Lemma intersectionLineArcVertical_square (x0 d : R) :
  0 <= d ->
  r * r - (x0 - Vector.x arcCenter) * (x0 - Vector.x arcCenter) = d * d ->
  intersectionLineArcVertical arcCenter r arcStart arcEnd (Some x0) =
  Ok (getIntersectingArcs (Vector.mk x0 (Vector.y arcCenter + d))
        (Vector.mk x0 (Vector.y arcCenter - d)) arcCenter arcStart arcEnd).
Proof.
  intros Hd E. rewrite intersectionLineArcVertical_nonneg by nra.
  cbv zeta. rewrite E, sqrt_square by exact Hd. reflexivity.
Qed.

Lemma intersectionLineArcHorizontal_neg (flag : option R) (y0 : R) :
  r * r - (y0 - Vector.y arcCenter) * (y0 - Vector.y arcCenter) < 0 ->
  intersectionLineArcHorizontal arcCenter r arcStart arcEnd flag (Some y0) = Ok [].
Proof.
  intros H. unfold intersectionLineArcHorizontal. cbn.
  apply Rltb_true in H. rewrite H. reflexivity.
Qed.

Lemma intersectionLineArcHorizontal_nonneg (flag : option R) (y0 : R) :
  0 <= r * r - (y0 - Vector.y arcCenter) * (y0 - Vector.y arcCenter) ->
  intersectionLineArcHorizontal arcCenter r arcStart arcEnd flag (Some y0) =
  Ok (let sqrtT :=
        sqrt (r * r - (y0 - Vector.y arcCenter) * (y0 - Vector.y arcCenter)) in
      getIntersectingArcs (Vector.mk (Vector.x arcCenter + sqrtT) y0)
        (Vector.mk (Vector.x arcCenter - sqrtT) y0) arcCenter arcStart arcEnd).
Proof.
  intros H. unfold intersectionLineArcHorizontal. cbn.
  rewrite (proj2 (Rltb_false _ _) H), (Math_sqrt_nonneg _ H). reflexivity.
Qed.


Lemma intersectionLineArcVertical_default :
  intersectionLineArcVertical arcCenter r arcStart arcEnd None =
  intersectionLineArcVertical arcCenter r arcStart arcEnd (Some 0).
Proof. reflexivity. Qed.

Lemma intersectionLineArcAngle_neg (m c : R) :
  lineDiscriminant arcCenter r m c < 0 ->
  intersectionLineArcAngle arcCenter r arcStart arcEnd m c = Ok [].
Proof.
  intros H. unfold intersectionLineArcAngle. cbv zeta.
  unfold lineDiscriminant in H. cbv zeta in H.
  apply Rltb_true in H. rewrite H. reflexivity.
Qed.

Lemma intersectionLineArcAngle_nonneg (m c : R) :
  0 <= lineDiscriminant arcCenter r m c ->
  intersectionLineArcAngle arcCenter r arcStart arcEnd m c =
  Ok (let A := 1 + m * m in
      let B := -2 * Vector.x arcCenter + 2 * m * (c - Vector.y arcCenter) in
      let x1 := (- B + sqrt (lineDiscriminant arcCenter r m c)) / (2 * A) in
      let x2 := (- B - sqrt (lineDiscriminant arcCenter r m c)) / (2 * A) in
      getIntersectingArcs (Vector.mk x1 (m * x1 + c)) (Vector.mk x2 (m * x2 + c))
        arcCenter arcStart arcEnd).
Proof.
  intros H. unfold intersectionLineArcAngle. cbv zeta.
  unfold lineDiscriminant in *. cbv zeta in *.
  rewrite (proj2 (Rltb_false _ _) H), (Math_sqrt_nonneg _ H). cbn [bind].
  rewrite !js_div_nonzero by nra. reflexivity.
Qed.

End Solvers.

(** ** The span from 0 to 360 *)

Lemma normalizeAngle_0 : normalizeAngle 0 = 0.
Proof. apply normalizeAngle_fixed. lra. Qed.

Lemma normalizeAngle_360 : normalizeAngle 360 = 0.
Proof. rewrite (normalizeAngle_window 360 2); lra. Qed.

(** Both ends normalise to 0, so the span holds the direction 0 alone. *)
Lemma span_0_360 (angle : R) :
  isAngleBetween angle 0 360 = true <-> normalizeAngle angle = 0.
Proof.
  pose proof (proj1 (isAngleBetween_cases angle 0 360)) as H. cbv zeta in H.
  rewrite normalizeAngle_0, normalizeAngle_360 in H.
  rewrite (H ltac:(lra)). lra.
Qed.

Lemma span_0_360_vertical_at_0 :
  intersectionLineArcVertical (Vector.mk 0 0) 10 0 360 (Some 0) = Ok [].
Proof.
  rewrite (intersectionLineArcVertical_square _ _ _ _ 0 10) by (cbn; lra).
  rewrite getIntersectingArcs_eq. cbn [Vector.y Vector.x].
  assert (E1 : isWithinArc (Vector.mk 0 0) 0 360 (Vector.mk 0 (0 + 10)) = false).
  { apply not_true_is_false. unfold isWithinArc. intros H.
    rewrite arg_up in H by (cbn; lra).
    apply span_0_360 in H. rewrite normalizeAngle_fixed in H by lra. lra. }
  assert (E2 : isWithinArc (Vector.mk 0 0) 0 360 (Vector.mk 0 (0 - 10)) = false).
  { apply not_true_is_false. unfold isWithinArc. intros H.
    rewrite arg_down in H by (cbn; lra).
    apply span_0_360 in H.
    rewrite (normalizeAngle_window (-90) 0) in H by lra. lra. }
  rewrite E1, E2. reflexivity.
Qed.

Lemma span_0_360_vertical_at_10 :
  intersectionLineArcVertical (Vector.mk 0 0) 10 0 360 (Some 10) =
  Ok [Vector.mk 10 0; Vector.mk 10 0].
Proof.
  rewrite (intersectionLineArcVertical_square _ _ _ _ 10 0) by (cbn; lra).
  rewrite getIntersectingArcs_eq. cbn [Vector.y Vector.x].
  replace (0 + 0) with 0 by lra. replace (0 - 0) with 0 by lra.
  assert (E : isWithinArc (Vector.mk 0 0) 0 360 (Vector.mk 10 0) = true).
  { unfold isWithinArc. rewrite arg_right by (cbn; lra).
    apply span_0_360, normalizeAngle_0. }
  rewrite E. reflexivity.
Qed.

Lemma span_0_360_vertical_at_11 :
  intersectionLineArcVertical (Vector.mk 0 0) 10 0 360 (Some 11) = Ok [].
Proof.
  apply intersectionLineArcVertical_neg. cbn. lra.
Qed.

(** C2, as the code has it: with arcStart = 0 and arcEnd = 360 both ends
    normalise to 0, so the span admits the direction 0 only.  For the circle
    of center (0,0) and radius 10 the vertical solver returns no point on
    x = 0, the tangent point (10,0) twice on x = 10 (a zero discriminant
    gives two coincident candidates, each filtered and kept), and no point
    on x = 11. *)
Theorem vertical_solver_span_0_360 :
  intersectionLineArcVertical (Vector.mk 0 0) 10 0 360 (Some 0) = Ok [] /\
  intersectionLineArcVertical (Vector.mk 0 0) 10 0 360 (Some 10) =
    Ok [Vector.mk 10 0; Vector.mk 10 0] /\
  intersectionLineArcVertical (Vector.mk 0 0) 10 0 360 (Some 11) = Ok [].
Proof.
  split; [| split].
  - exact span_0_360_vertical_at_0.
  - exact span_0_360_vertical_at_10.
  - exact span_0_360_vertical_at_11.
Qed.

(** C2 as stated fails: x = 0 does not yield (0,10) and (0,-10), and x = 10
    does not yield a single point. *)
Lemma vertical_solver_full_circle_counterexample :
  intersectionLineArcVertical (Vector.mk 0 0) 10 0 360 (Some 0) <>
    Ok [Vector.mk 0 10; Vector.mk 0 (-10)] /\
  intersectionLineArcVertical (Vector.mk 0 0) 10 0 360 (Some 10) <>
    Ok [Vector.mk 10 0].
Proof.
  rewrite span_0_360_vertical_at_0, span_0_360_vertical_at_10.
  split; discriminate.
Qed.

Section SolverResults.

Variables (arcCenter : Vector.t) (r arcStart arcEnd : R).

Local Abbreviation on_arc p :=
  (isAngleBetween (Vector.arg (Vector.subtract p arcCenter)) arcStart arcEnd = true).

Lemma intersectionLineArcVertical_result (x0 : option R) :
  exists l, intersectionLineArcVertical arcCenter r arcStart arcEnd x0 = Ok l /\
    (length l <= 2)%nat /\
    Forall (fun p => on_arc p /\ Vector.x p = or_default 0 x0) l.
Proof.
  assert (E : intersectionLineArcVertical arcCenter r arcStart arcEnd x0 =
              intersectionLineArcVertical arcCenter r arcStart arcEnd
                (Some (or_default 0 x0))) by (destruct x0; reflexivity).
  rewrite E. set (v := or_default 0 x0).
  destruct (Rlt_dec (r * r - (v - Vector.x arcCenter) * (v - Vector.x arcCenter)) 0)
    as [Hn | Hp].
  - exists []. rewrite intersectionLineArcVertical_neg by exact Hn.
    repeat split; [simpl; lia | constructor].
  - eexists. rewrite intersectionLineArcVertical_nonneg by lra.
    split; [reflexivity |]. cbv zeta. split.
    + apply getIntersectingArcs_length.
    + eapply Forall_impl; [| apply getIntersectingArcs_Forall].
      cbv beta. intros p [Hin [-> | ->]]; split; auto.
Qed.

Lemma intersectionLineArcHorizontal_result (isHorizontal y0 : option R) :
  exists l, intersectionLineArcHorizontal arcCenter r arcStart arcEnd
              isHorizontal y0 = Ok l /\
    (length l <= 2)%nat /\
    Forall (fun p => on_arc p /\ Vector.y p = or_default 0 y0) l.
Proof.
  assert (E : intersectionLineArcHorizontal arcCenter r arcStart arcEnd
                isHorizontal y0 =
              intersectionLineArcHorizontal arcCenter r arcStart arcEnd isHorizontal
                (Some (or_default 0 y0))) by (destruct y0; reflexivity).
  rewrite E. set (v := or_default 0 y0).
  destruct (Rlt_dec (r * r - (v - Vector.y arcCenter) * (v - Vector.y arcCenter)) 0)
    as [Hn | Hp].
  - exists []. rewrite intersectionLineArcHorizontal_neg by exact Hn.
    repeat split; [simpl; lia | constructor].
  - eexists. rewrite intersectionLineArcHorizontal_nonneg by lra.
    split; [reflexivity |]. cbv zeta. split.
    + apply getIntersectingArcs_length.
    + eapply Forall_impl; [| apply getIntersectingArcs_Forall].
      cbv beta. intros p [Hin [-> | ->]]; split; auto.
Qed.

Lemma intersectionLineArcAngle_result (m c : R) :
  exists l, intersectionLineArcAngle arcCenter r arcStart arcEnd m c = Ok l /\
    (length l <= 2)%nat /\
    Forall (fun p => on_arc p /\ Vector.y p = m * Vector.x p + c) l.
Proof.
  destruct (Rlt_dec (lineDiscriminant arcCenter r m c) 0) as [Hn | Hp].
  - exists []. rewrite intersectionLineArcAngle_neg by exact Hn.
    repeat split; [simpl; lia | constructor].
  - eexists. rewrite intersectionLineArcAngle_nonneg by lra.
    split; [reflexivity |]. cbv zeta. split.
    + apply getIntersectingArcs_length.
    + eapply Forall_impl; [| apply getIntersectingArcs_Forall].
      cbv beta. intros p [Hin [-> | ->]]; split; auto.
Qed.

End SolverResults.

(** C9: every point a solver returns passes the angular membership test of
    the arc and lies on the queried line, and a solver returns at most two
    points.  Each solver returns a result on every input. *)
Theorem solver_points_on_arc_and_line (arcCenter : Vector.t) (r arcStart arcEnd : R) :
  (forall x0 : option R,
      exists l, intersectionLineArcVertical arcCenter r arcStart arcEnd x0 = Ok l /\
        (length l <= 2)%nat /\
        Forall (fun p =>
                  isAngleBetween (Vector.arg (Vector.subtract p arcCenter))
                    arcStart arcEnd = true /\
                  Vector.x p = or_default 0 x0) l) /\
  (forall (isHorizontal y0 : option R),
      exists l, intersectionLineArcHorizontal arcCenter r arcStart arcEnd
                  isHorizontal y0 = Ok l /\
        (length l <= 2)%nat /\
        Forall (fun p =>
                  isAngleBetween (Vector.arg (Vector.subtract p arcCenter))
                    arcStart arcEnd = true /\
                  Vector.y p = or_default 0 y0) l) /\
  (forall m c : R,
      exists l, intersectionLineArcAngle arcCenter r arcStart arcEnd m c = Ok l /\
        (length l <= 2)%nat /\
        Forall (fun p =>
                  isAngleBetween (Vector.arg (Vector.subtract p arcCenter))
                    arcStart arcEnd = true /\
                  Vector.y p = m * Vector.x p + c) l).
Proof.
  split; [| split].
  - intros x0. apply intersectionLineArcVertical_result.
  - intros flag y0. apply intersectionLineArcHorizontal_result.
  - intros m c. apply intersectionLineArcAngle_result.
Qed.

(** ** Polar conversions *)

Lemma fromPolar_at_0 : Vector.fromPolar 1 0 = Vector.mk 1 0.
Proof.
  unfold Vector.fromPolar, degreesToRadians. cbv zeta.
  replace (0 * PI / 180) with 0 by (unfold Rdiv; ring).
  rewrite cos_0, sin_0. f_equal; ring.
Qed.

Lemma quarter_turn_back : (0 - 90) * PI / 180 = - (PI / 2).
Proof. field. Qed.

(** C4, as the code has it: [Vector.fromPolar] measures the angle from the
    positive x axis with no offset; the arc-path generator calls it for both
    end points, so the two share that convention; the -90 degree offset
    belongs to [MathUtils.polarToCartesian], which is [fromPolar] a quarter
    turn back. *)
Theorem fromPolar_convention (r theta : R) :
  Vector.fromPolar r theta =
    Vector.mk (r * cos (theta * PI / 180)) (r * sin (theta * PI / 180)) /\
  polarToCartesian r theta = Vector.fromPolar r (theta - 90) /\
  (forall (arc : Arc.t) (radius : R),
      Arc.pathStart (Arc.generateArcPath arc radius) =
        Vector.fromPolar radius (Arc.inherentRotation arc + Arc.arcAngle arc) /\
      Arc.pathEnd (Arc.generateArcPath arc radius) =
        Vector.fromPolar radius (Arc.inherentRotation arc)).
Proof.
  split; [reflexivity |]. split.
  - unfold polarToCartesian, Vector.fromPolar, degreesToRadians. cbv zeta.
    replace ((theta - 90) * (PI / 180)) with ((theta - 90) * PI / 180) by field.
    reflexivity.
  - intros arc radius. split; reflexivity.
Qed.

(** C4 as stated fails at r = 1, theta = 0: [fromPolar] gives (1, 0), the
    formula with the -90 degree offset gives (0, -1). *)
Lemma fromPolar_offset_counterexample :
  Vector.fromPolar 1 0 <>
  Vector.mk (1 * cos ((0 - 90) * PI / 180)) (1 * sin ((0 - 90) * PI / 180)).
Proof.
  rewrite fromPolar_at_0, quarter_turn_back, cos_neg, cos_PI2.
  intros H. apply (f_equal Vector.x) in H. cbn in H. lra.
Qed.

(** ** The heap *)

Lemma list_update_length {A : Type} (n : nat) (a : A) (l : list A) :
  length (list_update n a l) = length l.
Proof.
  revert n. induction l as [| b t IH]; intros [| n]; simpl; auto.
Qed.

Lemma nth_error_list_update_eq {A : Type} (n : nat) (a : A) (l : list A) :
  (n < length l)%nat -> nth_error (list_update n a l) n = Some a.
Proof.
  revert n. induction l as [| b t IH]; intros [| n] H; simpl in *;
    try lia; auto. apply IH. lia.
Qed.

Lemma nth_error_list_update_neq {A : Type} (n m : nat) (a : A) (l : list A) :
  n <> m -> nth_error (list_update n a l) m = nth_error l m.
Proof.
  revert n m. induction l as [| b t IH]; intros [| n] [| m] H; simpl;
    try reflexivity; try congruence. apply IH. congruence.
Qed.

Lemma Forall_list_update {A : Type} (P : A -> Prop) (n : nat) (a : A) (l : list A) :
  Forall P l -> P a -> Forall P (list_update n a l).
Proof.
  intros Hl Ha. revert n. induction Hl as [| b t Hb Ht IH]; intros [| n]; simpl;
    constructor; auto.
Qed.

Lemma getVector_in_range (r : vref) (h : Heap.t) :
  (r < length (Heap.vectors h))%nat -> exists v, Heap.getVector r h = Ok v.
Proof.
  intros H. unfold Heap.getVector.
  destruct (nth_error (Heap.vectors h) r) eqn:E.
  - eauto.
  - apply nth_error_None in E. lia.
Qed.

Lemma getVector_Ok_range (r : vref) (h : Heap.t) (v : Vector.t) :
  Heap.getVector r h = Ok v -> nth_error (Heap.vectors h) r = Some v.
Proof.
  unfold Heap.getVector. destruct (nth_error (Heap.vectors h) r); congruence.
Qed.

Lemma getCut_at (r : cref) (h : Heap.t) (c : Cut.t) :
  nth_error (Heap.cutObjs h) r = Some c -> Heap.getCut r h = Ok c.
Proof. intros H. unfold Heap.getCut. rewrite H. reflexivity. Qed.

Lemma setCut_at (r : cref) (f : Cut.t -> Cut.t) (h : Heap.t) (c : Cut.t) :
  nth_error (Heap.cutObjs h) r = Some c ->
  Heap.setCut r f h =
  Ok (Heap.mk (Heap.vectors h) (list_update r (f c) (Heap.cutObjs h))).
Proof.
  intros H. unfold Heap.setCut. rewrite (getCut_at _ _ _ H). reflexivity.
Qed.

Lemma nth_error_in_range {A : Type} (l : list A) (n : nat) (a : A) :
  nth_error l n = Some a -> (n < length l)%nat.
Proof. intros H. apply nth_error_Some. congruence. Qed.

Lemma heap_ok_center (h : Heap.t) (r : cref) (c : Cut.t) :
  heap_ok h -> nth_error (Heap.cutObjs h) r = Some c ->
  (Cut.center c < length (Heap.vectors h))%nat.
Proof.
  intros Hh Hr. unfold heap_ok in Hh. rewrite Forall_forall in Hh.
  apply Hh. eapply nth_error_In, Hr.
Qed.

Lemma svg_arc_updatePath_ok (cut : cref) (h : Heap.t) (c : Cut.t) :
  nth_error (Heap.cutObjs h) cut = Some c ->
  Cut.svg_arc c = true ->
  (Cut.center c < length (Heap.vectors h))%nat ->
  svg_arc_updatePath cut h = Ok tt.
Proof.
  intros Hc Hs Hv. unfold svg_arc_updatePath.
  rewrite (getCut_at _ _ _ Hc). cbn [bind]. rewrite Hs.
  destruct (getVector_in_range _ _ Hv) as [v ->]. reflexivity.
Qed.

(** Overwriting one field of the live Cut with a center that exists. *)
Lemma heap_ok_update (h : Heap.t) (r : cref) (c : Cut.t) :
  heap_ok h -> (Cut.center c < length (Heap.vectors h))%nat ->
  heap_ok (Heap.mk (Heap.vectors h) (list_update r c (Heap.cutObjs h))).
Proof.
  intros Hh Hc. unfold heap_ok in *. cbn. apply Forall_list_update; assumption.
Qed.

Lemma heap_frame_refl (live : cref) (h : Heap.t) : heap_frame live h h.
Proof.
  repeat split; auto. exists []. symmetry. apply app_nil_r.
Qed.

Lemma heap_frame_trans (live : cref) (h1 h2 h3 : Heap.t) :
  heap_frame live h1 h2 -> heap_frame live h2 h3 -> heap_frame live h1 h3.
Proof.
  intros ([e1 V1] & L1 & F1) ([e2 V2] & L2 & F2). repeat split.
  - exists (e1 ++ e2). rewrite V2, V1, app_assoc. reflexivity.
  - congruence.
  - intros r Hr. rewrite F2, F1 by exact Hr. reflexivity.
Qed.

Lemma heap_frame_update (live : cref) (h : Heap.t) (c : Cut.t) :
  heap_frame live h (Heap.mk (Heap.vectors h) (list_update live c (Heap.cutObjs h))).
Proof.
  repeat split; cbn.
  - exists []. symmetry. apply app_nil_r.
  - apply list_update_length.
  - intros r Hr. apply nth_error_list_update_neq. congruence.
Qed.

(** ** The derived state of the assembly *)

Lemma checkTailstockArc_ok (a : CutterAssembly.t) (h : Heap.t) (c : Vector.t) :
  Heap.getVector (CutterAssembly.center a) h = Ok c ->
  exists l,
    intersectionLineArcHorizontal c tailstockFixArcRadius
      (Arc.inherentRotation (CutterAssembly.tailstockFixArc a)
       + CutterAssembly.rotationAngle a)
      (Arc.inherentRotation (CutterAssembly.tailstockFixArc a)
       + CutterAssembly.rotationAngle a
       + Arc.arcAngle (CutterAssembly.tailstockFixArc a))
      (Some 0) None = Ok l /\
    CutterAssembly.checkTailstockArc a h =
    Ok (CutterAssembly.set_hasIntersections (Nat.ltb 0 (length l)) a).
Proof.
  intros Hc. unfold CutterAssembly.checkTailstockArc. cbv zeta.
  rewrite Hc. cbn [bind].
  match goal with
  | |- context [intersectionLineArcHorizontal ?c0 ?r ?s ?e ?f ?y] =>
      destruct (intersectionLineArcHorizontal_result c0 r s e f y) as (l & El & _)
  end.
  exists l. rewrite El. split; reflexivity.
Qed.

Lemma updateEntryPointDim_spec (a : CutterAssembly.t) (h : Heap.t) (c wd : Vector.t) :
  Heap.getVector (CutterAssembly.center a) h = Ok c ->
  Heap.getVector (CutterAssembly.workpieceDim a) h = Ok wd ->
  exists l d,
    entryPointCandidates a c wd = Ok l /\
    CutterAssembly.updateEntryPointDim a h = Ok (CutterAssembly.set_entryPointDim d a) /\
    (Dimension.visible d = true <->
     exists p, l = [p] /\ 0 < Vector.y wd / 2 - Vector.y p < Vector.y wd / 2) /\
    (forall p, l = [p] ->
       0 < Vector.y wd / 2 - Vector.y p < Vector.y wd / 2 ->
       Dimension.start d = p /\
       Dimension.dir d = Vector.mk 0 (Vector.y wd / 2 - Vector.y p)).
Proof.
  intros Hc Hwd.
  unfold CutterAssembly.updateEntryPointDim, entryPointCandidates. cbv zeta.
  rewrite Hc, Hwd. cbn [bind].
  match goal with
  | |- context [intersectionLineArcVertical ?c0 ?r ?s ?e ?x0] =>
      destruct (intersectionLineArcVertical_result c0 r s e x0) as (l & El & _)
  end.
  exists l. rewrite El. cbn [bind].
  destruct l as [| p [| q l']]; cbn [length Nat.eqb nth_error].
  - exists (Dimension.setVisible false (CutterAssembly.entryPointDim a)).
    split; [reflexivity |]. split; [reflexivity |]. split.
    + cbn. split; [discriminate | intros (p & Hp & _); discriminate].
    + intros p Hp. discriminate.
  - destruct (Rgtb (Vector.y wd / 2 - Vector.y p) 0
              && Rltb (Vector.y wd / 2 - Vector.y p) (Vector.y wd / 2)) eqn:E.
    + exists (Dimension.setVisible true
                (Dimension.update p (Vector.mk 0 (Vector.y wd / 2 - Vector.y p))
                   (CutterAssembly.entryPointDim a))).
      split; [reflexivity |]. split; [reflexivity |].
      apply andb_true_iff in E. destruct E as [E1 E2].
      apply Rltb_true in E1, E2. split.
      * cbn. split; [| reflexivity]. intros _. exists p. split; [reflexivity | lra].
      * intros p' Hp' _. injection Hp' as <-. split; reflexivity.
    + exists (Dimension.setVisible false (CutterAssembly.entryPointDim a)).
      split; [reflexivity |]. split; [reflexivity |].
      apply andb_false_iff in E. split.
      * cbn. split; [discriminate |]. intros (p' & Hp' & Hr). injection Hp' as <-.
        destruct E as [E | E]; apply Rltb_false in E; lra.
      * intros p' Hp' Hr. injection Hp' as <-.
        destruct E as [E | E]; apply Rltb_false in E; lra.
  - exists (Dimension.setVisible false (CutterAssembly.entryPointDim a)).
    split; [reflexivity |]. split; [reflexivity |]. split.
    + cbn. split; [discriminate | intros (p' & Hp' & _); discriminate].
    + intros p' Hp'. discriminate.
Qed.

(** ** The three pose operations *)

Section PoseOperations.

Variables (a : CutterAssembly.t) (h : Heap.t) (c : Cut.t).
Hypothesis live : nth_error (Heap.cutObjs h) (CutterAssembly.currentCut a) = Some c.
Hypothesis attached : Cut.svg_arc c = true.

Local Abbreviation put c' :=
  (Heap.mk (Heap.vectors h)
     (list_update (CutterAssembly.currentCut a) c' (Heap.cutObjs h))).

Lemma put_live (c' : Cut.t) :
  nth_error (Heap.cutObjs (put c')) (CutterAssembly.currentCut a) = Some c'.
Proof.
  apply nth_error_list_update_eq. eapply nth_error_in_range, live.
Qed.

Lemma setRadius_spec (radius : R) :
  (Cut.center c < length (Heap.vectors h))%nat ->
  CutterAssembly.setRadius radius a h =
  Ok (CutterAssembly.set_cutterArc
        (Arc.setRadius radius (CutterAssembly.cutterArc a))
        (CutterAssembly.set_cutterRadius radius a),
      put (Cut.set_radius radius c)).
Proof.
  intros Hv. unfold CutterAssembly.setRadius. cbv zeta.
  cbn [CutterAssembly.currentCut CutterAssembly.set_cutterArc
       CutterAssembly.set_cutterRadius].
  rewrite (setCut_at _ _ _ _ live). cbn [bind].
  rewrite (svg_arc_updatePath_ok _ _ _ (put_live _)); auto.
Qed.

Lemma rotate_spec (angle : R) (v : Vector.t) :
  Heap.getVector (CutterAssembly.center a) h = Ok v ->
  (Cut.center c < length (Heap.vectors h))%nat ->
  exists b,
    CutterAssembly.rotate angle a h =
    Ok (CutterAssembly.set_hasIntersections b
          (CutterAssembly.set_rotationAngle (js_rem angle 360) a),
        put (Cut.set_rotation angle c)).
Proof.
  intros Hc Hv. unfold CutterAssembly.rotate. cbv zeta.
  cbn [CutterAssembly.center CutterAssembly.set_rotationAngle].
  rewrite Hc. cbn [bind].
  destruct (checkTailstockArc_ok
              (CutterAssembly.set_rotationAngle (js_rem angle 360) a) h v Hc)
    as (l & _ & ->).
  cbn [bind CutterAssembly.currentCut CutterAssembly.set_hasIntersections
       CutterAssembly.set_rotationAngle].
  rewrite (setCut_at _ _ _ _ live). cbn [bind].
  rewrite (svg_arc_updatePath_ok _ _ _ (put_live _)); auto.
  eexists. reflexivity.
Qed.

Lemma moveTo_spec (pos : vref) (p wd : Vector.t) :
  Heap.getVector pos h = Ok p ->
  Heap.getVector (CutterAssembly.workpieceDim a) h = Ok wd ->
  exists a' l,
    CutterAssembly.moveTo pos a h = Ok (a', put (Cut.set_center pos c)) /\
    CutterAssembly.center a' = pos /\
    CutterAssembly.rotationAngle a' = CutterAssembly.rotationAngle a /\
    CutterAssembly.cutterRadius a' = CutterAssembly.cutterRadius a /\
    CutterAssembly.currentCut a' = CutterAssembly.currentCut a /\
    CutterAssembly.workpieceDim a' = CutterAssembly.workpieceDim a /\
    CutterAssembly.cutterArc a' = CutterAssembly.cutterArc a /\
    CutterAssembly.tailstockFixArc a' = CutterAssembly.tailstockFixArc a /\
    entryPointCandidates a' p wd = Ok l /\
    (Dimension.visible (CutterAssembly.entryPointDim a') = true <->
     exists q, l = [q] /\ 0 < Vector.y wd / 2 - Vector.y q < Vector.y wd / 2) /\
    (forall q, l = [q] ->
       0 < Vector.y wd / 2 - Vector.y q < Vector.y wd / 2 ->
       Dimension.start (CutterAssembly.entryPointDim a') = q /\
       Dimension.dir (CutterAssembly.entryPointDim a') =
         Vector.mk 0 (Vector.y wd / 2 - Vector.y q)).
Proof.
  intros Hp Hwd. unfold CutterAssembly.moveTo. cbv zeta.
  cbn [CutterAssembly.currentCut CutterAssembly.workpieceDim
       CutterAssembly.set_center].
  rewrite (setCut_at _ _ _ _ live). cbn [bind].
  assert (Hp' : Heap.getVector pos (put (Cut.set_center pos c)) = Ok p) by exact Hp.
  assert (Hwd' : Heap.getVector (CutterAssembly.workpieceDim a)
                   (put (Cut.set_center pos c)) = Ok wd) by exact Hwd.
  rewrite (svg_arc_updatePath_ok _ _ _ (put_live _)).
  2: exact attached.
  2: { cbn. apply getVector_Ok_range in Hp. eapply nth_error_in_range, Hp. }
  cbn [bind]. rewrite Hp', Hwd'. cbn [bind].
  match goal with
  | |- context [CutterAssembly.checkTailstockArc ?a0 _] => set (am := a0)
  end.
  assert (F : CutterAssembly.center am = pos /\
              CutterAssembly.rotationAngle am = CutterAssembly.rotationAngle a /\
              CutterAssembly.cutterRadius am = CutterAssembly.cutterRadius a /\
              CutterAssembly.currentCut am = CutterAssembly.currentCut a /\
              CutterAssembly.workpieceDim am = CutterAssembly.workpieceDim a /\
              CutterAssembly.cutterArc am = CutterAssembly.cutterArc a /\
              CutterAssembly.tailstockFixArc am = CutterAssembly.tailstockFixArc a).
  { unfold am. destruct (Rltb (Vector.y p) 0); repeat split; reflexivity. }
  clearbody am. destruct F as (Fc & Frot & Frad & Fcut & Fwd & Farc & Ftail).
  destruct (checkTailstockArc_ok am (put (Cut.set_center pos c)) p)
    as (l0 & _ & E0); [rewrite Fc; exact Hp' |].
  rewrite E0. cbn [bind].
  destruct (updateEntryPointDim_spec
              (CutterAssembly.set_hasIntersections (Nat.ltb 0 (length l0)) am)
              (put (Cut.set_center pos c)) p wd)
    as (l & d & El & E1 & Hvis & Hmeas).
  { cbn [CutterAssembly.center CutterAssembly.set_hasIntersections].
    rewrite Fc. exact Hp'. }
  { cbn [CutterAssembly.workpieceDim CutterAssembly.set_hasIntersections].
    rewrite Fwd. exact Hwd'. }
  rewrite E1. cbn [bind].
  eexists. exists l. split; [reflexivity |].
  cbn [CutterAssembly.center CutterAssembly.rotationAngle
       CutterAssembly.cutterRadius CutterAssembly.currentCut
       CutterAssembly.workpieceDim CutterAssembly.cutterArc
       CutterAssembly.tailstockFixArc CutterAssembly.entryPointDim
       CutterAssembly.set_entryPointDim CutterAssembly.set_hasIntersections].
  repeat (split; [assumption |]). assumption.
Qed.

End PoseOperations.

(** ** Edits keep the state well formed and touch the live Cut only *)

Lemma assembly_ok_put (a a' : CutterAssembly.t) (h : Heap.t) (c' : Cut.t) :
  assembly_ok a h ->
  CutterAssembly.currentCut a' = CutterAssembly.currentCut a ->
  (CutterAssembly.center a' < length (Heap.vectors h))%nat ->
  CutterAssembly.workpieceDim a' = CutterAssembly.workpieceDim a ->
  Cut.svg_arc c' = true ->
  (Cut.center c' < length (Heap.vectors h))%nat ->
  assembly_ok a'
    (Heap.mk (Heap.vectors h)
       (list_update (CutterAssembly.currentCut a) c' (Heap.cutObjs h))).
Proof.
  intros (Hh & Hc & Hw & c & Hlive & Hs) Ecut Hc' Ewd Hs' Hv'.
  split; [apply heap_ok_update; assumption |].
  cbn [Heap.vectors Heap.cutObjs]. rewrite Ecut, Ewd.
  repeat split; try assumption.
  exists c'. split; [| assumption].
  apply nth_error_list_update_eq. eapply nth_error_in_range, Hlive.
Qed.

Lemma apply_edit_ok (e : edit) (a : CutterAssembly.t) (h : Heap.t) :
  assembly_ok a h ->
  edits_valid (length (Heap.vectors h)) [e] = true ->
  exists a' h',
    apply_edit e a h = Ok (a', h') /\
    assembly_ok a' h' /\
    heap_frame (CutterAssembly.currentCut a) h h' /\
    CutterAssembly.currentCut a' = CutterAssembly.currentCut a /\
    forall es, edits_valid (length (Heap.vectors h)) (e :: es) = true ->
               edits_valid (length (Heap.vectors h')) es = true.
Proof.
  intros Hok Hvalid.
  pose proof Hok as (Hh & Hc & Hw & c & Hlive & Hs).
  pose proof (heap_ok_center _ _ _ Hh Hlive) as Hcc.
  destruct e as [x y | pos | angle | radius]; cbn [apply_edit].
  - exists a, (snd (Heap.newVector (Vector.mk x y) h)).
    split; [reflexivity |]. cbn [snd Heap.newVector]. split; [| split; [| split]].
    + unfold assembly_ok, heap_ok in *. cbn [Heap.vectors Heap.cutObjs].
      rewrite length_app. cbn [length]. repeat split; try lia.
      * eapply Forall_impl; [| exact Hh]. cbv beta. intros; lia.
      * exists c. auto.
    + repeat split; cbn; eauto.
    + reflexivity.
    + intros es. cbn [edits_valid Heap.vectors]. rewrite length_app.
      cbn [length]. rewrite Nat.add_1_r. auto.
  - cbn [edits_valid] in Hvalid. rewrite andb_true_r in Hvalid.
    apply Nat.ltb_lt in Hvalid.
    destruct (getVector_in_range _ _ Hvalid) as [p Hp].
    destruct (getVector_in_range _ _ Hw) as [wd Hwd].
    destruct (moveTo_spec a h c Hlive Hs pos p wd Hp Hwd)
      as (a' & l & E & Fc & _ & _ & Fcut & Fwd & _).
    exists a'. eexists. split; [exact E |]. split; [| split; [| split]].
    + apply assembly_ok_put; auto. rewrite Fc. exact Hvalid.
    + apply heap_frame_update.
    + exact Fcut.
    + intros es. cbn [edits_valid Heap.vectors]. intros H.
      apply andb_true_iff in H. tauto.
  - destruct (getVector_in_range _ _ Hc) as [v Hv].
    destruct (rotate_spec a h c Hlive Hs angle v Hv Hcc) as [b E].
    eexists. eexists. split; [exact E |]. split; [| split; [| split]].
    + apply assembly_ok_put; auto.
    + apply heap_frame_update.
    + reflexivity.
    + intros es H. exact H.
  - eexists. eexists. split; [apply (setRadius_spec a h c Hlive Hs radius Hcc) |].
    split; [| split; [| split]].
    + apply assembly_ok_put; auto.
    + apply heap_frame_update.
    + reflexivity.
    + intros es H. exact H.
Qed.

Lemma run_edits_ok (es : list edit) :
  forall (a : CutterAssembly.t) (h : Heap.t),
    assembly_ok a h ->
    edits_valid (length (Heap.vectors h)) es = true ->
    exists a' h',
      run_edits es a h = Ok (a', h') /\
      assembly_ok a' h' /\
      heap_frame (CutterAssembly.currentCut a) h h' /\
      CutterAssembly.currentCut a' = CutterAssembly.currentCut a.
Proof.
  induction es as [| e es IH]; intros a h Hok Hvalid.
  - exists a, h. split; [reflexivity |]. split; [assumption |].
    split; [apply heap_frame_refl | reflexivity].
  - assert (Hone : edits_valid (length (Heap.vectors h)) [e] = true).
    { destruct e; cbn [edits_valid] in *; auto.
      apply andb_true_iff in Hvalid. rewrite (proj1 Hvalid). reflexivity. }
    destruct (apply_edit_ok e a h Hok Hone) as (a1 & h1 & E1 & Hok1 & Hf1 & Hc1 & Hv1).
    destruct (IH a1 h1 Hok1 (Hv1 es Hvalid)) as (a2 & h2 & E2 & Hok2 & Hf2 & Hc2).
    exists a2, h2. cbn [run_edits]. rewrite E1. cbn [bind]. rewrite E2.
    split; [reflexivity |]. split; [assumption |]. split.
    + eapply heap_frame_trans; [exact Hf1 |]. rewrite <- Hc1. exact Hf2.
    + congruence.
Qed.

(** ** One step on the live Cut *)

Section Steps.

Variables (a : CutterAssembly.t) (h : Heap.t) (c : Cut.t).
Hypothesis ok : assembly_ok a h.
Hypothesis live : nth_error (Heap.cutObjs h) (CutterAssembly.currentCut a) = Some c.

Lemma live_attached : Cut.svg_arc c = true.
Proof.
  destruct ok as (_ & _ & _ & c0 & H0 & Hs). congruence.
Qed.

Lemma live_center : (Cut.center c < length (Heap.vectors h))%nat.
Proof. eapply heap_ok_center; [apply ok | exact live]. Qed.

Lemma put_step (a' : CutterAssembly.t) (c' : Cut.t) :
  CutterAssembly.currentCut a' = CutterAssembly.currentCut a ->
  (CutterAssembly.center a' < length (Heap.vectors h))%nat ->
  CutterAssembly.workpieceDim a' = CutterAssembly.workpieceDim a ->
  Cut.svg_arc c' = true ->
  (Cut.center c' < length (Heap.vectors h))%nat ->
  step_result a a' h
    (Heap.mk (Heap.vectors h)
       (list_update (CutterAssembly.currentCut a) c' (Heap.cutObjs h))) c'.
Proof.
  intros Ecut Hc Ewd Hs Hv. unfold step_result. split; [| split; [| split; [| split]]].
  - apply assembly_ok_put; assumption.
  - apply nth_error_list_update_eq. eapply nth_error_in_range, live.
  - apply heap_frame_update.
  - reflexivity.
  - exact Ecut.
Qed.

Lemma setCut_step (f : Cut.t -> Cut.t) :
  Cut.svg_arc (f c) = true ->
  (Cut.center (f c) < length (Heap.vectors h))%nat ->
  exists h',
    Heap.setCut (CutterAssembly.currentCut a) f h = Ok h' /\
    step_result a a h h' (f c).
Proof.
  intros Hs Hv. eexists. split; [apply (setCut_at _ _ _ _ live) |].
  apply put_step; auto; apply ok.
Qed.

Lemma moveTo_step (pos : vref) :
  (pos < length (Heap.vectors h))%nat ->
  exists a' h',
    CutterAssembly.moveTo pos a h = Ok (a', h') /\
    step_result a a' h h' (Cut.set_center pos c).
Proof.
  intros Hpos.
  destruct (getVector_in_range _ _ Hpos) as [p Hp].
  destruct ok as (_ & _ & Hw & _).
  destruct (getVector_in_range _ _ Hw) as [wd Hwd].
  destruct (moveTo_spec a h c live live_attached pos p wd Hp Hwd)
    as (a' & l & E & Fc & _ & _ & Fcut & Fwd & _).
  exists a'. eexists. split; [exact E |].
  apply put_step; auto.
  - rewrite Fc. exact Hpos.
  - apply live_attached.
Qed.

Lemma rotate_step (angle : R) :
  exists a' h',
    CutterAssembly.rotate angle a h = Ok (a', h') /\
    step_result a a' h h' (Cut.set_rotation angle c) /\
    CutterAssembly.rotationAngle a' = js_rem angle 360 /\
    CutterAssembly.entryPointDim a' = CutterAssembly.entryPointDim a.
Proof.
  destruct ok as (_ & Hc & _ & _).
  destruct (getVector_in_range _ _ Hc) as [v Hv].
  destruct (rotate_spec a h c live live_attached angle v Hv live_center) as [b E].
  eexists. eexists. split; [exact E |]. split; [| split; reflexivity].
  apply put_step; auto.
  - apply live_attached.
  - apply live_center.
Qed.

Lemma setRadius_step (radius : R) :
  exists a' h',
    CutterAssembly.setRadius radius a h = Ok (a', h') /\
    step_result a a' h h' (Cut.set_radius radius c) /\
    CutterAssembly.entryPointDim a' = CutterAssembly.entryPointDim a.
Proof.
  eexists. eexists.
  split; [apply (setRadius_spec a h c live live_attached radius live_center) |].
  split; [| reflexivity].
  apply put_step; auto.
  - apply ok.
  - apply live_attached.
  - apply live_center.
Qed.

End Steps.

(** ** Commit and select *)

Lemma deref_at (s : cref) (h : Heap.t) (snap : Cut.t) :
  nth_error (Heap.cutObjs h) s = Some snap -> deref (Some s) h = Ok snap.
Proof. intros H. cbn. apply getCut_at, H. Qed.

Lemma frame_lookup (live r : cref) (h h' : Heap.t) :
  heap_frame live h h' -> r <> live ->
  nth_error (Heap.cutObjs h') r = nth_error (Heap.cutObjs h) r.
Proof. intros (_ & _ & F) Hr. apply F, Hr. Qed.

Lemma frame_vector (live : cref) (r : vref) (h h' : Heap.t) :
  heap_frame live h h' -> (r < length (Heap.vectors h))%nat ->
  nth_error (Heap.vectors h') r = nth_error (Heap.vectors h) r.
Proof.
  intros ([ext E] & _) Hr. rewrite E. apply nth_error_app1, Hr.
Qed.

Lemma list_update_app_l {A : Type} (n : nat) (a : A) (l l' : list A) :
  (n < length l)%nat -> list_update n a (l ++ l') = list_update n a l ++ l'.
Proof.
  revert n. induction l as [| b t IH]; intros [| n] H; simpl in *; try lia; auto.
  rewrite IH by lia. reflexivity.
Qed.

Lemma nth_error_snoc {A : Type} (l : list A) (a : A) :
  nth_error (l ++ [a]) (length l) = Some a.
Proof.
  rewrite nth_error_app2 by lia. rewrite Nat.sub_diag. reflexivity.
Qed.

(** Allocating a Cut keeps the assembly well formed when its center exists. *)
Lemma assembly_ok_newCut (a : CutterAssembly.t) (h : Heap.t) (c' : Cut.t) :
  assembly_ok a h ->
  (Cut.center c' < length (Heap.vectors h))%nat ->
  assembly_ok a (snd (Heap.newCut c' h)).
Proof.
  intros (Hh & Hc & Hw & c & Hlive & Hs) Hv. cbn.
  unfold assembly_ok, heap_ok in *. cbn [Heap.vectors Heap.cutObjs].
  repeat split; try assumption.
  - apply Forall_app. split; [assumption | constructor; [assumption | constructor]].
  - exists c. split; [| assumption].
    rewrite nth_error_app1; [assumption | eapply nth_error_in_range, Hlive].
Qed.

Lemma addCurrentCut_spec (d : Drawing.t) (h : Heap.t) (c : Cut.t) :
  drawing_ok d h ->
  nth_error (Heap.cutObjs h) (Drawing.currentCut d) = Some c ->
  exists h',
    Drawing.addCurrentCut d h =
      Ok (Drawing.set_cuts (Drawing.cuts d ++ [length (Heap.cutObjs h)]) d, h') /\
    drawing_ok (Drawing.set_cuts (Drawing.cuts d ++ [length (Heap.cutObjs h)]) d) h' /\
    Heap.vectors h' = Heap.vectors h /\
    length (Heap.cutObjs h') = S (length (Heap.cutObjs h)) /\
    nth_error (Heap.cutObjs h') (Drawing.currentCut d) = Some (Cut.set_wasSaved false c) /\
    nth_error (Heap.cutObjs h') (length (Heap.cutObjs h)) = Some (Cut.clone c) /\
    (forall r, r <> Drawing.currentCut d -> (r < length (Heap.cutObjs h))%nat ->
               nth_error (Heap.cutObjs h') r = nth_error (Heap.cutObjs h) r).
Proof.
  intros (Hok & Hcc & Hcuts) Hlive.
  pose proof (nth_error_in_range _ _ _ Hlive) as Hlt.
  pose proof Hok as (Hh & _).
  pose proof (heap_ok_center _ _ _ Hh Hlive) as Hcenter.
  pose proof (assembly_ok_newCut _ _ (Cut.clone c) Hok Hcenter) as Hok1.
  assert (Hlive1 : nth_error (Heap.cutObjs (snd (Heap.newCut (Cut.clone c) h)))
                     (CutterAssembly.currentCut (Drawing.cutterAssembly d)) = Some c).
  { cbn. rewrite Hcc, nth_error_app1 by exact Hlt. exact Hlive. }
  destruct (setCut_step _ _ _ Hok1 Hlive1 (Cut.set_wasSaved false))
    as (h' & E & Hok' & Hl' & Hf' & Hv' & _).
  { cbn. eapply live_attached; eassumption. }
  { exact Hcenter. }
  rewrite Hcc in E, Hl', Hf'.
  exists h'. unfold Drawing.addCurrentCut.
  rewrite (getCut_at _ _ _ Hlive). cbn [bind].
  unfold Heap.newCut in *. cbn [snd Drawing.currentCut Drawing.set_cuts] in *.
  rewrite E. split; [reflexivity |].
  assert (Hlen : length (Heap.cutObjs h') = S (length (Heap.cutObjs h))).
  { destruct Hf' as (_ & L & _). rewrite L. cbn. rewrite length_app. cbn. lia. }
  assert (Hnew : nth_error (Heap.cutObjs h') (length (Heap.cutObjs h))
                 = Some (Cut.clone c)).
  { rewrite (frame_lookup _ _ _ _ Hf') by lia. cbn. apply nth_error_snoc. }
  split; [| split; [exact Hv' | split; [exact Hlen | split; [exact Hl' | split;
    [exact Hnew |]]]]].
  - split; [exact Hok' | split; [exact Hcc |]].
    cbn [Drawing.cuts Drawing.currentCut Drawing.set_cuts].
    rewrite Hlen. apply Forall_app. split.
    + eapply Forall_impl; [| exact Hcuts]. cbv beta. intros r [H1 H2]. split; [lia | exact H2].
    + constructor; [split; lia | constructor].
  - intros r Hr Hrl. rewrite (frame_lookup _ _ _ _ Hf') by exact Hr.
    cbn. apply nth_error_app1, Hrl.
Qed.

(** The part of [selectCut] that applies the chosen snapshot [s]: four field
    assignments on the live Cut, then [moveTo], [rotate] and [setRadius],
    each reading the snapshot again. *)
Lemma selectCut_apply (d : Drawing.t) (h : Heap.t) (s : cref) (c snap : Cut.t) :
  assembly_ok (Drawing.cutterAssembly d) h ->
  CutterAssembly.currentCut (Drawing.cutterAssembly d) = Drawing.currentCut d ->
  nth_error (Heap.cutObjs h) (Drawing.currentCut d) = Some c ->
  s <> Drawing.currentCut d ->
  nth_error (Heap.cutObjs h) s = Some snap ->
  exists a' h',
    (c1 <- deref (Some s) h ;;
     h1 <- Heap.setCut (Drawing.currentCut d) (Cut.set_center (Cut.center c1)) h ;;
     c2 <- deref (Some s) h1 ;;
     h2 <- Heap.setCut (Drawing.currentCut d) (Cut.set_radius (Cut.radius c2)) h1 ;;
     c3 <- deref (Some s) h2 ;;
     h3 <- Heap.setCut (Drawing.currentCut d) (Cut.set_rotation (Cut.rotation c3)) h2 ;;
     h4 <- Heap.setCut (Drawing.currentCut d) (Cut.set_wasSaved true) h3 ;;
     c5 <- deref (Some s) h4 ;;
     '(a5, h5) <- CutterAssembly.moveTo (Cut.center c5) (Drawing.cutterAssembly d) h4 ;;
     c6 <- deref (Some s) h5 ;;
     '(a6, h6) <- CutterAssembly.rotate (Cut.rotation c6) a5 h5 ;;
     c7 <- deref (Some s) h6 ;;
     '(a7, h7) <- CutterAssembly.setRadius (Cut.radius c7) a6 h6 ;;
     Ok (Drawing.set_cutterAssembly a7 d, h7))
    = Ok (Drawing.set_cutterAssembly a' d, h') /\
    assembly_ok a' h' /\
    CutterAssembly.currentCut a' = Drawing.currentCut d /\
    nth_error (Heap.cutObjs h') (Drawing.currentCut d) =
      Some (Cut.mk (Cut.center snap) (Cut.rotation snap) (Cut.radius snap)
              (Cut.svg_arc c) true) /\
    heap_frame (Drawing.currentCut d) h h' /\
    Heap.vectors h' = Heap.vectors h.
Proof.
  intros Hok Hcc Hlive Hs Hsnap.
  set (a := Drawing.cutterAssembly d) in *.
  rewrite <- Hcc in *.
  pose proof (live_attached _ _ _ Hok Hlive) as Hatt.
  pose proof Hok as (Hh & _).
  pose proof (heap_ok_center _ _ _ Hh Hsnap) as Hsc.
  (* currentCut.center = cut.center *)
  rewrite (deref_at _ _ _ Hsnap). cbn [bind].
  destruct (setCut_step a h c Hok Hlive (Cut.set_center (Cut.center snap)) Hatt Hsc)
    as (h1 & E1 & Hok1 & Hl1 & Hf1 & Hv1 & _).
  rewrite E1. cbn [bind].
  assert (Hs1 : nth_error (Heap.cutObjs h1) s = Some snap)
    by (rewrite (frame_lookup _ _ _ _ Hf1 Hs); exact Hsnap).
  (* currentCut.radius = cut.radius *)
  rewrite (deref_at _ _ _ Hs1). cbn [bind].
  destruct (setCut_step a h1 _ Hok1 Hl1 (Cut.set_radius (Cut.radius snap)))
    as (h2 & E2 & Hok2 & Hl2 & Hf2 & Hv2 & _);
    [exact Hatt | cbn; rewrite Hv1; exact Hsc |].
  rewrite E2. cbn [bind].
  assert (Hs2 : nth_error (Heap.cutObjs h2) s = Some snap)
    by (rewrite (frame_lookup _ _ _ _ Hf2 Hs); exact Hs1).
  (* currentCut.rotation = cut.rotation *)
  rewrite (deref_at _ _ _ Hs2). cbn [bind].
  destruct (setCut_step a h2 _ Hok2 Hl2 (Cut.set_rotation (Cut.rotation snap)))
    as (h3 & E3 & Hok3 & Hl3 & Hf3 & Hv3 & _);
    [exact Hatt | cbn; rewrite Hv2, Hv1; exact Hsc |].
  rewrite E3. cbn [bind].
  (* currentCut.wasSaved = true *)
  destruct (setCut_step a h3 _ Hok3 Hl3 (Cut.set_wasSaved true))
    as (h4 & E4 & Hok4 & Hl4 & Hf4 & Hv4 & _);
    [exact Hatt | cbn; rewrite Hv3, Hv2, Hv1; exact Hsc |].
  rewrite E4. cbn [bind].
  assert (Hs4 : nth_error (Heap.cutObjs h4) s = Some snap).
  { rewrite (frame_lookup _ _ _ _ Hf4 Hs), (frame_lookup _ _ _ _ Hf3 Hs).
    exact Hs2. }
  (* moveTo(cut.center) *)
  rewrite (deref_at _ _ _ Hs4). cbn [bind].
  destruct (moveTo_step a h4 _ Hok4 Hl4 (Cut.center snap))
    as (a5 & h5 & E5 & Hok5 & Hl5 & Hf5 & Hv5 & Hc5);
    [rewrite Hv4, Hv3, Hv2, Hv1; exact Hsc |].
  rewrite E5. cbn [bind].
  assert (Hs5 : nth_error (Heap.cutObjs h5) s = Some snap)
    by (rewrite (frame_lookup _ _ _ _ Hf5 Hs); exact Hs4).
  (* rotate(cut.rotation) *)
  rewrite (deref_at _ _ _ Hs5). cbn [bind].
  rewrite <- Hc5 in Hl5.
  destruct (rotate_step a5 h5 _ Hok5 Hl5 (Cut.rotation snap))
    as (a6 & h6 & E6 & (Hok6 & Hl6 & Hf6 & Hv6 & Hc6) & _).
  rewrite E6. cbn [bind]. rewrite Hc5 in Hf6.
  assert (Hs6 : nth_error (Heap.cutObjs h6) s = Some snap)
    by (rewrite (frame_lookup _ _ _ _ Hf6 Hs); exact Hs5).
  (* setRadius(cut.radius) *)
  rewrite (deref_at _ _ _ Hs6). cbn [bind].
  rewrite <- Hc6 in Hl6.
  destruct (setRadius_step a6 h6 _ Hok6 Hl6 (Cut.radius snap))
    as (a7 & h7 & E7 & (Hok7 & Hl7 & Hf7 & Hv7 & Hc7) & _).
  rewrite E7. cbn [bind]. rewrite Hc6, Hc5 in Hf7, Hl7.
  exists a7, h7. split; [reflexivity |]. split; [exact Hok7 |].
  split; [congruence |]. split; [exact Hl7 |]. split.
  - apply (heap_frame_trans _ _ _ _ Hf1), (heap_frame_trans _ _ _ _ Hf2),
      (heap_frame_trans _ _ _ _ Hf3), (heap_frame_trans _ _ _ _ Hf4),
      (heap_frame_trans _ _ _ _ Hf5), (heap_frame_trans _ _ _ _ Hf6), Hf7.
  - congruence.
Qed.

Lemma Forall_splice1 {A : Type} (P : A -> Prop) (index : nat) (l : list A) :
  Forall P l -> Forall P (splice1 index l).
Proof.
  intros H. rewrite Forall_forall in *. intros x Hx. apply H.
  unfold splice1 in Hx. apply in_app_or in Hx.
  rewrite <- (firstn_skipn index l). apply in_or_app.
  destruct Hx as [Hx | Hx]; [left; exact Hx |].
  right. rewrite <- (firstn_skipn 1 (skipn index l)).
  apply in_or_app. right. rewrite skipn_skipn. exact Hx.
Qed.

Lemma selectCut_spec (index : nat) (d : Drawing.t) (h : Heap.t) (s : cref)
    (c snap : Cut.t) :
  drawing_ok d h ->
  nth_error (Drawing.cuts d) index = Some s ->
  nth_error (Heap.cutObjs h) (Drawing.currentCut d) = Some c ->
  nth_error (Heap.cutObjs h) s = Some snap ->
  exists d' h',
    Drawing.selectCut index d h = Ok (d', h') /\
    drawing_ok d' h' /\
    Drawing.currentCut d' = Drawing.currentCut d /\
    Drawing.cuts d' =
      splice1 index (Drawing.cuts d)
      ++ (if Cut.wasSaved c then [length (Heap.cutObjs h)] else []) /\
    (Cut.wasSaved c = true ->
     nth_error (Heap.cutObjs h') (length (Heap.cutObjs h)) = Some (Cut.clone c)) /\
    nth_error (Heap.cutObjs h') (Drawing.currentCut d) =
      Some (Cut.mk (Cut.center snap) (Cut.rotation snap) (Cut.radius snap)
              (Cut.svg_arc c) true) /\
    Heap.vectors h' = Heap.vectors h /\
    (forall r, r <> Drawing.currentCut d -> (r < length (Heap.cutObjs h))%nat ->
               nth_error (Heap.cutObjs h') r = nth_error (Heap.cutObjs h) r).
Proof.
  intros (Hok & Hcc & Hcuts) Hidx Hlive Hsnap.
  pose proof (nth_error_in_range _ _ _ Hlive) as Hlt.
  assert (Hs : (s < length (Heap.cutObjs h))%nat /\ s <> Drawing.currentCut d).
  { rewrite Forall_forall in Hcuts. apply Hcuts. eapply nth_error_In, Hidx. }
  destruct Hs as [Hslt Hs].
  pose proof Hok as (Hh & _).
  pose proof (heap_ok_center _ _ _ Hh Hlive) as Hcenter.
  unfold Drawing.selectCut. cbv zeta. rewrite Hidx.
  cbn [Drawing.currentCut Drawing.set_cuts].
  rewrite (getCut_at _ _ _ Hlive). cbn [bind].
  destruct (Cut.wasSaved c) eqn:Esaved.
  - unfold Heap.newCut.
    set (d1 := Drawing.set_cuts
                 (splice1 index (Drawing.cuts d) ++ [length (Heap.cutObjs h)]) d).
    set (h1 := Heap.mk (Heap.vectors h) (Heap.cutObjs h ++ [Cut.clone c])).
    destruct (selectCut_apply d1 h1 s c snap) as (a' & h' & E & Hok' & Hc' & Hl' & Hf' & Hv').
    { apply (assembly_ok_newCut _ _ (Cut.clone c) Hok Hcenter). }
    { exact Hcc. }
    { cbn. rewrite nth_error_app1 by exact Hlt. exact Hlive. }
    { exact Hs. }
    { cbn. rewrite nth_error_app1 by exact Hslt. exact Hsnap. }
    exists (Drawing.set_cutterAssembly a' d1), h'.
    split; [exact E |].
    assert (Hlen : length (Heap.cutObjs h') = S (length (Heap.cutObjs h))).
    { destruct Hf' as (_ & L & _). rewrite L. cbn. rewrite length_app. cbn. lia. }
    split; [| split; [reflexivity | split; [reflexivity | split; [| split;
      [exact Hl' | split; [exact Hv' |]]]]]].
    + split; [exact Hok' | split; [exact Hc' |]].
      cbn [Drawing.cuts Drawing.currentCut Drawing.set_cutterAssembly Drawing.set_cuts d1].
      rewrite Hlen. apply Forall_app. split.
      * apply Forall_splice1. eapply Forall_impl; [| exact Hcuts].
        cbv beta. intros r [H1 H2]. split; [lia | exact H2].
      * constructor; [split; lia | constructor].
    + intros _. rewrite (frame_lookup _ _ _ _ Hf') by (cbn; lia).
      cbn. apply nth_error_snoc.
    + intros r Hr Hrl. rewrite (frame_lookup _ _ _ _ Hf') by exact Hr.
      cbn. apply nth_error_app1, Hrl.
  - set (d1 := Drawing.set_cuts (splice1 index (Drawing.cuts d)) d).
    destruct (selectCut_apply d1 h s c snap Hok Hcc Hlive Hs Hsnap)
      as (a' & h' & E & Hok' & Hc' & Hl' & Hf' & Hv').
    exists (Drawing.set_cutterAssembly a' d1), h'.
    split; [exact E |].
    assert (Hlen : length (Heap.cutObjs h') = length (Heap.cutObjs h))
      by apply Hf'.
    split; [| split; [reflexivity | split; [symmetry; apply app_nil_r | split; [| split;
      [exact Hl' | split; [exact Hv' |]]]]]].
    + split; [exact Hok' | split; [exact Hc' |]].
      cbn [Drawing.cuts Drawing.currentCut Drawing.set_cutterAssembly Drawing.set_cuts d1].
      rewrite Hlen. apply Forall_splice1. exact Hcuts.
    + discriminate.
    + intros r Hr _. apply (frame_lookup _ _ _ _ Hf' Hr).
Qed.

(** ** The constructed session *)

Lemma new_session : Drawing.new globals = Ok (d_init, h_init).
Proof. reflexivity. Qed.

Lemma first_commit : Drawing.addCurrentCut d_init h_init = Ok (d_one, h_one).
Proof. reflexivity. Qed.

Lemma a_init_ok : assembly_ok a_init h_init.
Proof.
  unfold assembly_ok, heap_ok. cbn. repeat split; try lia.
  - repeat constructor.
  - eexists. split; reflexivity.
Qed.

Lemma d_init_ok : drawing_ok d_init h_init.
Proof.
  split; [exact a_init_ok |]. split; [reflexivity | constructor].
Qed.

Lemma d_one_ok : drawing_ok d_one h_one.
Proof.
  split; [| split; [reflexivity |]].
  - unfold assembly_ok, heap_ok. cbn. repeat split; try lia.
    + repeat constructor.
    + eexists. split; reflexivity.
  - cbn. constructor; [split; lia | constructor].
Qed.

(** ** The sign and size of a remainder *)

Lemma Int_part_nonneg (a : R) : 0 <= a -> (0 <= Int_part a)%Z.
Proof.
  intros Ha. destruct (base_Int_part a) as [_ H].
  assert (H1 : IZR (-1) < IZR (Int_part a)) by lra.
  apply lt_IZR in H1. lia.
Qed.

Lemma js_rem_toward_zero (a b : R) :
  0 < b -> (0 <= a -> js_rem a b <= a) /\ (a <= 0 -> a <= js_rem a b).
Proof.
  intros Hb. unfold js_rem, Rtrunc. split; intros Ha.
  - assert (Hq : 0 <= a / b).
    { apply Rmult_le_reg_r with b; [exact Hb |].
      unfold Rdiv. rewrite Rmult_assoc, Rinv_l by lra. lra. }
    destruct (Rle_dec 0 (a / b)); [| contradiction].
    pose proof (IZR_le _ _ (Int_part_nonneg _ Hq)) as Hk. nra.
  - destruct (Rle_dec 0 (a / b)) as [Hq | Hq].
    + pose proof (IZR_le _ _ (Int_part_nonneg _ Hq)) as Hk.
      assert (E : a = a / b * b) by (field; lra).
      assert (Hz : a / b = 0) by nra.
      rewrite Hz in *. destruct (base_Int_part 0) as [H1 H2]. nra.
    + assert (Hq' : 0 <= - (a / b)) by lra.
      pose proof (IZR_le _ _ (Int_part_nonneg _ Hq')) as Hk.
      rewrite opp_IZR. nra.
Qed.

Lemma js_rem_sign_and_size (a : R) :
  Rabs (js_rem a 360) < 360 /\
  0 <= a * js_rem a 360 /\
  Rabs (js_rem a 360) <= Rabs a.
Proof.
  assert (Hb : 0 < 360) by lra.
  destruct (js_rem_toward_zero a 360 Hb) as [Hpos Hneg].
  destruct (Rle_dec 0 a) as [Ha | Ha].
  - destruct (js_rem_nonneg_range 360 Hb a Ha) as [H1 H2].
    specialize (Hpos Ha).
    rewrite (Rabs_pos_eq _ H1), (Rabs_pos_eq _ Ha). repeat split; nra.
  - assert (Ha' : a <= 0) by lra.
    destruct (js_rem_nonpos_range 360 Hb a Ha') as [H1 H2].
    specialize (Hneg Ha').
    rewrite (Rabs_left1 _ H2), (Rabs_left1 _ Ha'). repeat split; nra.
Qed.

(** A remainder modulo 360 is the angle itself exactly below a full turn. *)
Lemma js_rem_360_fixed (a : R) : js_rem a 360 = a <-> Rabs a < 360.
Proof.
  split.
  - intros E. pose proof (js_rem_sign_and_size a) as (H & _). rewrite E in H. exact H.
  - intros H. apply Rabs_def2 in H. destruct (Rle_dec 0 a) as [Ha | Ha].
    + rewrite (js_rem_window 360 ltac:(lra) a 0); lra.
    + rewrite (js_rem_window_neg 360 ltac:(lra) a 0); lra.
Qed.

(** C7, as the code has it: [rotate] stores the angle twice.  The
    assembly's rotation receives [angle % 360]: smaller than a full turn, of
    the sign of [angle], never larger than [angle], and not brought into
    [0, 360) (-30 stays -30, where [normalizeAngle] gives 330).  The live
    Cut's rotation receives the angle as given, so the two agree exactly
    when the angle is smaller than a full turn.  After rotate, moveTo,
    rotate the assembly's rotation is the remainder of the last angle and
    the live Cut's rotation is the last angle, whatever the first one
    was. *)
Theorem rotate_stores_remainder (a : CutterAssembly.t) (h : Heap.t)
    (a1 a2 : R) (pos : vref) :
  assembly_ok a h ->
  (pos < length (Heap.vectors h))%nat ->
  (exists a' h' c',
      CutterAssembly.rotate a2 a h = Ok (a', h') /\
      CutterAssembly.rotationAngle a' = js_rem a2 360 /\
      nth_error (Heap.cutObjs h') (CutterAssembly.currentCut a') = Some c' /\
      Cut.rotation c' = a2) /\
  (exists a' h' c',
      run_edits [Rotate a1; MoveTo pos; Rotate a2] a h = Ok (a', h') /\
      CutterAssembly.rotationAngle a' = js_rem a2 360 /\
      nth_error (Heap.cutObjs h') (CutterAssembly.currentCut a') = Some c' /\
      Cut.rotation c' = a2) /\
  (js_rem a2 360 = a2 <-> Rabs a2 < 360) /\
  Rabs (js_rem a2 360) < 360 /\
  0 <= a2 * js_rem a2 360 /\
  Rabs (js_rem a2 360) <= Rabs a2 /\
  js_rem (-30) 360 = -30 /\
  normalizeAngle (-30) = 330.
Proof.
  intros Hok Hpos.
  pose proof Hok as (_ & _ & _ & c & Hlive & _).
  split; [| split; [| split; [apply js_rem_360_fixed |]]].
  - destruct (rotate_step a h c Hok Hlive a2)
      as (a' & h' & E & (_ & Hl & _ & _ & Hc) & Hrot & _).
    exists a', h', (Cut.set_rotation a2 c). rewrite Hc.
    split; [exact E |]. split; [exact Hrot |]. split; [exact Hl | reflexivity].
  - destruct (rotate_step a h c Hok Hlive a1)
      as (r1 & h1 & E1 & (Hok1 & Hl1 & _ & Hv1 & Hc1) & _).
    rewrite <- Hc1 in Hl1.
    destruct (moveTo_step r1 h1 _ Hok1 Hl1 pos)
      as (r2 & h2 & E2 & Hok2 & Hl2 & _ & _ & Hc2); [rewrite Hv1; exact Hpos |].
    rewrite <- Hc2 in Hl2.
    destruct (rotate_step r2 h2 _ Hok2 Hl2 a2)
      as (r3 & h3 & E3 & (_ & Hl3 & _ & _ & Hc3) & Hrot & _).
    exists r3, h3. eexists. cbn [run_edits apply_edit].
    rewrite E1. cbn [bind]. rewrite E2. cbn [bind]. rewrite E3. cbn [bind].
    split; [reflexivity |]. split; [exact Hrot |]. rewrite Hc3.
    split; [exact Hl3 | reflexivity].
  - pose proof (js_rem_sign_and_size a2) as (H1 & H2 & H3).
    repeat split; try assumption.
    + rewrite (js_rem_window_neg 360 ltac:(lra) (-30) 0); lra.
    + rewrite (normalizeAngle_window (-30) 0); lra.
Qed.

Lemma rotate_stores_remainder_witness :
  assembly_ok a_init h_init /\
  (0 < length (Heap.vectors h_init))%nat /\
  (exists a' h' c',
      run_edits [Rotate 400; MoveTo 0; Rotate (-30)] a_init h_init = Ok (a', h') /\
      CutterAssembly.rotationAngle a' = js_rem (-30) 360 /\
      nth_error (Heap.cutObjs h') (CutterAssembly.currentCut a') = Some c' /\
      Cut.rotation c' = -30).
Proof.
  split; [exact a_init_ok |]. split; [cbn; lia |].
  apply (rotate_stores_remainder a_init h_init 400 (-30) 0 a_init_ok).
  cbn. lia.
Defined.

(** C7 as stated fails for the live Cut at rotate(400) on a new session:
    the assembly's rotation becomes 40, the live Cut's rotation is 400, not
    400 mod 360. *)
Lemma rotate_live_cut_counterexample :
  exists a' h' c',
    CutterAssembly.rotate 400 a_init h_init = Ok (a', h') /\
    CutterAssembly.rotationAngle a' = 40 /\
    nth_error (Heap.cutObjs h') (CutterAssembly.currentCut a') = Some c' /\
    Cut.rotation c' = 400 /\
    Cut.rotation c' <> js_rem 400 360.
Proof.
  pose proof a_init_ok as Hok.
  pose proof Hok as (_ & _ & _ & c & Hlive & _).
  assert (E40 : js_rem 400 360 = 40)
    by (rewrite (js_rem_window 360 ltac:(lra) 400 1); lra).
  destruct (rotate_step a_init h_init c Hok Hlive 400)
    as (a' & h' & E & (_ & Hl & _ & _ & Hc) & Hrot & _).
  exists a', h', (Cut.set_rotation 400 c). rewrite Hc.
  split; [exact E |]. split; [rewrite Hrot; exact E40 |].
  split; [exact Hl |]. split; [reflexivity |].
  rewrite E40. cbn [Cut.rotation Cut.set_rotation]. lra.
Qed.

(** C10: a snapshot committed by [addCurrentCut] shares the live Cut's center
    vector when it is taken, and no later [moveTo], [rotate] or [setRadius]
    on the assembly changes the snapshot's fields or the coordinates of
    that vector: the edits replace the live Cut's fields and add vectors,
    they never write into an existing one. *)
Theorem snapshot_survives_edits (d : Drawing.t) (h : Heap.t) (es : list edit) :
  drawing_ok d h ->
  edits_valid (length (Heap.vectors h)) es = true ->
  exists c v d1 h1 d2 h2 live1,
    nth_error (Heap.cutObjs h) (Drawing.currentCut d) = Some c /\
    nth_error (Heap.vectors h) (Cut.center c) = Some v /\
    Drawing.addCurrentCut d h = Ok (d1, h1) /\
    Drawing.cuts d1 = Drawing.cuts d ++ [length (Heap.cutObjs h)] /\
    nth_error (Heap.cutObjs h1) (length (Heap.cutObjs h)) =
      Some (Cut.new (Cut.center c) (Cut.rotation c) (Cut.radius c)) /\
    nth_error (Heap.cutObjs h1) (Drawing.currentCut d1) = Some live1 /\
    Cut.center live1 = Cut.center c /\
    edit_drawing es d1 h1 = Ok (d2, h2) /\
    Drawing.cuts d2 = Drawing.cuts d1 /\
    nth_error (Heap.cutObjs h2) (length (Heap.cutObjs h)) =
      Some (Cut.new (Cut.center c) (Cut.rotation c) (Cut.radius c)) /\
    nth_error (Heap.vectors h2) (Cut.center c) = Some v.
Proof.
  intros Hok Hvalid.
  pose proof Hok as ((Hh & _ & _ & c & Hlive & _) & Hcc & _).
  rewrite Hcc in Hlive.
  pose proof (heap_ok_center _ _ _ Hh Hlive) as Hcenter.
  destruct (nth_error (Heap.vectors h) (Cut.center c)) as [v |] eqn:Ev;
    [| apply nth_error_None in Ev; lia].
  destruct (addCurrentCut_spec d h c Hok Hlive)
    as (h1 & E1 & (Hok1 & Hcc1 & _) & Hv1 & Hlen1 & Hl1 & Hs1 & _).
  rewrite <- Hv1 in Hvalid.
  destruct (run_edits_ok es _ _ Hok1 Hvalid) as (a2 & h2 & E2 & _ & Hf2 & _).
  cbn [Drawing.cutterAssembly Drawing.set_cuts] in E2, Hf2.
  rewrite Hcc in Hf2.
  pose proof (nth_error_in_range _ _ _ Hlive) as Hlt.
  exists c, v. eexists. exists h1. eexists. exists h2.
  exists (Cut.set_wasSaved false c).
  split; [exact Hlive |]. split; [exact Ev |]. split; [exact E1 |].
  split; [reflexivity |]. split; [exact Hs1 |]. split; [exact Hl1 |].
  split; [reflexivity |]. split.
  - unfold edit_drawing. cbn [Drawing.cutterAssembly Drawing.set_cuts].
    rewrite E2. reflexivity.
  - split; [reflexivity |]. split.
    + rewrite (frame_lookup _ _ _ _ Hf2) by lia. exact Hs1.
    + rewrite (frame_vector _ _ _ _ Hf2) by (rewrite Hv1; exact Hcenter).
      rewrite Hv1. exact Ev.
Qed.

Lemma snapshot_survives_edits_witness :
  drawing_ok d_init h_init /\
  edits_valid (length (Heap.vectors h_init))
    [NewVector 10 20; MoveTo 4; Rotate 45; SetRadius 60] = true /\
  exists d2 h2,
    edit_drawing [NewVector 10 20; MoveTo 4; Rotate 45; SetRadius 60] d_one h_one
      = Ok (d2, h2) /\
    Drawing.cuts d2 = [1%nat] /\
    nth_error (Heap.cutObjs h2) 1 = Some (Cut.new 1 0 0) /\
    nth_error (Heap.vectors h2) 1 = Some (Vector.mk 0 0).
Proof.
  split; [exact d_init_ok |]. split; [reflexivity |].
  destruct (snapshot_survives_edits d_init h_init
              [NewVector 10 20; MoveTo 4; Rotate 45; SetRadius 60]
              d_init_ok eq_refl)
    as (c & v & d1 & h1 & d2 & h2 & live1 & Hc & Hv & E1 & _ & _ & _ & _ & E2 & Hcuts & Hs & Hvec).
  rewrite first_commit in E1. injection E1 as <- <-.
  cbn in Hc. injection Hc as <-. cbn in Hv. injection Hv as <-.
  exists d2, h2. repeat split; assumption.
Defined.

(** Edits issued through the drawing keep it well formed. *)
Lemma edit_drawing_ok (es : list edit) (d : Drawing.t) (h : Heap.t) :
  drawing_ok d h ->
  edits_valid (length (Heap.vectors h)) es = true ->
  exists d' h',
    edit_drawing es d h = Ok (d', h') /\
    drawing_ok d' h' /\
    Drawing.cuts d' = Drawing.cuts d /\
    Drawing.currentCut d' = Drawing.currentCut d /\
    heap_frame (Drawing.currentCut d) h h'.
Proof.
  intros (Hok & Hcc & Hcuts) Hvalid.
  destruct (run_edits_ok es _ _ Hok Hvalid) as (a' & h' & E & Hok' & Hf & Hc).
  rewrite Hcc in Hf, Hc.
  exists (Drawing.set_cutterAssembly a' d), h'. unfold edit_drawing. rewrite E.
  split; [reflexivity |]. split; [| split; [reflexivity | split; [reflexivity | exact Hf]]].
  split; [exact Hok' | split; [exact Hc |]].
  cbn [Drawing.cuts Drawing.currentCut Drawing.set_cutterAssembly].
  destruct Hf as (_ & L & _). rewrite L. exact Hcuts.
Qed.

(** C6: commit, edit, commit again, then [selectCut(0)]: the history holds
    one entry, the second snapshot, and the live Cut has the center,
    rotation and radius it had at the first commit.  In general [selectCut]
    removes the chosen entry and appends a copy of the live Cut exactly when
    the live Cut's [wasSaved] flag is set, then gives the live Cut the
    chosen entry's center, rotation and radius and sets the flag. *)
Theorem commit_twice_select_first
    (d : Drawing.t) (h : Heap.t) (es : list edit)
    (d' : Drawing.t) (h' : Heap.t) (index : nat) (s : cref) (c snap : Cut.t) :
  drawing_ok d h ->
  Drawing.cuts d = [] ->
  edits_valid (length (Heap.vectors h)) es = true ->
  drawing_ok d' h' ->
  nth_error (Drawing.cuts d') index = Some s ->
  nth_error (Heap.cutObjs h') (Drawing.currentCut d') = Some c ->
  nth_error (Heap.cutObjs h') s = Some snap ->
  (exists c1 c2 d1 h1 d2 h2 d3 h3 d4 h4 s2 live4,
      nth_error (Heap.cutObjs h) (Drawing.currentCut d) = Some c1 /\
      Drawing.addCurrentCut d h = Ok (d1, h1) /\
      edit_drawing es d1 h1 = Ok (d2, h2) /\
      nth_error (Heap.cutObjs h2) (Drawing.currentCut d2) = Some c2 /\
      Drawing.addCurrentCut d2 h2 = Ok (d3, h3) /\
      Drawing.selectCut 0 d3 h3 = Ok (d4, h4) /\
      Drawing.cuts d4 = [s2] /\
      nth_error (Heap.cutObjs h4) s2 =
        Some (Cut.new (Cut.center c2) (Cut.rotation c2) (Cut.radius c2)) /\
      nth_error (Heap.cutObjs h4) (Drawing.currentCut d4) = Some live4 /\
      Cut.center live4 = Cut.center c1 /\
      Cut.rotation live4 = Cut.rotation c1 /\
      Cut.radius live4 = Cut.radius c1 /\
      nth_error (Heap.vectors h4) (Cut.center c1) =
        nth_error (Heap.vectors h) (Cut.center c1)) /\
  (exists d'' h'' live'',
      Drawing.selectCut index d' h' = Ok (d'', h'') /\
      Drawing.cuts d'' =
        splice1 index (Drawing.cuts d')
        ++ (if Cut.wasSaved c then [length (Heap.cutObjs h')] else []) /\
      (Cut.wasSaved c = true ->
       nth_error (Heap.cutObjs h'') (length (Heap.cutObjs h')) =
         Some (Cut.new (Cut.center c) (Cut.rotation c) (Cut.radius c))) /\
      nth_error (Heap.cutObjs h'') (Drawing.currentCut d'') = Some live'' /\
      Cut.center live'' = Cut.center snap /\
      Cut.rotation live'' = Cut.rotation snap /\
      Cut.radius live'' = Cut.radius snap /\
      Cut.wasSaved live'' = true).
Proof.
  intros Hok Hempty Hvalid Hok' Hidx Hlive' Hsnap'. split.
  - pose proof Hok as ((Hh & _ & _ & c1 & Hlive & _) & Hcc & _).
    rewrite Hcc in Hlive.
    pose proof (nth_error_in_range _ _ _ Hlive) as Hlt.
    pose proof (heap_ok_center _ _ _ Hh Hlive) as Hcenter.
    set (n := length (Heap.cutObjs h)) in *.
    (* first commit *)
    destruct (addCurrentCut_spec d h c1 Hok Hlive)
      as (h1 & E1 & Hok1 & Hv1 & Hlen1 & Hl1 & Hs1 & _).
    fold n in E1, Hok1, Hlen1, Hs1. rewrite Hempty in E1, Hok1. cbn [app] in E1, Hok1.
    set (d1 := Drawing.set_cuts [n] d) in *.
    (* edits *)
    rewrite <- Hv1 in Hvalid.
    destruct (edit_drawing_ok es d1 h1 Hok1 Hvalid)
      as (d2 & h2 & E2 & Hok2 & Hcuts2 & Hcur2 & Hf2).
    cbn [Drawing.currentCut Drawing.cuts Drawing.set_cuts d1] in Hcuts2, Hcur2, Hf2.
    pose proof Hok2 as ((_ & _ & _ & c2 & Hlive2 & _) & Hcc2 & _).
    rewrite Hcc2 in Hlive2.
    assert (Hs2 : nth_error (Heap.cutObjs h2) n = Some (Cut.clone c1)).
    { rewrite (frame_lookup _ _ _ _ Hf2) by lia. exact Hs1. }
    assert (Hlen2 : length (Heap.cutObjs h2) = S n).
    { destruct Hf2 as (_ & L & _). lia. }
    (* second commit *)
    destruct (addCurrentCut_spec d2 h2 c2 Hok2 Hlive2)
      as (h3 & E3 & Hok3 & Hv3 & Hlen3 & Hl3 & Hs3 & Hkeep3).
    rewrite Hcuts2, Hlen2 in E3, Hok3. rewrite Hlen2 in Hs3, Hlen3, Hkeep3.
    cbn [app] in E3, Hok3.
    set (d3 := Drawing.set_cuts [n; S n] d2) in *.
    assert (Hs3' : nth_error (Heap.cutObjs h3) n = Some (Cut.clone c1)).
    { rewrite Hkeep3 by lia. exact Hs2. }
    (* select the first *)
    destruct (selectCut_spec 0 d3 h3 n (Cut.set_wasSaved false c2) (Cut.clone c1)
                Hok3 eq_refl Hl3 Hs3')
      as (d4 & h4 & E4 & _ & Hcur4 & Hcuts4 & _ & Hl4 & Hv4 & Hkeep4).
    cbn [Drawing.currentCut Drawing.cuts Drawing.set_cuts d3 Cut.wasSaved
         Cut.set_wasSaved splice1 firstn skipn app] in Hcur4, Hcuts4, Hl4, Hkeep4.
    exists c1, c2, d1, h1, d2, h2, d3, h3, d4, h4, (S n).
    eexists.
    split; [exact Hlive |]. split; [exact E1 |]. split; [exact E2 |].
    split; [exact Hlive2 |]. split; [exact E3 |]. split; [exact E4 |].
    split; [exact Hcuts4 |]. split.
    { rewrite Hkeep4 by lia. exact Hs3. }
    split; [rewrite Hcur4; exact Hl4 |].
    cbn [Cut.center Cut.rotation Cut.radius Cut.clone Cut.new].
    repeat (split; [reflexivity |]).
    rewrite Hv4, Hv3. rewrite (frame_vector _ _ _ _ Hf2) by (rewrite Hv1; exact Hcenter).
    rewrite Hv1. reflexivity.
  - destruct (selectCut_spec index d' h' s c snap Hok' Hidx Hlive' Hsnap')
      as (d'' & h'' & E & _ & Hcur & Hcuts & Hpush & Hl & _).
    exists d'', h''. eexists.
    split; [exact E |]. split; [exact Hcuts |]. split; [exact Hpush |].
    split; [rewrite Hcur; exact Hl |]. repeat split.
Qed.

Lemma commit_twice_select_first_witness :
  drawing_ok d_init h_init /\
  Drawing.cuts d_init = [] /\
  edits_valid (length (Heap.vectors h_init))
    [NewVector 10 20; MoveTo 4; Rotate 45; SetRadius 60] = true /\
  drawing_ok d_one h_one /\
  (exists d2 h2 c2 d3 h3 d4 h4 s2 live4,
      edit_drawing [NewVector 10 20; MoveTo 4; Rotate 45; SetRadius 60] d_one h_one
        = Ok (d2, h2) /\
      nth_error (Heap.cutObjs h2) (Drawing.currentCut d2) = Some c2 /\
      Drawing.addCurrentCut d2 h2 = Ok (d3, h3) /\
      Drawing.selectCut 0 d3 h3 = Ok (d4, h4) /\
      Drawing.cuts d4 = [s2] /\
      nth_error (Heap.cutObjs h4) s2 =
        Some (Cut.new (Cut.center c2) (Cut.rotation c2) (Cut.radius c2)) /\
      nth_error (Heap.cutObjs h4) (Drawing.currentCut d4) = Some live4 /\
      Cut.center live4 = 1%nat /\ Cut.rotation live4 = 0 /\ Cut.radius live4 = 0) /\
  (exists d'' h'',
      Drawing.selectCut 0 d_one h_one = Ok (d'', h'') /\ Drawing.cuts d'' = []).
Proof.
  split; [exact d_init_ok |]. split; [reflexivity |]. split; [reflexivity |].
  split; [exact d_one_ok |].
  destruct (commit_twice_select_first d_init h_init
              [NewVector 10 20; MoveTo 4; Rotate 45; SetRadius 60]
              d_one h_one 0 1 (Cut.mk 1 0 0 true false) (Cut.mk 1 0 0 false false)
              d_init_ok eq_refl eq_refl d_one_ok eq_refl eq_refl eq_refl)
    as ((c1 & c2 & d1 & h1 & d2 & h2 & d3 & h3 & d4 & h4 & s2 & live4 &
         Hc1 & E1 & E2 & Hc2 & E3 & E4 & Hcuts & Hs2 & Hl4 & F1 & F2 & F3 & _) &
        (d'' & h'' & live'' & E & Hcuts' & _)).
  rewrite first_commit in E1. injection E1 as <- <-.
  cbn in Hc1. injection Hc1 as <-. cbn in F1, F2, F3.
  split.
  - exists d2, h2, c2, d3, h3, d4, h4, s2, live4. repeat split; assumption.
  - exists d'', h''. split; [exact E | exact Hcuts'].
Defined.

(** ** Degenerate geometry *)











(** ** The entry point in the specification's scenario

    Workpiece 80 by 300, cutter radius 90, cutter at the default position
    (150, 20): the kerf-offset circle of radius 95 meets the far edge
    x = 80 at the heights 20 + sqrt 4125 and 20 - sqrt 4125. *)

Lemma sqrt_4125_bounds : 0 < sqrt 4125 < 130.
Proof.
  split.
  - apply sqrt_lt_R0. lra.
  - rewrite <- (sqrt_square 130) by lra. apply sqrt_lt_1; lra.
Qed.

Lemma scenario_candidates (a : CutterAssembly.t) :
  CutterAssembly.cutterRadius a = 180 / 2 ->
  Arc.inherentRotation (CutterAssembly.cutterArc a) = 90 ->
  Arc.arcAngle (CutterAssembly.cutterArc a) = cutterArcDegrees ->
  entryPointCandidates a DEFAULT_CUTTER_POSITION (Vector.mk 80 300) =
  Ok (getIntersectingArcs (Vector.mk 80 (20 + sqrt 4125)) (Vector.mk 80 (20 - sqrt 4125))
        DEFAULT_CUTTER_POSITION
        (90 + CutterAssembly.rotationAngle a)
        (90 + CutterAssembly.rotationAngle a + 90)).
Proof.
  intros Hr Hi Ha. unfold entryPointCandidates. cbv zeta.
  rewrite Hr, Hi, Ha. unfold cutterArcDegrees, cutterKerf, DEFAULT_CUTTER_POSITION.
  rewrite intersectionLineArcVertical_nonneg by (cbn; lra).
  cbn [Vector.x Vector.y].
  replace ((180 / 2 + 10 / 2) * (180 / 2 + 10 / 2) - (80 - 150) * (80 - 150))
    with 4125 by lra.
  reflexivity.
Qed.

Lemma scenario_upper_angle :
  90 < Vector.arg (Vector.subtract (Vector.mk 80 (20 + sqrt 4125))
                     DEFAULT_CUTTER_POSITION) < 180.
Proof.
  pose proof sqrt_4125_bounds. apply arg_quadrant2; cbn; lra.
Qed.

Lemma scenario_lower_angle :
  -180 < Vector.arg (Vector.subtract (Vector.mk 80 (20 - sqrt 4125))
                       DEFAULT_CUTTER_POSITION) < -90.
Proof.
  pose proof sqrt_4125_bounds. apply arg_quadrant3; cbn; lra.
Qed.

(** With the rotation at 0 the cutter arc spans 90 to 180: the upper
    candidate is on it, the lower is not. *)
Lemma scenario_unrotated :
  getIntersectingArcs (Vector.mk 80 (20 + sqrt 4125)) (Vector.mk 80 (20 - sqrt 4125))
    DEFAULT_CUTTER_POSITION (90 + 0) (90 + 0 + 90)
  = [Vector.mk 80 (20 + sqrt 4125)].
Proof.
  rewrite getIntersectingArcs_eq. unfold isWithinArc.
  pose proof scenario_upper_angle as Hu. pose proof scenario_lower_angle as Hl.
  set (u := Vector.arg _) in Hu |- *. set (l := Vector.arg _) in Hl |- *.
  assert (Eu : isAngleBetween u (90 + 0) (90 + 0 + 90) = true).
  { apply (proj1 (isAngleBetween_cases u (90 + 0) (90 + 0 + 90))); cbv zeta;
      rewrite !normalizeAngle_fixed by lra; lra. }
  assert (El : isAngleBetween l (90 + 0) (90 + 0 + 90) = false).
  { apply not_true_is_false. intros H.
    apply (proj1 (isAngleBetween_cases l (90 + 0) (90 + 0 + 90))) in H; cbv zeta in *.
    - rewrite (normalizeAngle_window l 0) in H by lra.
      rewrite !normalizeAngle_fixed in H by lra. lra.
    - rewrite !normalizeAngle_fixed by lra. lra. }
  rewrite Eu, El. reflexivity.
Qed.

(** With the rotation at 180 the arc spans 270 to 360, which normalise to
    270 and 0: neither candidate is on it. *)
Lemma scenario_rotated :
  getIntersectingArcs (Vector.mk 80 (20 + sqrt 4125)) (Vector.mk 80 (20 - sqrt 4125))
    DEFAULT_CUTTER_POSITION (90 + 180) (90 + 180 + 90)
  = [].
Proof.
  rewrite getIntersectingArcs_eq. unfold isWithinArc.
  pose proof scenario_upper_angle as Hu. pose proof scenario_lower_angle as Hl.
  set (u := Vector.arg _) in Hu |- *. set (l := Vector.arg _) in Hl |- *.
  assert (Es : normalizeAngle (90 + 180) = 270)
    by (rewrite normalizeAngle_fixed by lra; lra).
  assert (Ee : normalizeAngle (90 + 180 + 90) = 0).
  { rewrite (normalizeAngle_window _ 2); lra. }
  assert (Eu : isAngleBetween u (90 + 180) (90 + 180 + 90) = false).
  { apply not_true_is_false. intros H.
    apply (proj2 (isAngleBetween_cases u (90 + 180) (90 + 180 + 90))) in H; cbv zeta in *.
    - rewrite Es, Ee, normalizeAngle_fixed in H by lra. lra.
    - rewrite Es, Ee. lra. }
  assert (El : isAngleBetween l (90 + 180) (90 + 180 + 90) = false).
  { apply not_true_is_false. intros H.
    apply (proj2 (isAngleBetween_cases l (90 + 180) (90 + 180 + 90))) in H; cbv zeta in *.
    - rewrite Es, Ee, (normalizeAngle_window l 0) in H by lra. lra.
    - rewrite Es, Ee. lra. }
  rewrite Eu, El. reflexivity.
Qed.

Lemma js_rem_180 : js_rem 180 360 = 180.
Proof. rewrite (js_rem_window 360 ltac:(lra) 180 0); lra. Qed.

(** What [moveTo] leaves in the entry-point dimension: it is visible exactly
    when the arc and the far edge meet in one point whose distance below
    the workpiece's half height lies strictly between 0 and that half
    height, and then it shows that point and that distance. *)
Lemma moveTo_entry_point (a : CutterAssembly.t) (h : Heap.t) (pos : vref) :
  assembly_ok a h ->
  (pos < length (Heap.vectors h))%nat ->
  exists a' h' p wd l,
    CutterAssembly.moveTo pos a h = Ok (a', h') /\
    Heap.getVector (CutterAssembly.center a') h' = Ok p /\
    Heap.getVector (CutterAssembly.workpieceDim a') h' = Ok wd /\
    entryPointCandidates a' p wd = Ok l /\
    (Dimension.visible (CutterAssembly.entryPointDim a') = true <->
     exists q, l = [q] /\ 0 < Vector.y wd / 2 - Vector.y q < Vector.y wd / 2) /\
    (forall q, l = [q] ->
       0 < Vector.y wd / 2 - Vector.y q < Vector.y wd / 2 ->
       Dimension.start (CutterAssembly.entryPointDim a') = q /\
       Dimension.dir (CutterAssembly.entryPointDim a') =
         Vector.mk 0 (Vector.y wd / 2 - Vector.y q)).
Proof.
  intros Hok Hpos.
  pose proof Hok as (_ & _ & Hw & c & Hlive & Hs).
  destruct (getVector_in_range _ _ Hpos) as [p Hp].
  destruct (getVector_in_range _ _ Hw) as [wd Hwd].
  destruct (moveTo_spec a h c Hlive Hs pos p wd Hp Hwd)
    as (a' & l & E & Fc & _ & _ & _ & Fwd & _ & _ & El & Hvis & Hmeas).
  exists a'. eexists. exists p, wd, l.
  split; [exact E |]. rewrite Fc, Fwd.
  split; [exact Hp |]. split; [exact Hwd |]. split; [exact El |].
  split; assumption.
Qed.

(** C5 (the update is missing after a rotation): in the specification's
    scenario, [updateShapes] places the cutter and the entry point is shown,
    at (80, 20 + sqrt 4125).  [rotate(180)] then turns the arc away from the
    far edge: the intersection the claim describes is empty, and running
    [updateEntryPointDim] would hide the dimension, but [rotate] does not run
    it and the dimension stays visible. *)
Theorem entry_point_stale_after_rotate :
  exists d1 h1 a2 h2 a3,
    Drawing.updateShapes 300 80 180 d_init h_init = Ok (d1, h1) /\
    Heap.getVector (CutterAssembly.center (Drawing.cutterAssembly d1)) h1
      = Ok DEFAULT_CUTTER_POSITION /\
    Heap.getVector (CutterAssembly.workpieceDim (Drawing.cutterAssembly d1)) h1
      = Ok (Vector.mk 80 300) /\
    entryPointCandidates (Drawing.cutterAssembly d1) DEFAULT_CUTTER_POSITION
      (Vector.mk 80 300) = Ok [Vector.mk 80 (20 + sqrt 4125)] /\
    Dimension.visible (CutterAssembly.entryPointDim (Drawing.cutterAssembly d1)) = true /\
    CutterAssembly.rotate 180 (Drawing.cutterAssembly d1) h1 = Ok (a2, h2) /\
    CutterAssembly.rotationAngle a2 = 180 /\
    Heap.getVector (CutterAssembly.center a2) h2 = Ok DEFAULT_CUTTER_POSITION /\
    Heap.getVector (CutterAssembly.workpieceDim a2) h2 = Ok (Vector.mk 80 300) /\
    entryPointCandidates a2 DEFAULT_CUTTER_POSITION (Vector.mk 80 300) = Ok [] /\
    Dimension.visible (CutterAssembly.entryPointDim a2) = true /\
    CutterAssembly.updateEntryPointDim a2 h2 = Ok a3 /\
    Dimension.visible (CutterAssembly.entryPointDim a3) = false.
Proof.
  (* updateShapes up to moveTo *)
  set (c0 := Cut.mk 1 0 0 true false).
  set (hA := snd (Heap.newVector (Vector.mk 80 300) h_init)).
  set (aA := CutterAssembly.setWorkpieceDim 4 a_init).
  assert (ER := setRadius_spec aA hA c0 eq_refl eq_refl (180 / 2)).
  specialize (ER ltac:(cbn; lia)). cbv beta in ER.
  set (aB := CutterAssembly.set_cutterArc _ _) in ER.
  set (hB := Heap.mk _ _) in ER.
  destruct (moveTo_spec aB hB (Cut.set_radius (180 / 2) c0) eq_refl eq_refl
              DEFAULT_CUTTER_POSITION_ref DEFAULT_CUTTER_POSITION (Vector.mk 80 300)
              eq_refl eq_refl)
    as (a' & l & EM & Fc & Frot & Frad & Fcut & Fwd & Farc & Ftail & El & Hvis & _).
  cbv beta in EM. set (hC := Heap.mk _ _) in EM.
  cbn [CutterAssembly.rotationAngle CutterAssembly.cutterRadius
       CutterAssembly.currentCut CutterAssembly.workpieceDim
       CutterAssembly.set_cutterArc CutterAssembly.set_cutterRadius
       CutterAssembly.setWorkpieceDim CutterAssembly.set_workpieceDim
       aA aB a_init] in Frot, Frad, Fcut, Fwd.
  (* the entry point after moveTo *)
  assert (Ecand : entryPointCandidates a' DEFAULT_CUTTER_POSITION (Vector.mk 80 300)
                  = Ok [Vector.mk 80 (20 + sqrt 4125)]).
  { rewrite (scenario_candidates a' Frad); [| rewrite Farc; reflexivity ..].
    rewrite Frot, scenario_unrotated. reflexivity. }
  assert (Hshown : Dimension.visible (CutterAssembly.entryPointDim a') = true).
  { apply Hvis. rewrite Ecand in El. injection El as <-.
    eexists. split; [reflexivity |]. pose proof sqrt_4125_bounds. cbn. lra. }
  (* the rest of updateShapes *)
  set (cD := Cut.mk 0 0 (180 / 2) true false).
  set (hD := Heap.mk (Heap.vectors hC) [cD]).
  assert (EU : Drawing.updateShapes 300 80 180 d_init h_init
               = Ok (Drawing.set_cutterAssembly a' d_init, hD)).
  { unfold Drawing.updateShapes.
    rewrite (proj2 (Rleb_false 300 0)), (proj2 (Rleb_false 80 0)),
      (proj2 (Rleb_false 180 0)) by lra.
    cbn [orb]. change (Heap.newVector (Vector.mk 80 300) h_init) with (4%nat, hA).
    cbv iota beta zeta. change (CutterAssembly.setWorkpieceDim 4
                                  (Drawing.cutterAssembly d_init)) with aA.
    rewrite ER. cbn [bind]. rewrite EM. cbn [bind]. reflexivity. }
  (* rotate(180) *)
  assert (Hlive : nth_error (Heap.cutObjs hD) (CutterAssembly.currentCut a') = Some cD)
    by (rewrite Fcut; reflexivity).
  assert (Hcenter : Heap.getVector (CutterAssembly.center a') hD
                    = Ok DEFAULT_CUTTER_POSITION) by (rewrite Fc; reflexivity).
  assert (Hwd : Heap.getVector (CutterAssembly.workpieceDim a') hD
                = Ok (Vector.mk 80 300)) by (rewrite Fwd; reflexivity).
  destruct (rotate_spec a' hD cD Hlive eq_refl 180 _ Hcenter ltac:(cbn; lia))
    as [b ERot].
  cbv beta in ERot. set (a2 := CutterAssembly.set_hasIntersections b _) in ERot.
  set (h2 := Heap.mk _ _) in ERot.
  assert (Ecand2 : entryPointCandidates a2 DEFAULT_CUTTER_POSITION (Vector.mk 80 300)
                   = Ok []).
  { rewrite (scenario_candidates a2 Frad); [| cbn; rewrite Farc; reflexivity ..].
    cbn [CutterAssembly.rotationAngle CutterAssembly.set_hasIntersections
         CutterAssembly.set_rotationAngle a2].
    rewrite js_rem_180, scenario_rotated. reflexivity. }
  destruct (updateEntryPointDim_spec a2 h2 DEFAULT_CUTTER_POSITION (Vector.mk 80 300)
              Hcenter Hwd) as (l2 & d2 & El2 & EUp & Hvis2 & _).
  exists (Drawing.set_cutterAssembly a' d_init), hD, a2, h2.
  eexists. cbn [Drawing.cutterAssembly Drawing.set_cutterAssembly].
  split; [exact EU |]. split; [exact Hcenter |]. split; [exact Hwd |].
  split; [exact Ecand |]. split; [exact Hshown |]. split; [exact ERot |].
  split; [exact js_rem_180 |]. split; [exact Hcenter |]. split; [exact Hwd |].
  split; [exact Ecand2 |]. split; [exact Hshown |]. split; [exact EUp |].
  cbn [CutterAssembly.entryPointDim CutterAssembly.set_entryPointDim].
  apply not_true_is_false. intros Htrue. apply Hvis2 in Htrue.
  destruct Htrue as (q & -> & _). rewrite Ecand2 in El2. discriminate.
Qed.

(** * Further properties of the code *)

(** ** Angle conversion *)

Lemma PI_neq_0 : PI <> 0.
Proof. pose proof PI_RGT_0. lra. Qed.

(** X1: converting degrees to radians and back, or radians to degrees and
    back, returns the angle; half a turn is PI radians; and
    [angleFromArcLength] is the arc's length over its radius, in degrees. *)
Theorem degrees_radians_round_trip (a radius length : R) :
  radiansToDegrees (degreesToRadians a) = a /\
  degreesToRadians (radiansToDegrees a) = a /\
  degreesToRadians 180 = PI /\
  angleFromArcLength radius length = radiansToDegrees (length / radius).
Proof.
  pose proof PI_neq_0 as HP.
  unfold radiansToDegrees, degreesToRadians, angleFromArcLength.
  split; [field; exact HP |]. split; [field; exact HP |].
  split; [field |]. unfold Rdiv. ring.
Qed.

(** ** Vector arithmetic *)

Lemma vector_eq (v w : Vector.t) :
  Vector.x v = Vector.x w -> Vector.y v = Vector.y w -> v = w.
Proof. destruct v, w. cbn. intros -> ->. reflexivity. Qed.

Lemma cos2_sin2_one (t : R) : cos t * cos t + sin t * sin t = 1.
Proof. pose proof (sin2_cos2 t) as H. unfold Rsqr in H. lra. Qed.

Lemma rotate_add (v : Vector.t) (a b : R) :
  Vector.rotate (Vector.rotate v a) b = Vector.rotate v (a + b).
Proof.
  unfold Vector.rotate. cbv zeta. cbn [Vector.x Vector.y].
  replace ((a + b) * PI / 180) with (a * PI / 180 + b * PI / 180) by field.
  rewrite cos_plus, sin_plus. apply vector_eq; cbn; ring.
Qed.

Lemma rotate_0 (v : Vector.t) : Vector.rotate v 0 = v.
Proof.
  unfold Vector.rotate. cbv zeta.
  replace (0 * PI / 180) with 0 by field. rewrite cos_0, sin_0.
  apply vector_eq; cbn; ring.
Qed.

Lemma rotate_magnitude (v : Vector.t) (a : R) :
  Vector.magnitude (Vector.rotate v a) = Vector.magnitude v.
Proof.
  unfold Vector.magnitude, Vector.rotate. cbv zeta. cbn [Vector.x Vector.y].
  f_equal. set (t := a * PI / 180). pose proof (cos2_sin2_one t) as H.
  replace ((Vector.x v * cos t - Vector.y v * sin t) ^ 2
           + (Vector.x v * sin t + Vector.y v * cos t) ^ 2)
    with ((Vector.x v ^ 2 + Vector.y v ^ 2) * (cos t * cos t + sin t * sin t))
    by ring.
  rewrite H. ring.
Qed.

(** X2: [rotate] turns a vector without changing its length; turning by
    [a] and then by [b] is turning by [a + b]; turning by 0 changes nothing
    and turning back by the opposite angle undoes a turn. *)
Theorem rotate_isometry_and_composition (v : Vector.t) (a b : R) :
  Vector.magnitude (Vector.rotate v a) = Vector.magnitude v /\
  Vector.rotate (Vector.rotate v a) b = Vector.rotate v (a + b) /\
  Vector.rotate v 0 = v /\
  Vector.rotate (Vector.rotate v a) (- a) = v.
Proof.
  split; [apply rotate_magnitude |]. split; [apply rotate_add |].
  split; [apply rotate_0 |].
  rewrite rotate_add. replace (a + - a) with 0 by ring. apply rotate_0.
Qed.

Lemma fromPolar_as_rotate (r theta : R) :
  Vector.fromPolar r theta = Vector.rotate (Vector.mk r 0) theta.
Proof.
  unfold Vector.fromPolar, Vector.rotate, degreesToRadians. cbv zeta.
  apply vector_eq; cbn; ring.
Qed.

Lemma magnitude_axis (r : R) : Vector.magnitude (Vector.mk r 0) = Rabs r.
Proof.
  unfold Vector.magnitude. cbn [Vector.x Vector.y].
  replace (r ^ 2 + 0 ^ 2) with (Rsqr r) by (unfold Rsqr; ring).
  apply sqrt_Rsqr_abs.
Qed.

Lemma fromPolar_magnitude (r theta : R) :
  Vector.magnitude (Vector.fromPolar r theta) = Rabs r.
Proof.
  rewrite fromPolar_as_rotate, rotate_magnitude. apply magnitude_axis.
Qed.

Lemma rotate_fromPolar (r a b : R) :
  Vector.rotate (Vector.fromPolar r a) b = Vector.fromPolar r (a + b).
Proof. rewrite !fromPolar_as_rotate. apply rotate_add. Qed.

(** X3: a point built by [fromPolar] or by [polarToCartesian] lies at
    distance |radius| from the origin; turning a [fromPolar] point adds to
    its angle; and [polarToCartesian] measures its angle from the negative
    y axis: 0 degrees is (0, -radius) and 90 degrees is (radius, 0). *)
Theorem polar_points (r a b : R) :
  Vector.magnitude (Vector.fromPolar r a) = Rabs r /\
  Vector.magnitude (polarToCartesian r a) = Rabs r /\
  Vector.rotate (Vector.fromPolar r a) b = Vector.fromPolar r (a + b) /\
  polarToCartesian r 0 = Vector.mk 0 (- r) /\
  polarToCartesian r 90 = Vector.mk r 0.
Proof.
  assert (E : forall t, polarToCartesian r t = Vector.fromPolar r (t - 90)).
  { intros t. unfold polarToCartesian, Vector.fromPolar, degreesToRadians. cbv zeta.
    replace ((t - 90) * (PI / 180)) with ((t - 90) * PI / 180) by field.
    reflexivity. }
  split; [apply fromPolar_magnitude |].
  split; [rewrite E; apply fromPolar_magnitude |].
  split; [apply rotate_fromPolar |]. split.
  - unfold polarToCartesian. cbv zeta.
    replace ((0 - 90) * (PI / 180)) with (- (PI / 2)) by field.
    rewrite cos_neg, sin_neg, cos_PI2, sin_PI2. apply vector_eq; cbn; ring.
  - unfold polarToCartesian. cbv zeta.
    replace ((90 - 90) * (PI / 180)) with 0 by field.
    rewrite cos_0, sin_0. apply vector_eq; cbn; ring.
Qed.

(** ** The argument of a vector *)

Lemma atan2_range (y x : R) : - PI < Math_atan2 y x <= PI.
Proof.
  pose proof PI_RGT_0 as HP. unfold Math_atan2.
  destruct (Rlt_dec 0 x) as [Hx | Hx].
  - pose proof (atan_bound (y / x)). lra.
  - destruct (Rlt_dec x 0) as [Hx' | Hx'].
    + destruct (Rle_dec 0 y) as [Hy | Hy].
      * destruct (Req_dec y 0) as [-> | Hy0].
        -- unfold Rdiv. rewrite Rmult_0_l, atan_0. lra.
        -- assert (Hq : y / x < 0).
           { unfold Rdiv. apply Rmult_pos_neg; [lra |]. apply Rinv_lt_0_compat, Hx'. }
           pose proof (atan_neg _ Hq). lra.
      * assert (Hq : 0 < y / x).
        { unfold Rdiv. apply Rmult_neg_neg; [lra |]. apply Rinv_lt_0_compat, Hx'. }
        pose proof (atan_pos _ Hq). lra.
    + destruct (Rlt_dec 0 y); [lra |]. destruct (Rlt_dec y 0); lra.
Qed.

Lemma arg_range (v : Vector.t) : -180 < Vector.arg v <= 180.
Proof.
  pose proof PI_RGT_0 as HP. pose proof (atan2_range (Vector.y v) (Vector.x v)) as [H1 H2].
  unfold Vector.arg.
  assert (Hk : 0 < 180 / PI) by (apply Rdiv_lt_0_compat; lra).
  assert (E : PI * (180 / PI) = 180) by (field; lra).
  split.
  - apply Rle_lt_trans with (- PI * (180 / PI)); [lra |].
    apply Rmult_lt_compat_r; lra.
  - apply Rle_trans with (PI * (180 / PI)); [| lra].
    apply Rmult_le_compat_r; lra.
Qed.

(** X4: the argument of any vector lies in (-180, 180], so
    [normalizeAngle] brings it into [0, 360): the angle the arc filter
    computes for a candidate point is always normalised as intended, and
    [rotate] called with an argument stores it unreduced. *)
Theorem arg_is_normalised (v : Vector.t) :
  -180 < Vector.arg v <= 180 /\
  0 <= normalizeAngle (Vector.arg v) < 360 /\
  (0 <= Vector.arg v -> normalizeAngle (Vector.arg v) = Vector.arg v) /\
  (Vector.arg v < 0 -> normalizeAngle (Vector.arg v) = Vector.arg v + 360) /\
  js_rem (Vector.arg v) 360 = Vector.arg v.
Proof.
  pose proof (arg_range v) as Hr.
  split; [exact Hr |]. split; [apply normalizeAngle_range; lra |].
  split; [intros H; apply normalizeAngle_fixed; lra |]. split.
  - intros H. rewrite (normalizeAngle_window _ 0); lra.
  - destruct (Rle_dec 0 (Vector.arg v)) as [H | H].
    + rewrite (js_rem_window 360 ltac:(lra) _ 0); lra.
    + rewrite (js_rem_window_neg 360 ltac:(lra) _ 0); lra.
Qed.

Lemma arg_radians (v : Vector.t) :
  degreesToRadians (Vector.arg v) = Math_atan2 (Vector.y v) (Vector.x v).
Proof.
  unfold degreesToRadians, Vector.arg. field. apply PI_neq_0.
Qed.

Lemma sqrt_1_sqr_pos (t : R) : 0 < sqrt (1 + t * t).
Proof. apply sqrt_lt_R0. nra. Qed.

Lemma hypot_factor (x y : R) :
  x <> 0 -> sqrt (x ^ 2 + y ^ 2) = Rabs x * sqrt (1 + (y / x) * (y / x)).
Proof.
  intros Hx.
  replace (x ^ 2 + y ^ 2) with (Rsqr x * (1 + (y / x) * (y / x)))
    by (unfold Rsqr; field; exact Hx).
  rewrite sqrt_mult; [| apply Rle_0_sqr | nra].
  rewrite sqrt_Rsqr_abs. reflexivity.
Qed.

(** The polar form of a vector is the vector. *)
Lemma polar_of_cartesian (v : Vector.t) :
  Vector.fromPolar (Vector.magnitude v) (Vector.arg v) = v.
Proof.
  unfold Vector.fromPolar. cbv zeta. rewrite arg_radians.
  unfold Vector.magnitude, Math_atan2.
  destruct v as [x y]. cbn [Vector.x Vector.y].
  destruct (Rlt_dec 0 x) as [Hx | Hx].
  - rewrite hypot_factor by lra. rewrite Rabs_pos_eq by lra.
    rewrite cos_atan, sin_atan. unfold Rsqr.
    pose proof (sqrt_1_sqr_pos (y / x)) as Hs.
    apply vector_eq; cbn; field; lra.
  - destruct (Rlt_dec x 0) as [Hx' | Hx'].
    + rewrite hypot_factor by lra. rewrite Rabs_left by lra.
      pose proof (sqrt_1_sqr_pos (y / x)) as Hs.
      destruct (Rle_dec 0 y) as [Hy | Hy].
      * rewrite neg_cos, neg_sin, cos_atan, sin_atan. unfold Rsqr.
        apply vector_eq; cbn; field; lra.
      * unfold Rminus. rewrite cos_plus, sin_plus, cos_neg, sin_neg, cos_PI, sin_PI.
        rewrite cos_atan, sin_atan. unfold Rsqr.
        apply vector_eq; cbn; field; lra.
    + assert (x = 0) by lra. subst x.
      replace (0 ^ 2 + y ^ 2) with (Rsqr y) by (unfold Rsqr; ring).
      rewrite sqrt_Rsqr_abs.
      destruct (Rlt_dec 0 y) as [Hy | Hy].
      * rewrite cos_PI2, sin_PI2, Rabs_pos_eq by lra. apply vector_eq; cbn; ring.
      * destruct (Rlt_dec y 0) as [Hy' | Hy'].
        -- rewrite cos_neg, sin_neg, cos_PI2, sin_PI2, Rabs_left by lra.
           apply vector_eq; cbn; ring.
        -- assert (y = 0) by lra. subst y. rewrite Rabs_R0.
           apply vector_eq; cbn; ring.
Qed.

(** X5: a vector is recovered from its length and argument: [fromPolar]
    undoes [magnitude] and [arg], for every vector, the zero vector
    included.  So the line a [Dimension] draws - of length [magnitude dir],
    turned by [arg dir] and moved to [start] - ends at [start + dir]. *)
Theorem magnitude_arg_round_trip (start dir : Vector.t) :
  Vector.fromPolar (Vector.magnitude dir) (Vector.arg dir) = dir /\
  Vector.add start
    (Vector.rotate (Vector.mk (Vector.magnitude dir) 0) (Vector.arg dir))
  = Vector.add start dir.
Proof.
  split; [apply polar_of_cartesian |].
  rewrite <- fromPolar_as_rotate, polar_of_cartesian. reflexivity.
Qed.

Lemma cos_pos_quadrants (t : R) :
  - PI < t <= PI -> 0 < cos t -> - (PI / 2) < t < PI / 2.
Proof.
  intros [H1 H2] Hc. pose proof PI_RGT_0 as HP. split.
  - destruct (Rlt_dec (- (PI / 2)) t) as [H | H]; [exact H |].
    pose proof (cos_le_0 (- t) ltac:(lra) ltac:(lra)) as Hn.
    rewrite cos_neg in Hn. lra.
  - destruct (Rlt_dec t (PI / 2)) as [H | H]; [exact H |].
    pose proof (cos_le_0 t ltac:(lra) ltac:(lra)). lra.
Qed.

Lemma cos_neg_quadrants (t : R) :
  - PI < t <= PI -> cos t < 0 -> t < - (PI / 2) \/ PI / 2 < t.
Proof.
  intros [H1 H2] Hc.
  destruct (Rlt_dec t (- (PI / 2))) as [H | H]; [left; exact H |].
  destruct (Rlt_dec (PI / 2) t) as [H' | H']; [right; exact H' |].
  pose proof (cos_ge_0 t ltac:(lra) ltac:(lra)). lra.
Qed.

Lemma cos_zero_quadrants (t : R) :
  - PI < t <= PI -> cos t = 0 -> t = - (PI / 2) \/ t = PI / 2.
Proof.
  intros [H1 H2] Hc. pose proof PI_RGT_0 as HP.
  destruct (Rtotal_order t (- (PI / 2))) as [H | [H | H]]; [| left; exact H |].
  - pose proof (cos_lt_0 (- t) ltac:(lra) ltac:(lra)) as Hn.
    rewrite cos_neg in Hn. lra.
  - destruct (Rtotal_order t (PI / 2)) as [H' | [H' | H']]; [| right; exact H' |].
    + pose proof (cos_gt_0 t H H'). lra.
    + pose proof (cos_lt_0 t H' ltac:(lra)). lra.
Qed.

Lemma atan2_of_polar (r t : R) :
  0 < r -> - PI < t <= PI -> Math_atan2 (r * sin t) (r * cos t) = t.
Proof.
  intros Hr Ht. pose proof PI_RGT_0 as HP. unfold Math_atan2.
  destruct (Rtotal_order (cos t) 0) as [Hc | [Hc | Hc]].
  - (* left half plane *)
    assert (Hx : r * cos t < 0) by nra.
    destruct (Rlt_dec 0 (r * cos t)); [lra |].
    destruct (Rlt_dec (r * cos t) 0); [| lra].
    assert (Etan : r * sin t / (r * cos t) = tan t) by (unfold tan; field; lra).
    rewrite Etan.
    destruct (cos_neg_quadrants t Ht Hc) as [Hq | Hq].
    + pose proof (sin_lt_0_var t ltac:(lra) ltac:(lra)) as Hs.
      destruct (Rle_dec 0 (r * sin t)); [nra |].
      assert (E : tan t = tan (t + PI)).
      { unfold tan. rewrite neg_sin, neg_cos. field. lra. }
      rewrite E, atan_tan by lra. ring.
    + pose proof (sin_ge_0 t ltac:(lra) ltac:(lra)) as Hs.
      destruct (Rle_dec 0 (r * sin t)); [| nra].
      assert (E : tan t = tan (t - PI)).
      { unfold tan. rewrite sin_minus, cos_minus, cos_PI, sin_PI. field. lra. }
      rewrite E, atan_tan by lra. ring.
  - (* the y axis *)
    rewrite Hc, Rmult_0_r.
    destruct (Rlt_dec 0 0); [lra |].
    destruct (cos_zero_quadrants t Ht Hc) as [-> | ->].
    + rewrite sin_neg, sin_PI2.
      repeat match goal with
             | |- context [Rlt_dec ?a ?b] => destruct (Rlt_dec a b); try lra
             end.
    + rewrite sin_PI2.
      repeat match goal with
             | |- context [Rlt_dec ?a ?b] => destruct (Rlt_dec a b); try lra
             end.
  - (* right half plane *)
    assert (Hx : 0 < r * cos t) by nra.
    destruct (Rlt_dec 0 (r * cos t)); [| lra].
    assert (Etan : r * sin t / (r * cos t) = tan t) by (unfold tan; field; lra).
    rewrite Etan. apply atan_tan. apply cos_pos_quadrants; lra.
Qed.

(** X6: for a positive radius and an angle in (-180, 180], [arg] recovers
    the angle a point was built from with [fromPolar]; its length is the
    radius. *)
Theorem fromPolar_arg_round_trip (r theta : R) :
  0 < r ->
  -180 < theta <= 180 ->
  Vector.arg (Vector.fromPolar r theta) = theta /\
  Vector.magnitude (Vector.fromPolar r theta) = r.
Proof.
  intros Hr Ht. pose proof PI_RGT_0 as HP. split.
  - unfold Vector.arg, Vector.fromPolar, degreesToRadians. cbv zeta.
    cbn [Vector.x Vector.y].
    rewrite atan2_of_polar; [field; lra | exact Hr |].
    split.
    + apply Rmult_lt_reg_r with (180 / PI); [apply Rdiv_lt_0_compat; lra |].
      replace (theta * PI / 180 * (180 / PI)) with theta by (field; lra).
      replace (- PI * (180 / PI)) with (-180) by (field; lra). lra.
    + apply Rmult_le_reg_r with (180 / PI); [apply Rdiv_lt_0_compat; lra |].
      replace (theta * PI / 180 * (180 / PI)) with theta by (field; lra).
      replace (PI * (180 / PI)) with 180 by (field; lra). lra.
  - rewrite fromPolar_magnitude. apply Rabs_pos_eq. lra.
Qed.

Lemma fromPolar_arg_round_trip_witness :
  Vector.arg (Vector.fromPolar 2 90) = 90 /\
  Vector.magnitude (Vector.fromPolar 2 90) = 2.
Proof.
  apply (fromPolar_arg_round_trip 2 90); lra.
Defined.

(** ** The points a horizontal line returns *)




(** ** Order of the results, and tangency *)




(** ** The derived state, characterised *)






(** ** What rotate and setRadius leave alone *)

(** X11: [rotate] and [setRadius] spelled out field by field.  [rotate]
    replaces the assembly's rotation by [angle % 360] and the reachability
    flag by a recomputed one, and the live Cut's rotation by [angle];
    [setRadius] replaces the cutter radius and the cutter arc's path, and
    the live Cut's radius.  Every other field of the assembly - center,
    workpiece vector, the arcs' angles, the tailstock arc, the four
    dimensions, with [rotate] also the cutter radius and cutter arc, with
    [setRadius] also the rotation and the flag - every other field of the
    live Cut, every other Cut, and the coordinates of every Vector the
    session holds stay as they were. *)
Theorem rotate_and_setRadius_frame (a : CutterAssembly.t) (h : Heap.t) (c : Cut.t)
    (angle radius : R) :
  assembly_ok a h ->
  nth_error (Heap.cutObjs h) (CutterAssembly.currentCut a) = Some c ->
  (exists flag h',
      CutterAssembly.rotate angle a h
      = Ok (CutterAssembly.mk
              (CutterAssembly.center a) (js_rem angle 360) (CutterAssembly.cutterRadius a)
              (CutterAssembly.currentCut a) (CutterAssembly.workpieceDim a)
              (CutterAssembly.cutterArc a) (CutterAssembly.tailstockFixArc a) flag
              (CutterAssembly.restDim a) (CutterAssembly.offCenterDim a)
              (CutterAssembly.distDim a) (CutterAssembly.entryPointDim a),
            h') /\
      nth_error (Heap.cutObjs h') (CutterAssembly.currentCut a)
        = Some (Cut.mk (Cut.center c) angle (Cut.radius c) (Cut.svg_arc c)
                  (Cut.wasSaved c)) /\
      length (Heap.cutObjs h') = length (Heap.cutObjs h) /\
      (forall r, r <> CutterAssembly.currentCut a ->
         nth_error (Heap.cutObjs h') r = nth_error (Heap.cutObjs h) r) /\
      (forall v, Heap.getVector v h' = Heap.getVector v h)) /\
  (exists h',
      CutterAssembly.setRadius radius a h
      = Ok (CutterAssembly.mk
              (CutterAssembly.center a) (CutterAssembly.rotationAngle a) radius
              (CutterAssembly.currentCut a) (CutterAssembly.workpieceDim a)
              (Arc.mk (Arc.arcAngle (CutterAssembly.cutterArc a))
                 (Arc.inherentRotation (CutterAssembly.cutterArc a))
                 (Some (Arc.generateArcPath (CutterAssembly.cutterArc a) radius)))
              (CutterAssembly.tailstockFixArc a) (CutterAssembly.hasIntersections a)
              (CutterAssembly.restDim a) (CutterAssembly.offCenterDim a)
              (CutterAssembly.distDim a) (CutterAssembly.entryPointDim a),
            h') /\
      nth_error (Heap.cutObjs h') (CutterAssembly.currentCut a)
        = Some (Cut.mk (Cut.center c) (Cut.rotation c) radius (Cut.svg_arc c)
                  (Cut.wasSaved c)) /\
      length (Heap.cutObjs h') = length (Heap.cutObjs h) /\
      (forall r, r <> CutterAssembly.currentCut a ->
         nth_error (Heap.cutObjs h') r = nth_error (Heap.cutObjs h) r) /\
      (forall v, Heap.getVector v h' = Heap.getVector v h)).
Proof.
  intros Hok Hlive.
  pose proof (live_attached a h c Hok Hlive) as Hatt.
  pose proof (live_center a h c Hok Hlive) as Hcen.
  pose proof (nth_error_in_range _ _ _ Hlive) as Hlt.
  destruct Hok as (_ & Hc & _).
  destruct (getVector_in_range _ _ Hc) as [v Hv].
  split.
  - destruct (rotate_spec a h c Hlive Hatt angle v Hv Hcen) as [b E].
    exists b. eexists. split; [exact E |]. cbn [Heap.cutObjs].
    split; [apply nth_error_list_update_eq, Hlt |].
    split; [apply list_update_length |].
    split; [intros r Hr; apply nth_error_list_update_neq; auto | reflexivity].
  - eexists.
    split; [exact (setRadius_spec a h c Hlive Hatt radius Hcen) |]. cbn [Heap.cutObjs].
    split; [apply nth_error_list_update_eq, Hlt |].
    split; [apply list_update_length |].
    split; [intros r Hr; apply nth_error_list_update_neq; auto | reflexivity].
Qed.

Lemma rotate_and_setRadius_frame_witness :
  assembly_ok a_init h_init /\
  (exists a' h',
      CutterAssembly.rotate 45 a_init h_init = Ok (a', h') /\
      CutterAssembly.entryPointDim a' = CutterAssembly.entryPointDim a_init /\
      CutterAssembly.rotationAngle a' = js_rem 45 360) /\
  (exists a' h',
      CutterAssembly.setRadius 60 a_init h_init = Ok (a', h') /\
      CutterAssembly.cutterRadius a' = 60).
Proof.
  split; [exact a_init_ok |].
  destruct (rotate_and_setRadius_frame a_init h_init (Cut.mk 1 0 0 true false) 45 60
              a_init_ok eq_refl)
    as ((flag & h1 & E1 & _) & (h2 & E2 & _)).
  split; eexists; eexists; (split; [eassumption |]); repeat split; reflexivity.
Defined.

(** ** updateShapes *)

Lemma assembly_ok_newVector (a : CutterAssembly.t) (h : Heap.t) (v : Vector.t) :
  assembly_ok a h -> assembly_ok a (snd (Heap.newVector v h)).
Proof.
  intros (Hh & Hc & Hw & c & Hlive & Hs).
  unfold assembly_ok, heap_ok in *. cbn [snd Heap.newVector Heap.vectors Heap.cutObjs].
  rewrite length_app. cbn [length]. repeat split; try lia.
  - eapply Forall_impl; [| exact Hh]. cbv beta. intros; lia.
  - exists c. auto.
Qed.

Lemma updateShapes_spec (wd wh cd : R) (d : Drawing.t) (h : Heap.t) (c : Cut.t) :
  drawing_ok d h ->
  nth_error (Heap.cutObjs h) (Drawing.currentCut d) = Some c ->
  0 < wd -> 0 < wh -> 0 < cd ->
  exists a' h',
    Drawing.updateShapes wd wh cd d h = Ok (Drawing.set_cutterAssembly a' d, h') /\
    drawing_ok (Drawing.set_cutterAssembly a' d) h' /\
    Heap.vectors h' = Heap.vectors h ++ [Vector.mk wh wd] /\
    heap_frame (Drawing.currentCut d) h h' /\
    nth_error (Heap.cutObjs h') (Drawing.currentCut d)
      = Some (Cut.mk DEFAULT_CUTTER_POSITION_ref 0 (cd / 2) (Cut.svg_arc c)
                (Cut.wasSaved c)) /\
    CutterAssembly.center a' = DEFAULT_CUTTER_POSITION_ref /\
    CutterAssembly.workpieceDim a' = length (Heap.vectors h) /\
    CutterAssembly.cutterRadius a' = cd / 2 /\
    CutterAssembly.rotationAngle a'
      = CutterAssembly.rotationAngle (Drawing.cutterAssembly d).
Proof.
  intros (Hok & Hcc & Hcuts) Hlive Hwd Hwh Hcd.
  set (a := Drawing.cutterAssembly d) in *. rewrite <- Hcc in *.
  pose proof Hok as (_ & Hcen & _).
  unfold Drawing.updateShapes.
  rewrite (proj2 (Rleb_false wd 0)), (proj2 (Rleb_false wh 0)),
    (proj2 (Rleb_false cd 0)) by lra.
  cbn [orb]. unfold Heap.newVector. cbv iota beta zeta. fold a. rewrite <- Hcc.
  set (h1 := Heap.mk (Heap.vectors h ++ [Vector.mk wh wd]) (Heap.cutObjs h)).
  set (a1 := CutterAssembly.setWorkpieceDim (length (Heap.vectors h)) a).
  assert (Hlen1 : length (Heap.vectors h1) = S (length (Heap.vectors h))).
  { cbn. rewrite length_app. cbn. lia. }
  assert (Hok1 : assembly_ok a1 h1).
  { pose proof (assembly_ok_newVector a h (Vector.mk wh wd) Hok) as (H1 & H2 & _ & H4).
    split; [exact H1 |]. split; [exact H2 |]. split; [| exact H4].
    cbn [CutterAssembly.workpieceDim CutterAssembly.setWorkpieceDim
         CutterAssembly.set_workpieceDim a1]. fold h1. lia. }
  assert (Hlive1 : nth_error (Heap.cutObjs h1) (CutterAssembly.currentCut a1) = Some c)
    by exact Hlive.
  (* setRadius *)
  destruct (setRadius_step a1 h1 c Hok1 Hlive1 (cd / 2))
    as (a2 & h2 & E2 & (Hok2 & Hl2 & Hf2 & Hv2 & Hc2) & _).
  pose proof (setRadius_spec a1 h1 c Hlive1 (live_attached _ _ _ Hok1 Hlive1) (cd / 2)
                (live_center _ _ _ Hok1 Hlive1)) as E2'.
  rewrite E2 in E2'. injection E2' as Ea2 _.
  rewrite E2. cbn [bind]. rewrite <- Hc2 in Hl2.
  (* moveTo *)
  assert (Hpos : (DEFAULT_CUTTER_POSITION_ref < length (Heap.vectors h2))%nat).
  { rewrite Hv2, Hlen1. unfold DEFAULT_CUTTER_POSITION_ref. lia. }
  destruct (getVector_in_range _ _ Hpos) as [p Hp].
  assert (Hwok : (CutterAssembly.workpieceDim a2 < length (Heap.vectors h2))%nat)
    by apply Hok2.
  destruct (getVector_in_range _ _ Hwok) as [w Hw].
  destruct (moveTo_spec a2 h2 _ Hl2 (live_attached _ _ _ Hok2 Hl2)
              DEFAULT_CUTTER_POSITION_ref p w Hp Hw)
    as (a3 & l & E3 & Fc & Frot & Frad & Fcut & Fwd & _).
  destruct (moveTo_step a2 h2 _ Hok2 Hl2 DEFAULT_CUTTER_POSITION_ref Hpos)
    as (a3' & h3 & E3' & Hok3 & Hl3 & Hf3 & Hv3 & Hc3).
  rewrite E3 in E3'. injection E3' as <- Eh3.
  rewrite E3. cbn [bind].
  assert (Hcur : CutterAssembly.currentCut a3 = CutterAssembly.currentCut a)
    by (rewrite Hc3, Hc2; reflexivity).
  rewrite Hc2 in Hl3, Hf3. change (CutterAssembly.currentCut a1) with
    (CutterAssembly.currentCut a) in Hl3, Hf3, Hf2.
  rewrite Eh3. rewrite <- Hcur in Hl3.
  (* the three assignments on the live Cut *)
  destruct (setCut_step a3 h3 _ Hok3 Hl3 (Cut.set_radius (cd / 2)))
    as (h4 & E4 & Hok4 & Hl4 & Hf4 & Hv4 & _).
  { apply (live_attached _ _ _ Hok3 Hl3). }
  { apply (live_center _ _ _ Hok3 Hl3). }
  destruct (setCut_step a3 h4 _ Hok4 Hl4 (Cut.set_center DEFAULT_CUTTER_POSITION_ref))
    as (h5 & E5 & Hok5 & Hl5 & Hf5 & Hv5 & _).
  { apply (live_attached _ _ _ Hok4 Hl4). }
  { cbn. rewrite Hv4, Hv3. exact Hpos. }
  destruct (setCut_step a3 h5 _ Hok5 Hl5 (Cut.set_rotation 0))
    as (h6 & E6 & Hok6 & Hl6 & Hf6 & Hv6 & _).
  { apply (live_attached _ _ _ Hok5 Hl5). }
  { apply (live_center _ _ _ Hok5 Hl5). }
  rewrite Hcur in E4, E5, E6, Hl6, Hf4, Hf5, Hf6.
  rewrite E4. cbn [bind]. rewrite E5. cbn [bind]. rewrite E6. cbn [bind].
  exists a3, h6. split; [reflexivity |].
  assert (Hvec : Heap.vectors h6 = Heap.vectors h ++ [Vector.mk wh wd])
    by (rewrite Hv6, Hv5, Hv4, Hv3, Hv2; reflexivity).
  assert (Hframe : heap_frame (CutterAssembly.currentCut a) h h6).
  { split; [exists [Vector.mk wh wd]; exact Hvec |].
    assert (F16 : heap_frame (CutterAssembly.currentCut a) h1 h6).
    { apply (heap_frame_trans _ _ _ _ Hf2), (heap_frame_trans _ _ _ _ Hf3),
        (heap_frame_trans _ _ _ _ Hf4), (heap_frame_trans _ _ _ _ Hf5), Hf6. }
    destruct F16 as (_ & L & F). split; [exact L | exact F]. }
  split.
  { split; [exact Hok6 |].
    cbn [Drawing.cuts Drawing.currentCut Drawing.cutterAssembly
         Drawing.set_cutterAssembly].
    split; [rewrite Hcur; exact Hcc |].
    destruct Hframe as (_ & L & _). rewrite L, <- Hcc. exact Hcuts. }
  split; [exact Hvec |]. split; [exact Hframe |]. split; [exact Hl6 |].
  split; [exact Fc |]. split.
  { rewrite Fwd, Ea2. reflexivity. }
  split; [rewrite Frad, Ea2; reflexivity |].
  rewrite Frot, Ea2. reflexivity.
Qed.

(** X12: [updateShapes] leaves the session untouched when a form value is
    not positive.  With positive values it stores a new workpiece vector
    (height, diameter), sets the cutter radius to half the cutter diameter,
    moves the assembly to the default position, and gives the live Cut that
    center, that radius and the rotation 0 - while the assembly's own
    rotation stays what it was.  The history is not touched. *)
Theorem updateShapes_effect (wd wh cd : R) (d : Drawing.t) (h : Heap.t) (c : Cut.t) :
  drawing_ok d h ->
  nth_error (Heap.cutObjs h) (Drawing.currentCut d) = Some c ->
  nth_error (Heap.vectors h) DEFAULT_CUTTER_POSITION_ref = Some DEFAULT_CUTTER_POSITION ->
  (wd <= 0 \/ wh <= 0 \/ cd <= 0 -> Drawing.updateShapes wd wh cd d h = Ok (d, h)) /\
  (0 < wd -> 0 < wh -> 0 < cd ->
   exists d' h' live,
     Drawing.updateShapes wd wh cd d h = Ok (d', h') /\
     Drawing.cuts d' = Drawing.cuts d /\
     (forall s, In s (Drawing.cuts d) ->
                nth_error (Heap.cutObjs h') s = nth_error (Heap.cutObjs h) s) /\
     Heap.getVector (CutterAssembly.center (Drawing.cutterAssembly d')) h'
       = Ok DEFAULT_CUTTER_POSITION /\
     Heap.getVector (CutterAssembly.workpieceDim (Drawing.cutterAssembly d')) h'
       = Ok (Vector.mk wh wd) /\
     CutterAssembly.cutterRadius (Drawing.cutterAssembly d') = cd / 2 /\
     CutterAssembly.rotationAngle (Drawing.cutterAssembly d')
       = CutterAssembly.rotationAngle (Drawing.cutterAssembly d) /\
     nth_error (Heap.cutObjs h') (Drawing.currentCut d') = Some live /\
     Heap.getVector (Cut.center live) h' = Ok DEFAULT_CUTTER_POSITION /\
     Cut.radius live = cd / 2 /\
     Cut.rotation live = 0 /\
     Cut.wasSaved live = Cut.wasSaved c).
Proof.
  intros Hok Hlive Hdef. split.
  - intros Hbad. unfold Drawing.updateShapes.
    assert (E : Rleb wd 0 || Rleb wh 0 || Rleb cd 0 = true).
    { rewrite !orb_true_iff, !Rleb_true. tauto. }
    rewrite E. reflexivity.
  - intros Hwd Hwh Hcd.
    destruct (updateShapes_spec wd wh cd d h c Hok Hlive Hwd Hwh Hcd)
      as (a' & h' & E & _ & Hvec & Hf & Hl & Fc & Fw & Frad & Frot).
    assert (Hdef' : Heap.getVector DEFAULT_CUTTER_POSITION_ref h'
                    = Ok DEFAULT_CUTTER_POSITION).
    { unfold Heap.getVector. rewrite Hvec, nth_error_app1, Hdef; [reflexivity |].
      eapply nth_error_in_range, Hdef. }
    eexists. exists h'. eexists. split; [exact E |].
    cbn [Drawing.cuts Drawing.currentCut Drawing.cutterAssembly
         Drawing.set_cutterAssembly].
    split; [reflexivity |]. split.
    { intros s Hs. destruct Hok as (_ & _ & Hcuts). rewrite Forall_forall in Hcuts.
      apply (frame_lookup _ _ _ _ Hf). apply (Hcuts s Hs). }
    rewrite Fc, Fw. split; [exact Hdef' |]. split.
    { unfold Heap.getVector. rewrite Hvec, nth_error_snoc. reflexivity. }
    split; [exact Frad |]. split; [exact Frot |]. split; [exact Hl |].
    cbn [Cut.center Cut.radius Cut.rotation Cut.wasSaved].
    split; [exact Hdef' |]. repeat split.
Qed.

Lemma updateShapes_effect_witness :
  drawing_ok d_init h_init /\
  Drawing.updateShapes 300 (-1) 180 d_init h_init = Ok (d_init, h_init) /\
  exists d' h',
    Drawing.updateShapes 300 80 180 d_init h_init = Ok (d', h') /\
    CutterAssembly.cutterRadius (Drawing.cutterAssembly d') = 180 / 2.
Proof.
  split; [exact d_init_ok |].
  destruct (updateShapes_effect 300 (-1) 180 d_init h_init (Cut.mk 1 0 0 true false)
              d_init_ok eq_refl eq_refl) as [Hbad _].
  split; [apply Hbad; right; left; lra |].
  destruct (updateShapes_effect 300 80 180 d_init h_init (Cut.mk 1 0 0 true false)
              d_init_ok eq_refl eq_refl) as [_ Hgood].
  destruct Hgood as (d' & h' & live & E & _ & _ & _ & _ & Hr & _); try lra.
  exists d', h'. split; assumption.
Defined.

(** ** Well-formedness is an invariant *)

Lemma list_update_snoc {A : Type} (l : list A) (a b : A) :
  list_update (length l) b (l ++ [a]) = l ++ [b].
Proof. induction l as [| x t IH]; cbn; [reflexivity | rewrite IH; reflexivity]. Qed.

Lemma Drawing_new_ok (h0 : Heap.t) :
  heap_ok h0 ->
  exists d h,
    Drawing.new h0 = Ok (d, h) /\
    drawing_ok d h /\
    Drawing.cuts d = [] /\
    (exists ext, Heap.vectors h = Heap.vectors h0 ++ ext) /\
    (forall r, (r < length (Heap.cutObjs h0))%nat ->
               nth_error (Heap.cutObjs h) r = nth_error (Heap.cutObjs h0) r).
Proof.
  intros Hh. unfold Drawing.new, Heap.newVector, Heap.newCut. cbv iota beta zeta.
  cbn [Heap.vectors Heap.cutObjs].
  set (c := Cut.new (length (Heap.vectors h0)) 0 0).
  rewrite (setCut_at _ _ _ c) by (cbn; apply nth_error_snoc).
  cbn [bind Heap.vectors Heap.cutObjs]. rewrite list_update_snoc.
  unfold CutterAssembly.new, Heap.newVector. cbv iota beta zeta.
  cbn [Heap.vectors Heap.cutObjs].
  eexists. eexists. split; [reflexivity |].
  split; [| split; [reflexivity | split]].
  - unfold drawing_ok, assembly_ok, heap_ok.
    cbn [Drawing.cutterAssembly Drawing.currentCut Drawing.cuts
         CutterAssembly.center CutterAssembly.workpieceDim CutterAssembly.currentCut
         Heap.vectors Heap.cutObjs].
    rewrite !length_app. cbn [length].
    repeat split; try lia.
    + apply Forall_app. split.
      * eapply Forall_impl; [| exact Hh]. cbv beta. intros; lia.
      * constructor; [cbn; lia | constructor].
    + exists (Cut.set_svg_arc true c). split; [apply nth_error_snoc | reflexivity].
    + constructor.
  - eexists. rewrite <- !app_assoc. reflexivity.
  - intros r Hr. cbn. apply nth_error_app1, Hr.
Qed.

(** X13: the constructor yields a well-formed session with an empty
    history, and every operation that has what it needs - commit, select
    with an index in the history, pose edits on existing vectors,
    [updateShapes] with any three numbers - runs without fault and yields a
    well-formed session again, with the same live Cut object and with every
    earlier vector still in place. *)
Theorem session_invariant (h0 : Heap.t) (op : drawing_op) (d : Drawing.t) (h : Heap.t) :
  heap_ok h0 ->
  drawing_ok d h ->
  op_valid op d h ->
  (exists d1 h1,
      Drawing.new h0 = Ok (d1, h1) /\ drawing_ok d1 h1 /\ Drawing.cuts d1 = []) /\
  (exists d' h' ext,
      apply_op op d h = Ok (d', h') /\
      drawing_ok d' h' /\
      Drawing.currentCut d' = Drawing.currentCut d /\
      Heap.vectors h' = Heap.vectors h ++ ext).
Proof.
  intros Hh0 Hok Hvalid. split.
  - destruct (Drawing_new_ok h0 Hh0) as (d1 & h1 & E & Hok1 & Hc & _).
    exists d1, h1. split; [exact E | split; [exact Hok1 | exact Hc]].
  - pose proof Hok as ((Hh & _ & _ & c & Hlive & _) & Hcc & Hcuts).
    rewrite Hcc in Hlive.
    destruct op as [es | | index | wd wh cd]; cbn [apply_op op_valid] in *.
    + destruct (edit_drawing_ok es d h Hok Hvalid)
        as (d' & h' & E & Hok' & _ & Hcur & ([ext Hext] & _)).
      exists d', h', ext.
      split; [exact E | split; [exact Hok' | split; [exact Hcur | exact Hext]]].
    + destruct (addCurrentCut_spec d h c Hok Hlive) as (h' & E & Hok' & Hv & _).
      eexists. exists h', []. split; [exact E |]. split; [exact Hok' |].
      split; [reflexivity |]. rewrite app_nil_r. exact Hv.
    + destruct (nth_error (Drawing.cuts d) index) as [s |] eqn:Hs;
        [| apply nth_error_None in Hs; lia].
      assert (Hsr : (s < length (Heap.cutObjs h))%nat).
      { rewrite Forall_forall in Hcuts. apply (Hcuts s). eapply nth_error_In, Hs. }
      destruct (nth_error (Heap.cutObjs h) s) as [snap |] eqn:Hsnap;
        [| apply nth_error_None in Hsnap; lia].
      destruct (selectCut_spec index d h s c snap Hok Hs Hlive Hsnap)
        as (d' & h' & E & Hok' & Hcur & _ & _ & _ & Hv & _).
      exists d', h', []. rewrite app_nil_r.
      split; [exact E | split; [exact Hok' | split; [exact Hcur | exact Hv]]].
    + destruct (Rle_dec wd 0) as [H1 | H1];
        [| destruct (Rle_dec wh 0) as [H2 | H2];
           [| destruct (Rle_dec cd 0) as [H3 | H3]]].
      1-3: exists d, h, []; rewrite app_nil_r;
        split; [| split; [exact Hok | split; reflexivity]];
        unfold Drawing.updateShapes;
        replace (Rleb wd 0 || Rleb wh 0 || Rleb cd 0) with true;
        [reflexivity | symmetry; rewrite !orb_true_iff, !Rleb_true; tauto].
      destruct (updateShapes_spec wd wh cd d h c Hok Hlive)
        as (a' & h' & E & Hok' & Hv & _); try lra.
      eexists. exists h', [Vector.mk wh wd].
      split; [exact E |]. split; [exact Hok' |]. split; [reflexivity | exact Hv].
Qed.

Lemma session_invariant_witness :
  heap_ok globals /\
  drawing_ok d_one h_one /\
  op_valid (OpSelect 0) d_one h_one /\
  (exists d1 h1, Drawing.new globals = Ok (d1, h1) /\ drawing_ok d1 h1) /\
  (exists d' h', Drawing.selectCut 0 d_one h_one = Ok (d', h') /\ drawing_ok d' h').
Proof.
  assert (Hg : heap_ok globals) by constructor.
  assert (Hv : op_valid (OpSelect 0) d_one h_one) by (cbn; lia).
  split; [exact Hg |]. split; [exact d_one_ok |]. split; [exact Hv |].
  destruct (session_invariant globals (OpSelect 0) d_one h_one Hg d_one_ok Hv)
    as ((d1 & h1 & E1 & Hok1 & _) & (d' & h' & ext & E & Hok' & _)).
  split; [exists d1, h1 | exists d', h']; split; assumption.
Defined.

(** ** Select and commit *)

(** X14: [selectCut] with an index outside the history - any index when the
    history is empty - faults with a TypeError: [cuts[index]] is
    [undefined] and its [center] is read. *)
Theorem selectCut_out_of_range (index : nat) (d : Drawing.t) (h : Heap.t) :
  drawing_ok d h ->
  (length (Drawing.cuts d) <= index)%nat ->
  Drawing.selectCut index d h = Fault TypeError.
Proof.
  intros ((_ & _ & _ & c & Hlive & _) & Hcc & _) Hidx. rewrite Hcc in Hlive.
  unfold Drawing.selectCut. cbv zeta.
  rewrite (proj2 (nth_error_None _ _) Hidx).
  cbn [Drawing.currentCut Drawing.set_cuts].
  rewrite (getCut_at _ _ _ Hlive). cbn [bind].
  destruct (Cut.wasSaved c); reflexivity.
Qed.

Lemma selectCut_out_of_range_witness :
  drawing_ok d_init h_init /\
  (length (Drawing.cuts d_init) <= 0)%nat /\
  Drawing.selectCut 0 d_init h_init = Fault TypeError.
Proof.
  split; [exact d_init_ok |]. split; [cbn; lia |].
  apply (selectCut_out_of_range 0 d_init h_init d_init_ok). cbn. lia.
Defined.

Lemma splice1_length {A : Type} (index : nat) (l : list A) :
  (index < length l)%nat -> S (length (splice1 index l)) = length l.
Proof.
  intros H. unfold splice1. rewrite length_app, length_firstn, length_skipn. lia.
Qed.

(** X15: [selectCut] on an entry of the history takes one entry out and
    puts the live Cut back in exactly when it came from the history, so the
    history shrinks by one on the first selection and keeps its size on
    every later one; the live Cut is then marked as coming from the
    history.  Committing right after a selection appends a snapshot with
    the selected entry's center, rotation and radius and clears the mark:
    select-then-commit moves the entry to the end of the history. *)
Theorem select_then_commit
    (index : nat) (d : Drawing.t) (h : Heap.t) (s : cref) (c snap : Cut.t) :
  drawing_ok d h ->
  nth_error (Drawing.cuts d) index = Some s ->
  nth_error (Heap.cutObjs h) (Drawing.currentCut d) = Some c ->
  nth_error (Heap.cutObjs h) s = Some snap ->
  exists d1 h1 live1 d2 h2 s' live2,
    Drawing.selectCut index d h = Ok (d1, h1) /\
    S (length (Drawing.cuts d1))
      = (length (Drawing.cuts d) + (if Cut.wasSaved c then 1 else 0))%nat /\
    nth_error (Heap.cutObjs h1) (Drawing.currentCut d1) = Some live1 /\
    Cut.wasSaved live1 = true /\
    Drawing.addCurrentCut d1 h1 = Ok (d2, h2) /\
    Drawing.cuts d2 = Drawing.cuts d1 ++ [s'] /\
    nth_error (Heap.cutObjs h2) s'
      = Some (Cut.new (Cut.center snap) (Cut.rotation snap) (Cut.radius snap)) /\
    nth_error (Heap.cutObjs h2) (Drawing.currentCut d2) = Some live2 /\
    Cut.wasSaved live2 = false /\
    Cut.center live2 = Cut.center snap /\
    Cut.rotation live2 = Cut.rotation snap /\
    Cut.radius live2 = Cut.radius snap.
Proof.
  intros Hok Hidx Hlive Hsnap.
  destruct (selectCut_spec index d h s c snap Hok Hidx Hlive Hsnap)
    as (d1 & h1 & E1 & Hok1 & Hcur1 & Hcuts1 & _ & Hl1 & _).
  rewrite <- Hcur1 in Hl1.
  destruct (addCurrentCut_spec d1 h1 _ Hok1 Hl1)
    as (h2 & E2 & _ & _ & _ & Hl2 & Hs2 & _).
  exists d1, h1. eexists. eexists. exists h2, (length (Heap.cutObjs h1)). eexists.
  split; [exact E1 |]. split.
  { rewrite Hcuts1, length_app.
    pose proof (splice1_length index (Drawing.cuts d)
                  (nth_error_in_range _ _ _ Hidx)) as HL.
    destruct (Cut.wasSaved c); cbn [length]; lia. }
  split; [exact Hl1 |]. split; [reflexivity |]. split; [exact E2 |].
  split; [reflexivity |]. split; [exact Hs2 |].
  split; [exact Hl2 |]. repeat split.
Qed.

Lemma select_then_commit_witness :
  drawing_ok d_one h_one /\
  exists d1 h1 d2 h2 s',
    Drawing.selectCut 0 d_one h_one = Ok (d1, h1) /\
    Drawing.cuts d1 = [] /\
    Drawing.addCurrentCut d1 h1 = Ok (d2, h2) /\
    Drawing.cuts d2 = [s'] /\
    nth_error (Heap.cutObjs h2) s' = Some (Cut.new 1 0 0).
Proof.
  split; [exact d_one_ok |].
  destruct (select_then_commit 0 d_one h_one 1 (Cut.mk 1 0 0 true false)
              (Cut.mk 1 0 0 false false) d_one_ok eq_refl eq_refl eq_refl)
    as (d1 & h1 & live1 & d2 & h2 & s' & live2 & E1 & Hlen & _ & _ & E2 & Hc2 & Hs & _).
  assert (Hd1 : Drawing.cuts d1 = []).
  { destruct (Drawing.cuts d1); [reflexivity | cbn in Hlen; lia]. }
  rewrite Hd1 in Hc2.
  exists d1, h1, d2, h2, s'. repeat split; assumption.
Defined.

(** ** Dragging the plate and the handle *)

(** X16: a plate drag that started at pointer position [pos0] and is now at
    [pos] moves the assembly's center by [pos - pos0]: to a new vector
    equal to the old center plus the pointer's displacement, and back onto
    the old coordinates when the pointer returns to [pos0].  A drag callback
    with no recorded offset faults. *)
Theorem plate_drag (pos0 pos : Vector.t) (a : CutterAssembly.t) (h : Heap.t)
    (c : Vector.t) :
  assembly_ok a h ->
  Heap.getVector (CutterAssembly.center a) h = Ok c ->
  exists offset a' h' c',
    plate_onDragStart pos0 a h = Ok offset /\
    plate_onDrag pos offset a h = Ok (a', h') /\
    Heap.getVector (CutterAssembly.center a') h' = Ok c' /\
    c' = Vector.add c (Vector.subtract pos pos0) /\
    (pos = pos0 -> c' = c) /\
    Heap.getVector (CutterAssembly.center a) h' = Ok c /\
    plate_onDrag pos None a h = Fault TypeError.
Proof.
  intros Hok Hc. unfold plate_onDragStart, plate_onDrag. rewrite Hc. cbn [bind].
  unfold Heap.newVector. cbv iota beta zeta.
  set (v := Vector.subtract pos (Vector.subtract pos0 c)).
  set (h1 := Heap.mk (Heap.vectors h ++ [v]) (Heap.cutObjs h)).
  pose proof (assembly_ok_newVector a h v Hok) as Hok1. cbn in Hok1. fold h1 in Hok1.
  pose proof Hok1 as (_ & _ & Hw & c0 & Hlive & Hs).
  destruct (getVector_in_range _ _ Hw) as [wd Hwd].
  assert (Hp : Heap.getVector (length (Heap.vectors h)) h1 = Ok v).
  { unfold Heap.getVector. cbn. rewrite nth_error_snoc. reflexivity. }
  destruct (moveTo_spec a h1 c0 Hlive Hs _ v wd Hp Hwd)
    as (a' & l & E & Fc & _).
  eexists. exists a'. eexists. exists v.
  split; [reflexivity |]. split; [exact E |]. rewrite Fc.
  split; [exact Hp |]. split; [apply vector_eq; cbn; lra |].
  split; [intros ->; apply vector_eq; cbn; lra |]. split; [| reflexivity].
  change (Heap.getVector (CutterAssembly.center a) h1 = Ok c).
  unfold Heap.getVector in *. unfold h1. cbn [Heap.vectors].
  destruct (nth_error (Heap.vectors h) (CutterAssembly.center a)) eqn:En;
    [| discriminate].
  rewrite nth_error_app1 by (eapply nth_error_in_range, En).
  rewrite En. exact Hc.
Qed.

Lemma plate_drag_witness :
  assembly_ok a_init h_init /\
  exists offset a' h',
    plate_onDragStart (Vector.mk 5 5) a_init h_init = Ok offset /\
    plate_onDrag (Vector.mk 8 9) offset a_init h_init = Ok (a', h') /\
    Heap.getVector (CutterAssembly.center a') h'
      = Ok (Vector.add (Vector.mk 0 0)
              (Vector.subtract (Vector.mk 8 9) (Vector.mk 5 5))).
Proof.
  split; [exact a_init_ok |].
  destruct (plate_drag (Vector.mk 5 5) (Vector.mk 8 9) a_init h_init (Vector.mk 0 0)
              a_init_ok eq_refl)
    as (offset & a' & h' & c' & E1 & E2 & Hc & -> & _).
  exists offset, a', h'. repeat split; assumption.
Defined.

Lemma subtract_add (c v : Vector.t) : Vector.subtract (Vector.add c v) c = v.
Proof. apply vector_eq; cbn; lra. Qed.

(** X17: dragging the handle to a pointer position stores, as the
    assembly's rotation and as the live Cut's rotation alike, the argument
    of the position relative to the center - a value in (-180, 180], so the
    remainder changes nothing.  A position at angle theta around the center
    gives the rotation theta.  The center does not move. *)
Theorem handle_drag (pos : Vector.t) (a : CutterAssembly.t) (h : Heap.t)
    (c : Vector.t) (r theta : R) :
  assembly_ok a h ->
  Heap.getVector (CutterAssembly.center a) h = Ok c ->
  0 < r ->
  -180 < theta <= 180 ->
  (exists a' h' live,
      handle_onDrag pos a h = Ok (a', h') /\
      CutterAssembly.rotationAngle a' = Vector.arg (Vector.subtract pos c) /\
      -180 < CutterAssembly.rotationAngle a' <= 180 /\
      nth_error (Heap.cutObjs h') (CutterAssembly.currentCut a') = Some live /\
      Cut.rotation live = CutterAssembly.rotationAngle a' /\
      CutterAssembly.center a' = CutterAssembly.center a /\
      Heap.getVector (CutterAssembly.center a') h' = Ok c) /\
  (exists a' h',
      handle_onDrag (Vector.add c (Vector.fromPolar r theta)) a h = Ok (a', h') /\
      CutterAssembly.rotationAngle a' = theta).
Proof.
  intros Hok Hc Hr Ht.
  pose proof Hok as (_ & _ & _ & c0 & Hlive & Hs).
  pose proof (live_center a h c0 Hok Hlive) as Hcen.
  pose proof (nth_error_in_range _ _ _ Hlive) as Hlt.
  assert (Hrem : forall v, js_rem (Vector.arg v) 360 = Vector.arg v).
  { intros v. pose proof (arg_range v) as Hv.
    destruct (Rle_dec 0 (Vector.arg v)) as [H | H].
    - rewrite (js_rem_window 360 ltac:(lra) _ 0); lra.
    - rewrite (js_rem_window_neg 360 ltac:(lra) _ 0); lra. }
  split.
  - unfold handle_onDrag. rewrite Hc. cbn [bind].
    destruct (rotate_spec a h c0 Hlive Hs (Vector.arg (Vector.subtract pos c)) c Hc Hcen)
      as [b E].
    eexists. eexists. eexists. split; [exact E |].
    cbn [CutterAssembly.rotationAngle CutterAssembly.center CutterAssembly.currentCut
         CutterAssembly.set_hasIntersections CutterAssembly.set_rotationAngle
         Heap.cutObjs].
    rewrite Hrem. split; [reflexivity |]. split; [apply arg_range |].
    split; [apply nth_error_list_update_eq, Hlt |].
    split; [reflexivity |]. split; [reflexivity | exact Hc].
  - unfold handle_onDrag. rewrite Hc. cbn [bind]. rewrite subtract_add.
    destruct (rotate_spec a h c0 Hlive Hs (Vector.arg (Vector.fromPolar r theta)) c Hc Hcen)
      as [b E].
    eexists. eexists. split; [exact E |].
    cbn [CutterAssembly.rotationAngle
         CutterAssembly.set_hasIntersections CutterAssembly.set_rotationAngle].
    rewrite Hrem. unfold Vector.arg, Vector.fromPolar, degreesToRadians. cbv zeta.
    cbn [Vector.x Vector.y]. pose proof PI_RGT_0 as HP.
    rewrite atan2_of_polar; [field; lra | exact Hr |].
    split.
    + apply Rmult_lt_reg_r with (180 / PI); [apply Rdiv_lt_0_compat; lra |].
      replace (theta * PI / 180 * (180 / PI)) with theta by (field; lra).
      replace (- PI * (180 / PI)) with (-180) by (field; lra). lra.
    + apply Rmult_le_reg_r with (180 / PI); [apply Rdiv_lt_0_compat; lra |].
      replace (theta * PI / 180 * (180 / PI)) with theta by (field; lra).
      replace (PI * (180 / PI)) with 180 by (field; lra). lra.
Qed.

Lemma handle_drag_witness :
  assembly_ok a_init h_init /\
  exists a' h',
    handle_onDrag (Vector.add (Vector.mk 0 0) (Vector.fromPolar 140 30)) a_init h_init
      = Ok (a', h') /\
    CutterAssembly.rotationAngle a' = 30.
Proof.
  split; [exact a_init_ok |].
  destruct (handle_drag (Vector.mk 1 1) a_init h_init (Vector.mk 0 0) 140 30
              a_init_ok eq_refl) as [_ H]; try lra.
  exact H.
Defined.

(** ** Arc paths *)

(** X18: the path [generateArcPath] builds starts and ends at distance
    |radius| from the arc's origin, its start being its end turned by the
    arc's angle, and takes the large-arc flag exactly when the angle exceeds
    180.  An arc placed symmetrically (inherent rotation minus half its
    angle, as the tailstock arc is) has mirror-image end points.  The live
    Cut's arc drawn by [CutArc.updatePath] is the 90 degree cutter arc
    turned by the Cut's rotation - from angle 180 + rotation to
    90 + rotation, small-arc flag - and its break line ends where that arc
    starts. *)
Theorem arc_paths (arc : Arc.t) (radius rotation angle : R) (center : Vector.t) :
  Vector.magnitude (Arc.pathStart (Arc.generateArcPath arc radius)) = Rabs radius /\
  Vector.magnitude (Arc.pathEnd (Arc.generateArcPath arc radius)) = Rabs radius /\
  Arc.pathStart (Arc.generateArcPath arc radius)
    = Vector.rotate (Arc.pathEnd (Arc.generateArcPath arc radius)) (Arc.arcAngle arc) /\
  (Arc.largeArcFlag (Arc.generateArcPath arc radius) = true <-> 180 < Arc.arcAngle arc) /\
  (Vector.x (Arc.pathStart (Arc.generateArcPath (Arc.new radius angle (- angle / 2)) radius))
   = Vector.x (Arc.pathEnd (Arc.generateArcPath (Arc.new radius angle (- angle / 2)) radius))
   /\
   Vector.y (Arc.pathStart (Arc.generateArcPath (Arc.new radius angle (- angle / 2)) radius))
   = - Vector.y (Arc.pathEnd
                   (Arc.generateArcPath (Arc.new radius angle (- angle / 2)) radius))) /\
  Arc.pathStart (CutArc.arc (CutArc.updatePath radius rotation center))
    = Vector.rotate
        (Arc.pathStart (Arc.generateArcPath (Arc.new radius cutterArcDegrees 90) radius))
        rotation /\
  Arc.pathEnd (CutArc.arc (CutArc.updatePath radius rotation center))
    = Vector.rotate
        (Arc.pathEnd (Arc.generateArcPath (Arc.new radius cutterArcDegrees 90) radius))
        rotation /\
  Arc.pathStart (CutArc.arc (CutArc.updatePath radius rotation center))
    = Vector.fromPolar radius (180 + rotation) /\
  Arc.pathEnd (CutArc.arc (CutArc.updatePath radius rotation center))
    = Vector.fromPolar radius (90 + rotation) /\
  Arc.largeArcFlag (CutArc.arc (CutArc.updatePath radius rotation center)) = false /\
  CutArc.breakLineTo (CutArc.updatePath radius rotation center)
    = Arc.pathStart (CutArc.arc (CutArc.updatePath radius rotation center)) /\
  CutArc.breakLineFrom (CutArc.updatePath radius rotation center)
    = Vector.mk (- radius) (-1000) /\
  CutArc.translate (CutArc.updatePath radius rotation center) = center.
Proof.
  unfold Arc.generateArcPath, CutArc.updatePath, Arc.new, Arc.setRadius,
    cutterArcDegrees. cbv zeta.
  cbn [Arc.pathStart Arc.pathEnd Arc.largeArcFlag Arc.arcAngle Arc.inherentRotation
       CutArc.arc CutArc.breakLineTo CutArc.breakLineFrom CutArc.translate].
  split; [apply fromPolar_magnitude |]. split; [apply fromPolar_magnitude |].
  split; [rewrite rotate_fromPolar; reflexivity |]. split.
  { destruct (Rleb (Arc.inherentRotation arc + Arc.arcAngle arc
                    - Arc.inherentRotation arc) 180) eqn:E.
    - apply Rleb_true in E. split; [discriminate | lra].
    - apply Rleb_false in E. split; [lra | reflexivity]. }
  split.
  { unfold Vector.fromPolar, degreesToRadians. cbv zeta. cbn [Vector.x Vector.y].
    replace ((- angle / 2 + angle) * PI / 180) with (- (- angle / 2 * PI / 180))
      by field.
    rewrite cos_neg, sin_neg. split; ring. }
  split; [reflexivity |]. split; [reflexivity |].
  split; [rewrite rotate_fromPolar; f_equal; lra |].
  split; [rewrite rotate_fromPolar; reflexivity |].
  split; [apply Rltb_false; lra |]. split; [reflexivity |].
  split; [| reflexivity].
  unfold Vector.fromPolar, degreesToRadians. cbv zeta. cbn [Vector.x].
  replace ((90 + 90) * PI / 180) with PI by field.
  rewrite cos_PI. f_equal. ring.
Qed.

(** ** Angles from -360 upward *)

Lemma normalizeAngle_multiple (angle : R) :
  -360 <= angle -> exists k : Z, normalizeAngle angle = angle + 360 * IZR k.
Proof.
  intros H. set (q := Int_part ((angle + 360) / 360)).
  assert (Hq : IZR q * 360 <= angle + 360 < (IZR q + 1) * 360).
  { destruct (base_Int_part ((angle + 360) / 360)) as [H1 H2]. fold q in H1, H2.
    assert (E : angle + 360 = (angle + 360) / 360 * 360) by (field; lra).
    split; nra. }
  exists (1 - q)%Z. rewrite (normalizeAngle_window angle q H Hq), minus_IZR. ring.
Qed.

(** X19: from -360 upward [normalizeAngle] does what its name says: the
    result lies in [0, 360), differs from the input by a whole number of
    turns, is left alone by a second application, and is the same for two
    inputs a whole number of turns apart. *)
Theorem normalizeAngle_from_minus_360 (angle : R) (k : Z) :
  -360 <= angle -> -360 <= angle + 360 * IZR k ->
  0 <= normalizeAngle angle < 360 /\
  (exists n : Z, normalizeAngle angle = angle + 360 * IZR n) /\
  normalizeAngle (normalizeAngle angle) = normalizeAngle angle /\
  normalizeAngle (angle + 360 * IZR k) = normalizeAngle angle /\
  (normalizeAngle angle = angle <-> angle < 360 /\ 0 <= angle).
Proof.
  intros Ha Hk. pose proof (normalizeAngle_range angle Ha) as Hr.
  split; [exact Hr |].
  split; [apply normalizeAngle_multiple, Ha |].
  split; [apply normalizeAngle_idempotent_from_minus_360, Ha |].
  split; [apply normalizeAngle_period_from_minus_360; assumption |].
  split.
  - intros E. rewrite E in Hr. lra.
  - intros [H1 H2]. apply normalizeAngle_fixed. lra.
Qed.

Lemma normalizeAngle_from_minus_360_witness :
  0 <= normalizeAngle (-90) < 360 /\
  (exists n : Z, normalizeAngle (-90) = -90 + 360 * IZR n) /\
  normalizeAngle (normalizeAngle (-90)) = normalizeAngle (-90) /\
  normalizeAngle (-90 + 360 * IZR 2) = normalizeAngle (-90) /\
  (normalizeAngle (-90) = -90 <-> -90 < 360 /\ 0 <= -90).
Proof. apply (normalizeAngle_from_minus_360 (-90) 2); lra. Defined.

(** ** throttle *)

Lemma throttle_run_head (limit lastCall : Z) (times : list Z) :
  HdRel (fun a t => limit <= t - a)%Z lastCall (throttle_run limit lastCall times).
Proof.
  induction times as [| now rest IH].
  - constructor.
  - cbn. unfold throttle_call.
    destruct (limit <=? now - lastCall)%Z eqn:E.
    + constructor. apply Z.leb_le, E.
    + exact IH.
Qed.

Lemma throttle_run_sorted (limit lastCall : Z) (times : list Z) :
  Sorted (fun a t => limit <= t - a)%Z (throttle_run limit lastCall times).
Proof.
  revert lastCall. induction times as [| now rest IH]; intros lastCall.
  - constructor.
  - cbn. unfold throttle_call.
    destruct (limit <=? now - lastCall)%Z eqn:E.
    + constructor; [apply IH | apply throttle_run_head].
    + apply IH.
Qed.

Lemma throttle_run_all (limit lastCall : Z) (times : list Z) :
  Sorted (fun a t => limit <= t - a)%Z (lastCall :: times) ->
  throttle_run limit lastCall times = times.
Proof.
  revert lastCall. induction times as [| now rest IH]; intros lastCall HS.
  - reflexivity.
  - inversion HS as [| ? ? HS' HR]; subst. inversion HR; subst.
    cbn. unfold throttle_call.
    destruct (limit <=? now - lastCall)%Z eqn:E.
    + f_equal. apply IH, HS'.
    + apply Z.leb_gt in E. lia.
Qed.

Lemma throttle_run_incl (limit lastCall : Z) (times : list Z) :
  incl (throttle_run limit lastCall times) times.
Proof.
  revert lastCall. induction times as [| now rest IH]; intros lastCall.
  - apply incl_refl.
  - cbn. unfold throttle_call.
    destruct (limit <=? now - lastCall)%Z.
    + apply incl_cons; [left; reflexivity | apply incl_tl, IH].
    + apply incl_tl, IH.
Qed.


(** X21: the callback a [throttle] wraps runs only at times the wrapper was
    called, the first run is at least [limit] after time 0 and any two
    successive runs are at least [limit] apart; no call is dropped exactly
    when the calls themselves are spaced that way; and a call arriving less
    than [limit] after the last run is dropped without delaying later
    ones. *)
Theorem throttle_spacing (limit : Z) (times : list Z) :
  incl (throttle limit times) times /\
  Sorted (fun a t => limit <= t - a)%Z (0%Z :: throttle limit times) /\
  (throttle limit times = times <->
   Sorted (fun a t => limit <= t - a)%Z (0%Z :: times)) /\
  (forall lastCall now rest,
      (now - lastCall < limit)%Z ->
      throttle_run limit lastCall (now :: rest) = throttle_run limit lastCall rest).
Proof.
  unfold throttle. split; [apply throttle_run_incl |].
  assert (S0 : Sorted (fun a t => limit <= t - a)%Z
                 (0%Z :: throttle_run limit 0 times)).
  { constructor; [apply throttle_run_sorted | apply throttle_run_head]. }
  split; [exact S0 |]. split.
  - split.
    + intros E. rewrite E in S0. exact S0.
    + apply throttle_run_all.
  - intros lastCall now rest H. cbn. unfold throttle_call.
    apply Z.leb_gt in H. rewrite H. reflexivity.
Qed.

(** ** Draggable *)

Lemma has_coords_Ok (toSvg : Vector.t -> Vector.t) (e : pointer_event) :
  has_coords e = true -> exists p, evtToMouseCoords toSvg e = Ok p.
Proof.
  unfold has_coords, evtToMouseCoords.
  destruct (touches e) as [[| touch rest] |]; destruct (client e);
    intros H; try discriminate; eauto.
Qed.

Lemma has_coords_Fault (toSvg : Vector.t -> Vector.t) (e : pointer_event) :
  has_coords e = false -> evtToMouseCoords toSvg e = Fault TypeError.
Proof.
  unfold has_coords, evtToMouseCoords.
  destruct (touches e) as [[| touch rest] |]; destruct (client e);
    intros H; try discriminate; reflexivity.
Qed.

(** X22: when every event carries a position, the callbacks a [Draggable]
    runs over any sequence of events keep the drag protocol - [onDrag] and
    [onDragEnd] only between an [onDragStart] and the next [onDragEnd] -
    and [isDragging] ends up as the protocol's own state; moves and
    releases outside a drag run nothing. *)
Theorem drag_protocol (toSvg : Vector.t -> Vector.t) (isDragging : bool)
    (evs : list (Draggable.handler * pointer_event)) :
  forallb (fun he => has_coords (snd he)) evs = true ->
  Draggable.protocol isDragging (snd (Draggable.run toSvg isDragging evs))
    = Some (fst (Draggable.run toSvg isDragging evs)) /\
  (isDragging = false ->
   forallb (fun he => match fst he with Draggable.startDrag => false | _ => true end)
     evs = true ->
   Draggable.run toSvg isDragging evs = (false, [])).
Proof.
  revert isDragging. induction evs as [| [hd e] rest IH]; intros isDragging Hall.
  - split; [reflexivity | intros -> _; reflexivity].
  - cbn [forallb snd] in Hall. apply andb_true_iff in Hall as [He Hrest].
    destruct (has_coords_Ok toSvg e He) as [p Ep].
    split.
    + cbn [Draggable.run]. unfold Draggable.handle.
      destruct hd, isDragging; rewrite ?Ep; cbn [bind];
        match goal with
        | |- context [Draggable.run toSvg ?b rest] =>
            destruct (IH b Hrest) as [IHp _];
            destruct (Draggable.run toSvg b rest) as [final cbs]
        end; cbn in *; exact IHp.
    + intros -> Hno. cbn [forallb fst] in Hno.
      apply andb_true_iff in Hno as [Hhd Hno].
      destruct (IH false Hrest) as [_ IHn]. specialize (IHn eq_refl Hno).
      cbn [Draggable.run]. unfold Draggable.handle.
      destruct hd; try discriminate; rewrite IHn; reflexivity.
Qed.

Lemma drag_protocol_witness :
  Draggable.protocol false
    (snd (Draggable.run (fun p => p) false
            [(Draggable.performDrag, mkEvent None (Some (Vector.mk 1 1)));
             (Draggable.startDrag, mkEvent None (Some (Vector.mk 1 2)));
             (Draggable.performDrag, mkEvent (Some [Vector.mk 3 4]) None);
             (Draggable.endDrag, mkEvent None (Some (Vector.mk 5 6)))]))
  = Some (fst (Draggable.run (fun p => p) false
            [(Draggable.performDrag, mkEvent None (Some (Vector.mk 1 1)));
             (Draggable.startDrag, mkEvent None (Some (Vector.mk 1 2)));
             (Draggable.performDrag, mkEvent (Some [Vector.mk 3 4]) None);
             (Draggable.endDrag, mkEvent None (Some (Vector.mk 5 6)))])) /\
  (false = false ->
   forallb (fun he => match fst he with Draggable.startDrag => false | _ => true end)
     [(Draggable.performDrag, mkEvent None (Some (Vector.mk 1 1)));
      (Draggable.startDrag, mkEvent None (Some (Vector.mk 1 2)));
      (Draggable.performDrag, mkEvent (Some [Vector.mk 3 4]) None);
      (Draggable.endDrag, mkEvent None (Some (Vector.mk 5 6)))] = true ->
   Draggable.run (fun p => p) false
     [(Draggable.performDrag, mkEvent None (Some (Vector.mk 1 1)));
      (Draggable.startDrag, mkEvent None (Some (Vector.mk 1 2)));
      (Draggable.performDrag, mkEvent (Some [Vector.mk 3 4]) None);
      (Draggable.endDrag, mkEvent None (Some (Vector.mk 5 6)))] = (false, [])).
Proof. apply drag_protocol. reflexivity. Defined.

(** X23: an event that carries no position - a [touchend] once the last
    finger is lifted has an empty touch list and no client coordinates -
    makes [evtToMouseCoords] fail with a TypeError.  The handlers change
    [isDragging] before they read the position, so [startDrag] still opens
    the drag and [endDrag] still closes it, but the callback is not
    reached; outside a drag [performDrag] and [endDrag] do not read the
    position and do nothing.  After a start that failed this way the next
    move runs [onDrag] with no [onDragStart] before it, which the plate's
    handler answers with a TypeError, its drag offset never set. *)
Theorem drag_without_position (toSvg : Vector.t -> Vector.t) (e e' : pointer_event)
    (pos : Vector.t) (this : CutterAssembly.t) (h : Heap.t) :
  has_coords e = false ->
  evtToMouseCoords toSvg e' = Ok pos ->
  evtToMouseCoords toSvg e = Fault TypeError /\
  (forall isDragging,
      Draggable.handle toSvg isDragging Draggable.startDrag e = (true, Fault TypeError)) /\
  Draggable.handle toSvg true Draggable.performDrag e = (true, Fault TypeError) /\
  Draggable.handle toSvg true Draggable.endDrag e = (false, Fault TypeError) /\
  Draggable.handle toSvg false Draggable.performDrag e = (false, Ok None) /\
  Draggable.handle toSvg false Draggable.endDrag e = (false, Ok None) /\
  Draggable.run toSvg false [(Draggable.startDrag, e); (Draggable.performDrag, e')]
    = (true, [Draggable.onDrag pos]) /\
  Draggable.protocol false [Draggable.onDrag pos] = None /\
  plate_onDrag pos None this h = Fault TypeError.
Proof.
  intros He Hp. apply (has_coords_Fault toSvg) in He.
  split; [exact He |].
  unfold Draggable.handle. cbn [Draggable.run]. unfold Draggable.handle.
  rewrite He, Hp. cbn. repeat split; reflexivity.
Qed.

Lemma drag_without_position_witness :
  evtToMouseCoords (fun p => p) (mkEvent (Some []) None) = Fault TypeError /\
  (forall isDragging,
      Draggable.handle (fun p => p) isDragging Draggable.startDrag
        (mkEvent (Some []) None) = (true, Fault TypeError)) /\
  Draggable.handle (fun p => p) true Draggable.performDrag (mkEvent (Some []) None)
    = (true, Fault TypeError) /\
  Draggable.handle (fun p => p) true Draggable.endDrag (mkEvent (Some []) None)
    = (false, Fault TypeError) /\
  Draggable.handle (fun p => p) false Draggable.performDrag (mkEvent (Some []) None)
    = (false, Ok None) /\
  Draggable.handle (fun p => p) false Draggable.endDrag (mkEvent (Some []) None)
    = (false, Ok None) /\
  Draggable.run (fun p => p) false
    [(Draggable.startDrag, mkEvent (Some []) None);
     (Draggable.performDrag, mkEvent None (Some (Vector.mk 3 4)))]
    = (true, [Draggable.onDrag (Vector.mk 3 4)]) /\
  Draggable.protocol false [Draggable.onDrag (Vector.mk 3 4)] = None /\
  plate_onDrag (Vector.mk 3 4) None a_init h_init = Fault TypeError.
Proof.
  apply (drag_without_position (fun p => p) (mkEvent (Some []) None)
           (mkEvent None (Some (Vector.mk 3 4)))); reflexivity.
Defined.

(** ** The price calculator page *)

Lemma magnitude_vertical (r : R) : Vector.magnitude (Vector.mk 0 r) = Rabs r.
Proof.
  unfold Vector.magnitude. cbn [Vector.x Vector.y].
  replace (0 ^ 2 + r ^ 2) with (Rsqr r) by (unfold Rsqr; ring).
  apply sqrt_Rsqr_abs.
Qed.

Lemma Rmax_10_lower (a : R) : 10 <= Rmax 10 a.
Proof. apply Rmax_l. Qed.

(** X24: whatever is typed into the form, [doCalculate] draws the log as a
    rectangle at least 10 wide and 10 high centred on (200, 100) - 100
    units per unit of length and of diameter once that exceeds 10 - and
    the end face as a circle of the rectangle's height on the same centre
    line, 20 to the right of it.  The length dimension runs along the
    rectangle 10 below it and the diameter dimension up its left side 20
    to the left, each as long as the side it measures. *)
Theorem price_page_layout (diameterInput lengthInput priceInput : option R) :
  let r := PriceCalc.doCalculate diameterInput lengthInput priceInput in
  10 <= PriceCalc.rectWidth r /\ 10 <= PriceCalc.rectHeight r /\
  PriceCalc.rectWidth r = Rmax 10 (100 * PriceCalc.value_or_0 lengthInput) /\
  PriceCalc.rectHeight r = Rmax 10 (100 * PriceCalc.value_or_0 diameterInput) /\
  PriceCalc.rectX r + PriceCalc.rectWidth r / 2 = 200 /\
  PriceCalc.rectY r + PriceCalc.rectHeight r / 2 = 100 /\
  PriceCalc.circleCy r = 100 /\
  2 * PriceCalc.circleR r = PriceCalc.rectHeight r /\
  PriceCalc.circleCx r - PriceCalc.circleR r
    = PriceCalc.rectX r + PriceCalc.rectWidth r + 20 /\
  Dimension.start (PriceCalc.lengthDim r)
    = Vector.mk (PriceCalc.rectX r) (PriceCalc.rectY r + PriceCalc.rectHeight r + 10) /\
  Vector.magnitude (Dimension.dir (PriceCalc.lengthDim r)) = PriceCalc.rectWidth r /\
  Vector.arg (Dimension.dir (PriceCalc.lengthDim r)) = 0 /\
  Dimension.start (PriceCalc.diameterDim r)
    = Vector.mk (PriceCalc.rectX r - 20) (PriceCalc.rectY r + PriceCalc.rectHeight r) /\
  Vector.magnitude (Dimension.dir (PriceCalc.diameterDim r)) = PriceCalc.rectHeight r /\
  Vector.arg (Dimension.dir (PriceCalc.diameterDim r)) = -90.
Proof.
  unfold PriceCalc.doCalculate, Dimension.update. cbv zeta.
  cbn [PriceCalc.rectWidth PriceCalc.rectHeight PriceCalc.rectX PriceCalc.rectY
       PriceCalc.circleR PriceCalc.circleCx PriceCalc.circleCy PriceCalc.lengthDim
       PriceCalc.diameterDim Dimension.start Dimension.dir].
  set (w := Rmax 10 (PriceCalc.value_or_0 lengthInput * 100)).
  set (ht := Rmax 10 (PriceCalc.value_or_0 diameterInput * 100)).
  assert (Hw : 10 <= w) by apply Rmax_10_lower.
  assert (Hh : 10 <= ht) by apply Rmax_10_lower.
  split; [exact Hw |]. split; [exact Hh |].
  split; [unfold w; f_equal; ring |]. split; [unfold ht; f_equal; ring |].
  split; [lra |]. split; [lra |]. split; [reflexivity |].
  split; [lra |]. split; [lra |]. split; [reflexivity |].
  split; [rewrite magnitude_axis; apply Rabs_right; lra |].
  split; [apply arg_right; cbn; lra |]. split; [reflexivity |].
  split; [rewrite magnitude_vertical, Rabs_Ropp; apply Rabs_right; lra |].
  apply arg_down; cbn; lra.
Qed.

(** X25: the volume [doCalculate] shows is that of a cylinder,
    pi * diameter^2 / 4 * length, and the total is volume times price; a
    field that does not parse counts as 0, so an unreadable diameter or
    length gives volume and total 0.  The sign of the diameter is lost,
    the volume never has the sign opposite to the length's.  A price step
    of [incrementPrice] changes the total by volume times the step and
    leaves the volume alone; two steps add up, and a step back undoes a
    step. *)
Theorem price_page_totals (diameter length price amount amount' : R)
    (diameterInput lengthInput priceInput : option R) :
  PriceCalc.volume (PriceCalc.doCalculate (Some diameter) (Some length) priceInput)
    = PI * (diameter * diameter) / 4 * length /\
  PriceCalc.totalPrice (PriceCalc.doCalculate diameterInput lengthInput (Some price))
    = PriceCalc.volume (PriceCalc.doCalculate diameterInput lengthInput (Some price))
      * price /\
  PriceCalc.volume (PriceCalc.doCalculate None lengthInput priceInput) = 0 /\
  PriceCalc.volume (PriceCalc.doCalculate diameterInput None priceInput) = 0 /\
  PriceCalc.totalPrice (PriceCalc.doCalculate None lengthInput priceInput) = 0 /\
  PriceCalc.totalPrice (PriceCalc.doCalculate diameterInput None priceInput) = 0 /\
  PriceCalc.totalPrice (PriceCalc.doCalculate diameterInput lengthInput None) = 0 /\
  PriceCalc.volume (PriceCalc.doCalculate (Some (- diameter)) lengthInput priceInput)
    = PriceCalc.volume (PriceCalc.doCalculate (Some diameter) lengthInput priceInput) /\
  0 <= PriceCalc.volume (PriceCalc.doCalculate diameterInput lengthInput priceInput)
       * PriceCalc.value_or_0 lengthInput /\
  PriceCalc.totalPrice (PriceCalc.doCalculate diameterInput lengthInput
                          (PriceCalc.incrementPrice amount priceInput))
    = PriceCalc.totalPrice (PriceCalc.doCalculate diameterInput lengthInput priceInput)
      + PriceCalc.volume (PriceCalc.doCalculate diameterInput lengthInput priceInput)
        * amount /\
  PriceCalc.volume (PriceCalc.doCalculate diameterInput lengthInput
                      (PriceCalc.incrementPrice amount priceInput))
    = PriceCalc.volume (PriceCalc.doCalculate diameterInput lengthInput priceInput) /\
  PriceCalc.incrementPrice amount' (PriceCalc.incrementPrice amount priceInput)
    = PriceCalc.incrementPrice (amount + amount') priceInput /\
  PriceCalc.incrementPrice (- amount) (PriceCalc.incrementPrice amount priceInput)
    = Some (PriceCalc.value_or_0 priceInput) /\
  PriceCalc.incrementPrice amount None = Some amount.
Proof.
  unfold PriceCalc.doCalculate, PriceCalc.incrementPrice. cbv zeta.
  cbn [PriceCalc.volume PriceCalc.totalPrice PriceCalc.value_or_0].
  set (d := PriceCalc.value_or_0 diameterInput).
  set (l := PriceCalc.value_or_0 lengthInput).
  set (p := PriceCalc.value_or_0 priceInput).
  split; [field |]. split; [reflexivity |].
  split; [unfold Rdiv; ring |]. split; [ring |].
  split; [unfold Rdiv; ring |]. split; [ring |]. split; [ring |].
  split; [unfold Rdiv; ring |]. split.
  { replace (PI * (d / 2) * (d / 2) * l * l) with (PI * ((d / 2 * l) * (d / 2 * l)))
      by ring.
    pose proof PI_RGT_0. pose proof (Rle_0_sqr (d / 2 * l)) as Hs.
    unfold Rsqr in Hs. nra. }
  split; [ring |]. split; [reflexivity |].
  split; [f_equal; ring |]. split; f_equal; ring.
Qed.

(** ** What updateShapes draws *)

(** X26: for positive form values [updateShapes] lays the page out around
    the centre line: the view box and the workpiece rectangle are both
    centred on it, the rectangle keeps a margin of 40 on the left, 260 on
    the right and 50 above and below, and the clip rectangle of the stored
    cuts is exactly the rectangle's half below the centre line.  The width
    and height dimensions start at the rectangle's left corners and are as
    long as the sides they measure.  The Add Cut button stands 50 to the
    right of the workpiece inside the view box's width, but inside its
    height only when the diameter is at least 140.  A value that does not
    parse or is not positive leaves everything as it was. *)
Theorem updateShapes_layout (workpieceDiameter workpieceHeight cutterDiameter : R)
    (this : DrawingView.t) :
  0 < workpieceDiameter -> 0 < workpieceHeight -> 0 < cutterDiameter ->
  let v := DrawingView.updateShapes (Some workpieceDiameter) (Some workpieceHeight)
             (Some cutterDiameter) this in
  let vb := DrawingView.viewBox v in
  let wp := DrawingView.workpiece v in
  let cl := DrawingView.clip v in
  let bt := DrawingView.addCutButton v in
  DrawingView.by_ vb + DrawingView.bheight vb / 2 = 0 /\
  Workpiece.y wp + Workpiece.height wp / 2 = 0 /\
  Workpiece.width wp = workpieceHeight /\ Workpiece.height wp = workpieceDiameter /\
  Workpiece.x wp - DrawingView.bx vb = 40 /\
  (DrawingView.bx vb + DrawingView.bwidth vb) - (Workpiece.x wp + Workpiece.width wp)
    = 260 /\
  Workpiece.y wp - DrawingView.by_ vb = 50 /\
  (DrawingView.by_ vb + DrawingView.bheight vb) - (Workpiece.y wp + Workpiece.height wp)
    = 50 /\
  DrawingView.bx cl = Workpiece.x wp /\ DrawingView.bwidth cl = Workpiece.width wp /\
  DrawingView.by_ cl = 0 /\
  DrawingView.by_ cl + DrawingView.bheight cl = Workpiece.y wp + Workpiece.height wp /\
  Dimension.start (Workpiece.widthDim wp) = Vector.mk (Workpiece.x wp) (Workpiece.y wp) /\
  Vector.magnitude (Dimension.dir (Workpiece.widthDim wp)) = Workpiece.width wp /\
  Vector.arg (Dimension.dir (Workpiece.widthDim wp)) = 0 /\
  Dimension.start (Workpiece.heightDim wp)
    = Vector.mk (Workpiece.x wp) (Workpiece.y wp + Workpiece.height wp) /\
  Vector.magnitude (Dimension.dir (Workpiece.heightDim wp)) = Workpiece.height wp /\
  Vector.arg (Dimension.dir (Workpiece.heightDim wp)) = -90 /\
  Vector.x bt = Workpiece.x wp + Workpiece.width wp + 50 /\
  DrawingView.bx vb <= Vector.x bt /\
  Vector.x bt + DrawingView.addCutButton_width <= DrawingView.bx vb + DrawingView.bwidth vb /\
  (DrawingView.by_ vb <= Vector.y bt /\
   Vector.y bt + DrawingView.addCutButton_height
     <= DrawingView.by_ vb + DrawingView.bheight vb
   <-> 140 <= workpieceDiameter) /\
  (forall d h c,
      d = None \/ h = None \/ c = None \/
      (exists a, (d = Some a \/ h = Some a \/ c = Some a) /\ a <= 0) ->
      DrawingView.updateShapes d h c this = this).
Proof.
  intros Hd Hh Hc. unfold DrawingView.updateShapes.
  rewrite (proj2 (Rleb_false workpieceDiameter 0)) by lra.
  rewrite (proj2 (Rleb_false workpieceHeight 0)) by lra.
  rewrite (proj2 (Rleb_false cutterDiameter 0)) by lra.
  cbv zeta. unfold Workpiece.resize, Dimension.update,
    DrawingView.addCutButton_width, DrawingView.addCutButton_height. cbv zeta.
  cbn [orb DrawingView.viewBox DrawingView.workpiece DrawingView.clip
       DrawingView.addCutButton DrawingView.bx DrawingView.by_ DrawingView.bwidth
       DrawingView.bheight Workpiece.x Workpiece.y Workpiece.width Workpiece.height
       Workpiece.widthDim Workpiece.heightDim Dimension.start Dimension.dir
       Vector.x Vector.y].
  split; [lra |]. split; [lra |]. split; [reflexivity |]. split; [reflexivity |].
  split; [lra |]. split; [lra |]. split; [lra |]. split; [lra |].
  split; [reflexivity |]. split; [reflexivity |]. split; [reflexivity |].
  split; [lra |]. split; [reflexivity |].
  split; [rewrite magnitude_axis; apply Rabs_right; lra |].
  split; [apply arg_right; cbn; lra |].
  split; [f_equal; lra |].
  split; [rewrite magnitude_vertical, Rabs_Ropp; apply Rabs_right; lra |].
  split; [apply arg_down; cbn; lra |].
  split; [lra |]. split; [lra |]. split; [lra |]. split; [lra |].
  intros d h c H.
  destruct d as [d |]; [| reflexivity].
  destruct h as [h |]; [| reflexivity].
  destruct c as [c |]; [| reflexivity].
  destruct H as [H | [H | [H | [a [H Ha]]]]]; try discriminate.
  destruct (Rleb d 0) eqn:E1; [reflexivity |].
  destruct (Rleb h 0) eqn:E2; [reflexivity |].
  destruct (Rleb c 0) eqn:E3; [reflexivity |].
  apply Rleb_false in E1, E2, E3.
  destruct H as [H | [H | H]]; injection H as ->; lra.
Qed.

Lemma updateShapes_layout_witness :
  let v := DrawingView.updateShapes (Some 300) (Some 80) (Some 180) DrawingView.new in
  Workpiece.width (DrawingView.workpiece v) = 80 /\
  Workpiece.height (DrawingView.workpiece v) = 300.
Proof.
  cbv zeta.
  pose proof (updateShapes_layout 300 80 180 DrawingView.new
                ltac:(lra) ltac:(lra) ltac:(lra)) as H.
  cbv zeta in H. split; [apply H | apply H].
Defined.

(** ** Arc lengths *)

(** X27: [angleFromArcLength] returns the angle, in degrees, that an arc of
    the given length spans on a circle of the given radius: turned back
    into radians and multiplied by the radius it gives the length again;
    the whole circumference gives 360, and lengths add up as angles. *)
Theorem angleFromArcLength_spans (radius length length' : R) :
  radius <> 0 ->
  degreesToRadians (angleFromArcLength radius length) * radius = length /\
  angleFromArcLength radius (2 * PI * radius) = 360 /\
  angleFromArcLength radius (length + length')
    = angleFromArcLength radius length + angleFromArcLength radius length'.
Proof.
  intros Hr. pose proof PI_neq_0 as HP.
  unfold degreesToRadians, angleFromArcLength.
  repeat split; field; auto.
Qed.

Lemma angleFromArcLength_spans_witness :
  degreesToRadians tailstockFixArcDegrees * tailstockFixArcRadius = 115.
Proof.
  unfold tailstockFixArcDegrees.
  apply (angleFromArcLength_spans tailstockFixArcRadius 115 0).
  unfold tailstockFixArcRadius. lra.
Defined.
